(** * Directed_Graph.hpp: the Digraph class template

    A shallow embedding of [Digraph<VertexInfo, EdgeInfo>] and of the two
    algorithms that read it ([isStronglyConnected], [findShortestPaths]),
    then of the two sets of the repository, [HashSet] (Hash_Map.hpp) and
    [AVLSet] (AVLSet.hpp), followed by the properties of the three classes:
    those of the specification of the graph first.

    Conventions of the embedding.
    - [int] values (vertex numbers, distances) are integers of [Z]; where the
      code converts a container size or a [double] to [int] the conversion is
      written out ([to_int], [double_to_int]).
    - [std::map<int, DigraphVertex>] is a [gmap Z DigraphVertex]; a loop from
      [graph.begin()] to [graph.end()] runs over [map_iter], the entries in
      ascending key order.
    - [std::list] and [std::vector] are lists; [vector::at] checks its index.
    - A [double] is an exact rational of [Q]: the runs evaluated below only
      involve small integers, on which [double] arithmetic is exact.
    - A member function that can throw returns a [result]; a mutating member
      function returns an [outcome], which carries the state of the graph at
      the point where the call returned or threw.  Behaviour that C++ leaves
      undefined (incrementing the past-the-end iterator of a list, converting
      an out-of-range [double] to [int], signed overflow) is the separate
      constructor [Undefined]/[Undef]: nothing is assumed about it. *)

From Stdlib Require Import ZArith QArith Qround Lqa Lia.
From stdpp Require Import sorting base numbers gmap strings relations functions.
From stdpp Require Import list.

Local Open Scope Z_scope.

(** ** Exceptions and results *)

Inductive exn :=
  | DigraphException (reason : string)
  | std_out_of_range
  | std_length_error.

Inductive result (A : Type) :=
  | Ok (a : A)
  | Throw (e : exn)
  | Undefined.
Arguments Ok {A} a.
Arguments Throw {A} e.
Arguments Undefined {A}.

Definition rbind {A B} (r : result A) (k : A → result B) : result B :=
  match r with
  | Ok a => k a
  | Throw e => Throw e
  | Undefined => Undefined
  end.

Instance result_bind : MBind result := λ A B k r, rbind r k.

(** The four error kinds of the specification, read off the message of the
    [DigraphException]; any other exception has no kind. *)
Inductive error_kind :=
  VertexNotFound | VertexAlreadyExists | EdgeNotFound | EdgeAlreadyExists.

Definition msg_no_vertex : string := "Vertex does not exist!".
Definition msg_no_vertices : string := "Vertice(s) do not exist!".
Definition msg_vertex_exists : string := "Vertex already exists!".
Definition msg_no_edge : string := "Edge does not exist!".
Definition msg_edge_exists : string := "Edge already exists!".

Definition kind_of (e : exn) : option error_kind :=
  match e with
  | DigraphException r =>
      if bool_decide (r = msg_no_vertex) then Some VertexNotFound
      else if bool_decide (r = msg_no_vertices) then Some VertexNotFound
      else if bool_decide (r = msg_vertex_exists) then Some VertexAlreadyExists
      else if bool_decide (r = msg_no_edge) then Some EdgeNotFound
      else if bool_decide (r = msg_edge_exists) then Some EdgeAlreadyExists
      else None
  | _ => None
  end.

(** ** Machine integers *)

(** Conversion to [unsigned int] and to [int] (32 bits, two's complement). *)
Definition to_unsigned (z : Z) : Z := z `mod` 2 ^ 32.
Definition to_int (z : Z) : Z := (z + 2 ^ 31) `mod` 2 ^ 32 - 2 ^ 31.

Definition INT_MAX : Z := 2 ^ 31 - 1.
Definition INT_MIN : Z := - 2 ^ 31.

(** [double] to [int]: the fractional part is discarded; undefined when the
    truncated value is not an [int]. *)
Definition Qtrunc (q : Q) : Z := Z.quot (Qnum q) (Z.pos (Qden q)).

Definition double_to_int (q : Q) : result Z :=
  let z := Qtrunc q in
  if bool_decide (INT_MIN ≤ z ≤ INT_MAX) then Ok z else Undefined.

Definition Qltb (a b : Q) : bool := negb (Qle_bool b a).

(** ** Vectors *)

(** [std::vector<T> v(n, x)] for an [int] n: a negative n converts to a
    [size_type] beyond [max_size()]. *)
Definition vector_new {A} (n : Z) (x : A) : result (list A) :=
  if bool_decide (n < 0) then Throw std_length_error
  else Ok (replicate (Z.to_nat n) x).

(** [v.at(i)] for an [int] i: the index converts to [size_type], so that a
    negative one is out of range like one past the end. *)
Definition vector_at {A} (v : list A) (i : Z) : result A :=
  if bool_decide (0 ≤ i) then
    match v !! Z.to_nat i with
    | Some x => Ok x
    | None => Throw std_out_of_range
    end
  else Throw std_out_of_range.

(** [v.at(i) = x] *)
Definition vector_set {A} (v : list A) (i : Z) (x : A) : result (list A) :=
  _ ← vector_at v i; Ok (<[Z.to_nat i := x]> v).

(** ** The data model *)

Section Digraph.
Context {VertexInfo EdgeInfo : Type}.

Record DigraphEdge := {
  fromVertex : Z;
  toVertex : Z;
  einfo : EdgeInfo
}.

Record DigraphVertex := {
  vinfo : VertexInfo;
  edges : list DigraphEdge
}.

(** The only data member of the class: [std::map<int, DigraphVertex> graph]. *)
Local Abbreviation Digraph := (gmap Z DigraphVertex).

Inductive outcome :=
  | Done (g : Digraph)
  | Raised (e : exn) (g : Digraph)
  | Undef.

(** A call after a call that returned. *)
Definition and_then (o : outcome) (call : Digraph → outcome) : outcome :=
  match o with
  | Done g => call g
  | _ => o
  end.

(** Iteration from [graph.begin()] to [graph.end()]: ascending keys. *)
Definition key_le (a b : Z * DigraphVertex) : Prop := a.1 ≤ b.1.

#[global] Instance key_le_dec a b : Decision (key_le a b) := decide (a.1 ≤ b.1).

Definition map_iter (g : Digraph) : list (Z * DigraphVertex) :=
  merge_sort key_le (map_to_list g).

(** [graph.count(vertex)] *)
Definition count (g : Digraph) (vertex : Z) : Z :=
  match g !! vertex with Some _ => 1 | None => 0 end.

(** ** Read-only member functions *)

Definition vertices (g : Digraph) : list Z :=
  foldl (λ vs i, vs ++ [i.1]) [] (map_iter g).

Definition edge_pair (j : DigraphEdge) : Z * Z := (fromVertex j, toVertex j).

(** [edges()] *)
Definition edges_all (g : Digraph) : list (Z * Z) :=
  foldl (λ es i, foldl (λ es j, es ++ [edge_pair j]) es (edges i.2))
        [] (map_iter g).

(** [edges(int vertex)] *)
Definition edges_from (g : Digraph) (vertex : Z) : result (list (Z * Z)) :=
  if bool_decide (count g vertex = 0) then
    Throw (DigraphException msg_no_vertex)
  else
    Ok (foldl (λ es i,
                 if bool_decide (i.1 = vertex)
                 then foldl (λ es j, es ++ [edge_pair j]) es (edges i.2)
                 else es)
              [] (map_iter g)).

Definition vertexInfo (g : Digraph) (vertex : Z) : result VertexInfo :=
  if bool_decide (count g vertex = 0) then
    Throw (DigraphException msg_no_vertex)
  else
    match g !! vertex with            (* graph.at(vertex) *)
    | Some v => Ok (vinfo v)
    | None => Throw std_out_of_range
    end.

(** The inner loop of [edgeInfo]: the payload of the first edge to
    [toVertex], if any. *)
Fixpoint find_edge (to : Z) (js : list DigraphEdge) : option EdgeInfo :=
  match js with
  | [] => None
  | j :: js' => if bool_decide (toVertex j = to) then Some (einfo j)
                else find_edge to js'
  end.

Fixpoint edgeInfo_loop (from to : Z) (its : list (Z * DigraphVertex))
  : result EdgeInfo :=
  match its with
  | [] => Throw (DigraphException msg_no_edge)
  | i :: its' =>
      if bool_decide (i.1 = from) then
        match find_edge to (edges i.2) with
        | Some x => Ok x
        | None => edgeInfo_loop from to its'
        end
      else edgeInfo_loop from to its'
  end.

Definition edgeInfo (g : Digraph) (from to : Z) : result EdgeInfo :=
  if bool_decide (count g from = 0 ∨ count g to = 0) then
    Throw (DigraphException msg_no_vertices)
  else edgeInfo_loop from to (map_iter g).

(** [vertexCount()]: [graph.size()] returned as an [int]. *)
Definition vertexCount (g : Digraph) : Z := to_int (Z.of_nat (size g)).

(** [edgeCount()]: an [unsigned int] counter, returned as an [int]. *)
Definition count_edges (c : Z) (js : list DigraphEdge) : Z :=
  foldl (λ c _, to_unsigned (c + 1)) c js.

Definition edgeCount (g : Digraph) : Z :=
  to_int (foldl (λ c i, count_edges c (edges i.2)) 0 (map_iter g)).

(** [edgeCount(int vertex)] *)
Definition edgeCount_from (g : Digraph) (vertex : Z) : result Z :=
  if bool_decide (count g vertex = 0) then
    Throw (DigraphException msg_no_vertex)
  else
    Ok (to_int (foldl (λ c i, if bool_decide (i.1 = vertex)
                              then count_edges c (edges i.2) else c)
                      0 (map_iter g))).

(** ** Mutating member functions *)

Fixpoint addVertex_loop (vertex : Z) (its : list (Z * DigraphVertex)) : bool :=
  match its with
  | [] => false
  | i :: its' => if bool_decide (i.1 = vertex) then true
                 else addVertex_loop vertex its'
  end.

(** [graph.insert(pair)]: no effect when the key is already there. *)
Definition map_insert_new {V} (k : Z) (v : V) (m : gmap Z V) : gmap Z V :=
  match m !! k with Some _ => m | None => <[k := v]> m end.

Definition addVertex (g : Digraph) (vertex : Z) (vi : VertexInfo) : outcome :=
  let current_vertex := {| vinfo := vi; edges := [] |} in
  if addVertex_loop vertex (map_iter g) then
    Raised (DigraphException msg_vertex_exists) g
  else Done (map_insert_new vertex current_vertex g).

(** The inner loop of [addEdge]: is there an edge to [toVertex] already? *)
Fixpoint has_edge (to : Z) (js : list DigraphEdge) : bool :=
  match js with
  | [] => false
  | j :: js' => if bool_decide (toVertex j = to) then true else has_edge to js'
  end.

Definition push_back (v : DigraphVertex) (j : DigraphEdge) : DigraphVertex :=
  {| vinfo := vinfo v; edges := edges v ++ [j] |}.

(** The outer loop of [addEdge].  It visits the entries of the map as they
    were when the loop started; it writes to the entry it stands on only. *)
Fixpoint addEdge_loop (from to : Z) (ei : EdgeInfo)
    (its : list (Z * DigraphVertex)) (g : Digraph) : outcome :=
  match its with
  | [] => Done g
  | i :: its' =>
      if bool_decide (i.1 = from) then
        if has_edge to (edges i.2) then
          Raised (DigraphException msg_edge_exists) g
        else
          addEdge_loop from to ei its'
            (<[i.1 := push_back i.2
                        {| fromVertex := from; toVertex := to; einfo := ei |}]> g)
      else addEdge_loop from to ei its' g
  end.

Definition addEdge (g : Digraph) (from to : Z) (ei : EdgeInfo) : outcome :=
  if bool_decide (count g from = 0 ∨ count g to = 0) then
    Raised (DigraphException msg_no_vertices) g
  else addEdge_loop from to ei (map_iter g) g.

(** The erasing loop shared by [removeVertex] and [removeEdge]:
<<
    for(auto j = l.begin(); j != l.end(); ++j)
        if(j->toVertex == vertex) { j = l.erase(j); [edgeExists = true;] }
>>
    [erase] returns the position after the erased edge and the [++j] of the
    loop then steps over that edge unexamined; when the erased edge was the
    last one, [++j] increments [l.end()], which is undefined ([None]).
    The result is the list that is left and whether an edge was erased. *)
Fixpoint erase_loop (vertex : Z) (l : list DigraphEdge)
  : option (list DigraphEdge * bool) :=
  match l with
  | [] => Some ([], false)
  | j :: rest =>
      if bool_decide (toVertex j = vertex) then
        match rest with
        | [] => None
        | j' :: rest' =>
            match erase_loop vertex rest' with
            | Some (l', _) => Some (j' :: l', true)
            | None => None
            end
        end
      else
        match erase_loop vertex rest with
        | Some (l', b) => Some (j :: l', b)
        | None => None
        end
  end.

Definition set_edges (v : DigraphVertex) (l : list DigraphEdge) : DigraphVertex :=
  {| vinfo := vinfo v; edges := l |}.

Fixpoint removeVertex_loop (vertex : Z) (its : list (Z * DigraphVertex))
    (g : Digraph) : outcome :=
  match its with
  | [] => Done g
  | i :: its' =>
      let l := if bool_decide (i.1 = vertex) then [] else edges i.2 in
      match erase_loop vertex l with
      | Some (l', _) =>
          removeVertex_loop vertex its' (<[i.1 := set_edges i.2 l']> g)
      | None => Undef
      end
  end.

Definition removeVertex (g : Digraph) (vertex : Z) : outcome :=
  if bool_decide (count g vertex = 0) then
    Raised (DigraphException msg_no_vertex) g
  else
    match removeVertex_loop vertex (map_iter g) g with
    | Done g' => Done (delete vertex g')
    | o => o
    end.

Fixpoint removeEdge_loop (from to : Z) (its : list (Z * DigraphVertex))
    (edgeExists : bool) (g : Digraph) : option (bool * Digraph) :=
  match its with
  | [] => Some (edgeExists, g)
  | i :: its' =>
      if bool_decide (i.1 = from) then
        match erase_loop to (edges i.2) with
        | Some (l', b) =>
            removeEdge_loop from to its' (edgeExists || b)
              (<[i.1 := set_edges i.2 l']> g)
        | None => None
        end
      else removeEdge_loop from to its' edgeExists g
  end.

Definition removeEdge (g : Digraph) (from to : Z) : outcome :=
  if bool_decide (count g from = 0 ∨ count g to = 0) then
    Raised (DigraphException msg_no_vertices) g
  else
    match removeEdge_loop from to (map_iter g) false g with
    | Some (edgeExists, g') =>
        if edgeExists then Done g'
        else Raised (DigraphException msg_no_edge) g'
    | None => Undef
    end.

(** ** Copying and moving

    Objects live at addresses; [this] and [d] may be the same object. *)

Definition swap (a b : nat) (σ : nat → Digraph) : nat → Digraph :=
  <[a := σ b]> (<[b := σ a]> σ).

(** [Digraph(const Digraph& d)] *)
Definition copy_construct (this d : nat) (σ : nat → Digraph) : nat → Digraph :=
  <[this := σ d]> σ.

(** [Digraph(Digraph&& d)]: the member [graph] of the new object is
    default-constructed, then swapped with [d.graph]. *)
Definition move_construct (this d : nat) (σ : nat → Digraph) : nat → Digraph :=
  swap this d (<[this := ∅]> σ).

(** [operator=(const Digraph& d)] *)
Definition copy_assign (this d : nat) (σ : nat → Digraph) : nat → Digraph :=
  if bool_decide (this ≠ d) then
    let σ1 := <[this := ∅]> σ in       (* graph.clear() *)
    let temp := σ1 d in
    <[this := temp]> σ1
  else σ.

(** [operator=(Digraph&& d)] *)
Definition move_assign (this d : nat) (σ : nat → Digraph) : nat → Digraph :=
  if bool_decide (this ≠ d) then swap this d σ else σ.

(** ** Strong connectivity

    [depthFirst] declares its first parameter as a [VertexInfo] and not as an
    [int]: a call converts the vertex number it passes to a [VertexInfo]
    ([int_to_vinfo]), and the tests [i->first == vertex] and
    [tracker.at(j) == vertex] compare an [int] with a [VertexInfo]
    ([int_eq_vinfo]).  The recursion is bounded by [fuel], the depth of the
    call stack; [None] means that the bound was reached. *)

Context (int_to_vinfo : Z → VertexInfo) (int_eq_vinfo : Z → VertexInfo → bool).

Definition scan_tracker (vertex : VertexInfo) (tracker : list Z)
    (strong_connected : bool) : bool :=
  foldl (λ b t, if int_eq_vinfo t vertex then true else b)
        strong_connected tracker.

Section depthFirst_body.
Variable rec : VertexInfo → list Z → option (list Z).

Fixpoint visit_edges (ks : list DigraphEdge) (tracker : list Z)
  : option (list Z) :=
  match ks with
  | [] => Some tracker
  | k :: ks' =>
      match rec (int_to_vinfo (toVertex k)) tracker with
      | Some tracker' => visit_edges ks' tracker'
      | None => None
      end
  end.

Fixpoint depthFirst_loop (vertex : VertexInfo) (its : list (Z * DigraphVertex))
    (strong_connected : bool) (tracker : list Z) : option (list Z) :=
  match its with
  | [] => Some tracker
  | i :: its' =>
      if int_eq_vinfo i.1 vertex then
        let sc := scan_tracker vertex tracker strong_connected in
        if sc then depthFirst_loop vertex its' sc tracker
        else
          match visit_edges (edges i.2) (tracker ++ [i.1]) with
          | Some tracker' => depthFirst_loop vertex its' sc tracker'
          | None => None
          end
      else depthFirst_loop vertex its' strong_connected tracker
  end.
End depthFirst_body.

Fixpoint depthFirst (fuel : nat) (g : Digraph) (vertex : VertexInfo)
    (tracker : list Z) : option (list Z) :=
  match fuel with
  | O => None
  | S fuel' =>
      depthFirst_loop (depthFirst fuel' g) vertex (map_iter g) false tracker
  end.

(** [int] to [std::size_t], for [vertexCount() != tracker.size()]. *)
Definition to_size_t (z : Z) : Z := z `mod` 2 ^ 64.

Fixpoint isStronglyConnected_loop (g : Digraph) (its : list (Z * DigraphVertex))
  : option bool :=
  match its with
  | [] => Some true
  | i :: its' =>
      match depthFirst (S (size g)) g (int_to_vinfo i.1) [] with
      | Some tracker =>
          if bool_decide (to_size_t (vertexCount g) ≠ Z.of_nat (length tracker))
          then Some false
          else isStronglyConnected_loop g its'
      | None => None
      end
  end.

Definition isStronglyConnected (g : Digraph) : option bool :=
  isStronglyConnected_loop g (map_iter g).

(** ** Shortest paths *)

(** The local variables of [findShortestPaths].  An element of [pq] is a
    [std::pair<int, double>]. *)
Record dijkstra := {
  kv : list bool;
  pv : gmap Z Z;
  dv : list Z;
  pq : list (Z * Q)
}.

(** The comparison given to the priority queue:
    [left.second > right.second]. *)
Definition compare (left right : Z * Q) : bool := Qltb right.2 left.2.

(** [pq.top()] and [pq.pop()]: the top of a [std::priority_queue] is an
    element that [compare] orders before no other one, the rest is what
    [pop] leaves.  Of several such elements the one pushed last is taken;
    they have the same [second], the only member the caller reads. *)
Fixpoint pq_extract (q : list (Z * Q)) : option ((Z * Q) * list (Z * Q)) :=
  match q with
  | [] => None
  | x :: q' =>
      match pq_extract q' with
      | None => Some (x, [])
      | Some (y, r) => if compare x y then Some (y, x :: r) else Some (x, q')
      end
  end.

Definition pq_push (x : Z * Q) (q : list (Z * Q)) : list (Z * Q) := x :: q.

(** Signed addition of two [int]s. *)
Definition int_add (a b : Z) : result Z :=
  if bool_decide (INT_MIN ≤ a + b ≤ INT_MAX) then Ok (a + b) else Undefined.

(** [m.at(k) = v] for a [std::map] *)
Definition map_at_set (m : gmap Z Z) (k v : Z) : result (gmap Z Z) :=
  match m !! k with
  | Some _ => Ok (<[k := v]> m)
  | None => Throw std_out_of_range
  end.

Section findShortestPaths.
Variable g : Digraph.
Variable edgeWeightFunc : EdgeInfo → Q.

(** The loop over the outgoing edges of [vertex]. *)
Fixpoint relax (vertex : Z) (js : list DigraphEdge) (st : dijkstra)
  : result dijkstra :=
  match js with
  | [] => Ok st
  | j :: js' =>
      d_to ← vector_at (dv st) (toVertex j);
      d_v ← vector_at (dv st) vertex;
      if Qltb (inject_Z d_v + edgeWeightFunc (einfo j))%Q (inject_Z d_to) then
        d ← double_to_int (inject_Z d_v + edgeWeightFunc (einfo j))%Q;
        dv' ← vector_set (dv st) (toVertex j) d;
        let pv' := match pv st !! toVertex j with     (* pv.find *)
                   | Some _ => <[toVertex j := vertex]> (pv st)
                   | None => pv st
                   end in
        d' ← vector_at dv' (toVertex j);
        relax vertex js'
          {| kv := kv st; pv := pv'; dv := dv';
             pq := pq_push (d', inject_Z (toVertex j)) (pq st) |}
      else relax vertex js' st
  end.

(** The loop over the map that looks for the entry of [vertex]. *)
Fixpoint settle (vertex : Z) (its : list (Z * DigraphVertex)) (st : dijkstra)
  : result dijkstra :=
  match its with
  | [] => Ok st
  | i :: its' =>
      if bool_decide (i.1 = vertex) then
        st' ← relax vertex (edges i.2) st; settle vertex its' st'
      else settle vertex its' st
  end.

(** One turn of the [while] loop, [top] being [pq.top()] and [rest] the
    queue after [pq.pop()]. *)
Definition iteration (top : Z * Q) (rest : list (Z * Q)) (st : dijkstra)
  : result dijkstra :=
  vertex ← double_to_int top.2;
  known ← vector_at (kv st) vertex;
  if (known : bool) then Ok {| kv := kv st; pv := pv st; dv := dv st; pq := rest |}
  else
    kv' ← vector_set (kv st) vertex true;
    settle vertex (map_iter g)
      {| kv := kv'; pv := pv st; dv := dv st; pq := rest |}.

(** [while(!pq.empty())]; [None] when [fuel] turns were not enough. *)
Fixpoint while_loop (fuel : nat) (st : dijkstra) : option (result dijkstra) :=
  match fuel with
  | O => None
  | S fuel' =>
      match pq_extract (pq st) with
      | None => Some (Ok st)
      | Some (top, rest) =>
          match iteration top rest st with
          | Ok st' => while_loop fuel' st'
          | Throw e => Some (Throw e)
          | Undefined => Some Undefined
          end
      end
  end.

(** The state at the head of the [while] loop after [n] turns, when the
    loop gets that far. *)
Fixpoint state_after (n : nat) (st : dijkstra) : option dijkstra :=
  match n with
  | O => Some st
  | S n' =>
      match pq_extract (pq st) with
      | Some (top, rest) =>
          match iteration top rest st with
          | Ok st' => state_after n' st'
          | _ => None
          end
      | None => None
      end
  end.

Definition init (startVertex : Z) : result dijkstra :=
  n ← int_add (vertexCount g) 1;
  kv0 ← vector_new n false;
  n' ← int_add (vertexCount g) 1;
  dv0 ← vector_new n' 2147000000;
  let pv0 := foldl (λ m i, map_insert_new i.1 (-1) m) ∅ (map_iter g) in
  pv1 ← map_at_set pv0 startVertex startVertex;
  dv1 ← vector_set dv0 startVertex 0;
  Ok {| kv := kv0; pv := pv1; dv := dv1;
        pq := pq_push (0, inject_Z startVertex) [] |}.

(** The last loop: a vertex still at [-1] gets itself as its value. *)
Definition finalize (m : gmap Z Z) : gmap Z Z :=
  map_imap (λ k p, Some (if bool_decide (p = -1) then k else p)) m.

(** Every turn of the loop pops an entry, and the entries pushed come from the
    edges of a vertex that was not known before: the number of edges plus two
    bounds the number of turns (see [findShortestPaths_returns]). *)
Definition turns : nat := S (S (length (edges_all g))).

Definition findShortestPaths (startVertex : Z) : option (result (gmap Z Z)) :=
  match init startVertex with
  | Ok st =>
      match while_loop turns st with
      | Some (Ok st') => Some (Ok (finalize (pv st')))
      | Some (Throw e) => Some (Throw e)
      | Some Undefined => Some Undefined
      | None => None
      end
  | Throw e => Some (Throw e)
  | Undefined => Some Undefined
  end.

End findShortestPaths.

End Digraph.

Arguments DigraphEdge : clear implicits.
Arguments DigraphVertex : clear implicits.
Arguments outcome : clear implicits.

Abbreviation Digraph V E := (gmap Z (DigraphVertex V E)).

(** ** Notions of the specification *)

Section Notions.
Context {VertexInfo EdgeInfo : Type}.
Implicit Types (g : Digraph VertexInfo EdgeInfo) (j : DigraphEdge EdgeInfo).

(** The structural invariants of the graph: an edge is stored under its
    source, both its endpoints are vertices, and the edges of a vertex go to
    distinct destinations. *)
Definition edge_ok g (k : Z) j : Prop :=
  fromVertex j = k ∧ is_Some (g !! k) ∧ is_Some (g !! toVertex j).

Definition vertex_ok g (k : Z) (v : DigraphVertex VertexInfo EdgeInfo) : Prop :=
  Forall (edge_ok g k) (edges v) ∧ NoDup (toVertex <$> edges v).

Definition invariant g : Prop := map_Forall (vertex_ok g) g.

#[global] Instance invariant_dec g : Decision (invariant g).
Proof. unfold invariant, vertex_ok, edge_ok. apply _. Defined.

(** [w] is the head of an outgoing edge of [u], as the traversals follow
    them: along [toVertex], from the list stored under [u]. *)
Definition succ g (u w : Z) : Prop :=
  ∃ v j, g !! u = Some v ∧ j ∈ edges v ∧ toVertex j = w.

Definition reach g : Z → Z → Prop := rtc (succ g).

(** Every vertex of the graph can reach every vertex of the graph. *)
Definition strongly_connected g : Prop :=
  ∀ u w, is_Some (g !! u) → is_Some (g !! w) → reach g u w.

(** [path g weight u w c]: edges lead from [u] to [w] with total weight [c]. *)
Inductive path g (weight : EdgeInfo → Q) (u : Z) : Z → Q → Prop :=
  | path_nil : path g weight u u 0%Q
  | path_snoc x v j w c :
      path g weight u x c → g !! x = Some v → j ∈ edges v → toVertex j = w →
      path g weight u w (c + weight (einfo j))%Q.

(** [p] precedes [w] on a path from [start] of minimum total weight. *)
Definition shortest_via g (weight : EdgeInfo → Q) (start p w : Z) : Prop :=
  ∃ c v j, path g weight start p c ∧ g !! p = Some v ∧ j ∈ edges v ∧
           toVertex j = w ∧
           ∀ c', path g weight start w c' → (c + weight (einfo j) <= c')%Q.

(** The map is a shortest-path tree rooted at [start]: every vertex that can
    be reached, [start] apart, has a predecessor on a minimum-weight path. *)
Definition shortest_path_tree g (weight : EdgeInfo → Q) (start : Z)
    (m : gmap Z Z) : Prop :=
  ∀ w, is_Some (g !! w) → w ≠ start → reach g start w →
       ∃ p, m !! w = Some p ∧ shortest_via g weight start p w.

(** The pairs [edges()] reports for the edges stored in one vertex. *)
Definition pairs_of (v : DigraphVertex VertexInfo EdgeInfo) : list (Z * Z) :=
  edge_pair <$> edges v.

(** The vertices of the graph [tracker] does not hold yet. *)
Definition unvisited g (tracker : list Z) : nat :=
  length (filter (λ k, k ∉ tracker) (vertices g)).

(** [t'] extends the tracker [t] by vertices of the graph, none of them
    twice. *)
Definition grows g (t t' : list Z) : Prop :=
  t `prefix_of` t' ∧ (NoDup t → NoDup t') ∧ (t ⊆ vertices g → t' ⊆ vertices g).

(** What a call of [depthFirst] does when it is made with fewer than [n]
    vertices unvisited: it returns a tracker that has grown. *)
Definition returns_below g (n : nat)
    (rec : VertexInfo → list Z → option (list Z)) : Prop :=
  ∀ vertex t, (unvisited g t < n)%nat →
              ∃ t', rec vertex t = Some t' ∧ grows g t t'.

(** What a call that returns has done to the tracker: it has added its
    vertex, only vertices that the vertex reaches, and all the successors of
    each vertex it added. *)
Definition visits g (x : Z) (t t' : list Z) : Prop :=
  t ⊆ t' ∧
  (is_Some (g !! x) → x ∈ t') ∧
  (∀ y, y ∈ t' → y ∉ t → reach g x y) ∧
  (∀ y, y ∈ t' → y ∉ t → ∀ z, succ g y z → is_Some (g !! z) → z ∈ t').



(** Whether the vector [kv] marks vertex [k] as known. *)
Definition known (kv : list bool) (k : Z) : bool :=
  bool_decide (0 ≤ k) && bool_decide (kv !! Z.to_nat k = Some true).





(** The vertex numbers of the graph are between 0 and the number of
    vertices, which is less than [INT_MAX]. *)
Definition dense g : Prop :=
  Z.of_nat (size g) < INT_MAX ∧
  map_Forall (λ k _, 0 ≤ k ≤ Z.of_nat (size g)) g.

#[global] Instance dense_dec g : Decision (dense g).
Proof. unfold dense. apply _. Defined.

End Notions.

(** ** Instances used as evidence *)

(** The weight of an edge whose payload is a number: the payload, or 0 for
    a negative payload, so that no weight is negative. *)
Definition weight (x : Q) : Q := if Qle_bool 0 x then x else 0%Q.

(** A [Digraph<int, double>] whose edge payload is its weight. *)
Definition vertex_of (l : list (Z * Z * Q)) : DigraphVertex Z Q :=
  {| vinfo := 0;
     edges := (λ e, {| fromVertex := e.1.1; toVertex := e.1.2; einfo := e.2 |})
              <$> l |}.

(** Vertices 1 to 4; the path 1, 3, 2, 4 costs 3 and the edge from 1 to 4
    costs 5. *)
Definition detour : Digraph Z Q :=
  list_to_map
    [ (1, vertex_of [(1, 2, 10%Q); (1, 3, 1%Q); (1, 4, 5%Q)]);
      (2, vertex_of [(2, 4, 1%Q)]);
      (3, vertex_of [(3, 2, 1%Q)]);
      (4, vertex_of []) ].

(** The example of the specification, with A, B, C, D numbered 1 to 4, and
    the isolated vertex E as 0. *)
Definition abcd : Digraph Z Q :=
  list_to_map
    [ (0, vertex_of []);
      (1, vertex_of [(1, 2, 1%Q); (1, 3, 5%Q)]);
      (2, vertex_of [(2, 3, 2%Q)]);
      (3, vertex_of [(3, 4, 1%Q)]);
      (4, vertex_of []) ].

(** One vertex, numbered 5, and no edge. *)
Definition lone5 : Digraph Z Q := {[ 5 := vertex_of [] ]}.

(** The cycle 1, 2, 3 and the same without the edge from 3 to 1. *)
Definition cycle3 : Digraph Z Q :=
  list_to_map
    [ (1, vertex_of [(1, 2, 1%Q)]);
      (2, vertex_of [(2, 3, 1%Q)]);
      (3, vertex_of [(3, 1, 1%Q)]) ].

Definition chain3 : Digraph Z Q :=
  list_to_map
    [ (1, vertex_of [(1, 2, 1%Q)]);
      (2, vertex_of [(2, 3, 1%Q)]);
      (3, vertex_of []) ].

(** [Digraph<bool, double>]: an [int] converts to [true] unless it is 0, and
    [i->first == vertex] promotes the [bool] to 1 or 0. *)
Definition int_to_bool (z : Z) : bool := negb (bool_decide (z = 0)).
Definition int_eq_bool (z : Z) (b : bool) : bool :=
  bool_decide (z = if b then 1 else 0).

Definition lone2 : Digraph bool Q := {[ 2 := {| vinfo := true; edges := [] |} ]}.

(** [Digraph<int, double>]: the conversion is the identity. *)
Definition int_to_int (z : Z) : Z := z.
Definition int_eq_int (a b : Z) : bool := bool_decide (a = b).

(** A store of two objects: the one at 0 holds [lone5], the other [cycle3]. *)
Definition two_graphs (a : nat) : Digraph Z Q :=
  if bool_decide (a = 0%nat) then lone5 else cycle3.

(** * Hash_Map.hpp: the HashSet class template

    A hash table with separate chaining.  [Node** hashTable] is either
    [nullptr] or an array of buckets, and a bucket, a singly linked list of
    [Node]s, is the list of its values from the head on.  [unsigned int]
    values are integers of [Z] with the wrap-around written out.  Reading
    [hashTable[i]] through a null pointer or past the end of the array, and
    [%] by zero, are undefined.  Allocation is taken to succeed.

    [loadFactor()] divides two [unsigned int]s as [double]s: the quotient is
    a rational here, and infinite or not a number when the capacity is 0.
    Its comparison with 0.8 is the comparison of the rationals: a quotient of
    two 32-bit numbers that differs from 4/5 differs from it by more than
    the rounding of a [double]. *)

Module HashSet.

Inductive double :=
  | real (q : Q)
  | infinity
  | not_a_number.

(** [d > q] *)
Definition exceeds (d : double) (q : Q) : bool :=
  match d with
  | real x => Qltb q x
  | infinity => true
  | not_a_number => false
  end.

Definition DEFAULT_CAPACITY : Z := 10.

Section HashSet.
Context {ElementType : Type} `{EqDecision ElementType}.

(** The data members but [hashFunction], which never changes. *)
Record HashSet := {
  hashTable : option (list (list ElementType));
  sz : Z;
  capacity : Z
}.

Variable hashFunction : ElementType → Z.

(** A call of [hashFunction], a [std::function] that returns an
    [unsigned int]. *)
Definition hash (element : ElementType) : Z := to_unsigned (hashFunction element).

(** [hashTable[index]] *)
Definition bucket (s : HashSet) (index : Z) : result (list ElementType) :=
  match hashTable s with
  | Some table =>
      match table !! Z.to_nat index with
      | Some head => Ok head
      | None => Undefined
      end
  | None => Undefined
  end.

(** [hashFunction(element) % capacity] *)
Definition index_of (s : HashSet) (element : ElementType) : result Z :=
  if bool_decide (capacity s = 0) then Undefined
  else Ok (hash element `mod` capacity s).

(** [explicit HashSet(HashFunction)] *)
Definition create : HashSet :=
  {| hashTable := Some (replicate (Z.to_nat DEFAULT_CAPACITY) []);
     sz := 0; capacity := DEFAULT_CAPACITY |}.

(** The loop that copies a bucket: every node is put in front of the ones
    copied before it. *)
Definition copy_nodes (originalHash newHash : list ElementType)
  : list ElementType :=
  foldl (λ newHash value, value :: newHash) newHash originalHash.

(** The loop over the [n] buckets from [i] on, of the copy constructor and of
    copy assignment. *)
Fixpoint copy_loop (s : HashSet) (i : Z) (n : nat)
  : result (list (list ElementType)) :=
  match n with
  | O => Ok []
  | S n' =>
      originalHash ← bucket s i;
      rest ← copy_loop s (i + 1) n';
      Ok (copy_nodes originalHash [] :: rest)
  end.

(** [HashSet(const HashSet& s)] *)
Definition copy_construct (s : HashSet) : result HashSet :=
  newhashTable ← copy_loop s 0 (Z.to_nat (capacity s));
  Ok {| hashTable := Some newhashTable; sz := sz s; capacity := capacity s |}.

(** [HashSet(HashSet&& s)]: the new object, then [s] as it is left. *)
Definition move_construct (s : HashSet) : HashSet * HashSet :=
  let this := {| hashTable := None; sz := 0; capacity := DEFAULT_CAPACITY |} in
  ({| hashTable := hashTable s; sz := sz s; capacity := capacity s |},
   {| hashTable := hashTable this; sz := sz this; capacity := capacity this |}).

(** [destroyAll()]: every node of the [n] buckets from [i] on is deleted,
    [sz] is decremented for each of them, and the bucket is emptied. *)
Fixpoint destroy_loop (s : HashSet) (i : Z) (n : nat) : result HashSet :=
  match n with
  | O => Ok s
  | S n' =>
      head ← bucket s i;
      match hashTable s with
      | Some table =>
          destroy_loop
            {| hashTable := Some (<[Z.to_nat i := []]> table);
               sz := foldl (λ sz _, to_unsigned (sz - 1)) (sz s) head;
               capacity := capacity s |}
            (i + 1) n'
      | None => Undefined
      end
  end.

Definition destroyAll (s : HashSet) : result HashSet :=
  destroy_loop s 0 (Z.to_nat (capacity s)).

(** [operator=(const HashSet& s)] for [this != &s]: what [this] becomes. *)
Definition copy_assign (this s : HashSet) : result HashSet :=
  _ ← destroyAll this;
  newHashTable ← copy_loop s 0 (Z.to_nat (capacity s));
  Ok {| hashTable := Some newHashTable; sz := sz s; capacity := capacity s |}.

(** [operator=(HashSet&& s)] for [this != &s]: [this], then [s]. *)
Definition move_assign (this s : HashSet) : HashSet * HashSet :=
  ({| hashTable := hashTable s; sz := sz s; capacity := capacity s |},
   {| hashTable := hashTable this; sz := sz this; capacity := capacity this |}).

Definition loadFactor (s : HashSet) : double :=
  if bool_decide (capacity s = 0) then
    if bool_decide (sz s = 0) then not_a_number else infinity
  else real (inject_Z (sz s) / inject_Z (capacity s)).

(** The loop of [contains] and of [isElementAtIndex] over a bucket. *)
Fixpoint find (element : ElementType) (nodes : list ElementType) : bool :=
  match nodes with
  | [] => false
  | value :: next =>
      if bool_decide (value = element) then true else find element next
  end.

Definition contains (s : HashSet) (element : ElementType) : result bool :=
  index ← index_of s element;
  find_ ← bucket s index;
  Ok (find element find_).

(** The inner loop of the resizing in [add]: the nodes of one bucket are
    linked, one after the other, in front of the bucket [index] of the new
    table. *)
Fixpoint relink (index : Z) (head : list ElementType)
    (newHashTable : list (list ElementType))
  : result (list (list ElementType)) :=
  match head with
  | [] => Ok newHashTable
  | current :: next =>
      match newHashTable !! Z.to_nat index with
      | Some newHash =>
          relink index next (<[Z.to_nat index := current :: newHash]> newHashTable)
      | None => Undefined
      end
  end.

(** The outer loop, over the [n] buckets from [i] on.  The index is
    [hashFunction(element) % newCapacity] for the element that is being
    added, whatever the node. *)
Fixpoint rehash_loop (s : HashSet) (index : Z) (i : Z) (n : nat)
    (newHashTable : list (list ElementType))
  : result (list (list ElementType)) :=
  match n with
  | O => Ok newHashTable
  | S n' =>
      head ← bucket s i;
      t ← relink index head newHashTable;
      rehash_loop s index (i + 1) n' t
  end.

(** The body of [if(loadFactor() > 0.8)] in [add]. *)
Definition resize (s : HashSet) (element : ElementType) : result HashSet :=
  let newCapacity := to_unsigned (capacity s * 2 + 1) in
  newHashTable ← rehash_loop s (hash element `mod` newCapacity) 0
                   (Z.to_nat (capacity s))
                   (replicate (Z.to_nat newCapacity) []);
  Ok {| hashTable := Some newHashTable; sz := sz s; capacity := newCapacity |}.

(** The rest of [add], after the resizing: the element is put at the head
    of its bucket unless [contains] finds it. *)
Definition place (s : HashSet) (element : ElementType) : result HashSet :=
  index ← index_of s element;
  found ← contains s element;
  if (found : bool) then Ok s
  else
    head ← bucket s index;
    match hashTable s with
    | Some table =>
        Ok {| hashTable := Some (<[Z.to_nat index := element :: head]> table);
              sz := to_unsigned (sz s + 1);
              capacity := capacity s |}
    | None => Undefined
    end.

Definition add (s : HashSet) (element : ElementType) : result HashSet :=
  s ← (if exceeds (loadFactor s) (8 # 10) then resize s element else Ok s);
  place s element.

Definition size (s : HashSet) : Z := sz s.

(** [elementsAtIndex(index)], for an [unsigned int] index. *)
Definition elementsAtIndex (s : HashSet) (index : Z) : result Z :=
  if bool_decide (0 ≤ index ∧ index < capacity s) then
    current ← bucket s index;
    Ok (foldl (λ temp _, to_unsigned (temp + 1)) 0 current)
  else Ok 0.

(** [isElementAtIndex(element, index)]: the test is
    [index >= 0 || index < capacity]. *)
Definition isElementAtIndex (s : HashSet) (element : ElementType) (index : Z)
  : result bool :=
  if bool_decide (0 ≤ index ∨ index < capacity s) then
    current ← bucket s index;
    Ok (find element current)
  else Ok false.

(** [add] for each element of a list, in turn. *)
Definition add_all (s : HashSet) (elements : list ElementType) : result HashSet :=
  foldl (λ r element, s ← r; add s element) (Ok s) elements.

(** ** Notions *)

(** The table is allocated with [capacity] buckets, and the members are
    [unsigned int]s. *)
Definition allocated (s : HashSet) : Prop :=
  ∃ table, hashTable s = Some table ∧
           length table = Z.to_nat (capacity s) ∧
           0 < capacity s < 2 ^ 32 ∧ 0 ≤ sz s < 2 ^ 32.

(** The values of all the nodes, bucket after bucket. *)
Definition nodes (s : HashSet) : list ElementType :=
  match hashTable s with
  | Some table => concat table
  | None => []
  end.

(** Every node is in the bucket that [contains] searches for its value. *)
Definition placed (s : HashSet) : Prop :=
  ∀ table (i : nat) head y,
    hashTable s = Some table → table !! i = Some head → y ∈ head →
    Z.of_nat i = hash y `mod` capacity s.

(** [sz] counts the nodes. *)
Definition counted (s : HashSet) : Prop :=
  sz s = to_unsigned (Z.of_nat (length (nodes s))).

End HashSet.

Arguments HashSet : clear implicits.

End HashSet.

(** * AVLSet.hpp: the AVLSet class template

    A binary search tree that [add] rebalances by rotations when the set was
    constructed with [shouldBalance].  A [Node*] is a tree: [nullptr] is the
    empty tree.  [element < value] is the relation [less], [element > value]
    is [less value element], and [==] is equality.  Dereferencing a null
    pointer is undefined.  A traversal returns the values in the order in
    which it passes them to [visit].  Allocation is taken to succeed, and
    heights to stay below the range of [int]. *)

Module AVLSet.

Section AVLSet.
Context {ElementType : Type} `{EqDecision ElementType}.
Context (less : relation ElementType) `{∀ x y, Decision (less x y)}.

Inductive Node :=
  | nullptr
  | node (value : ElementType) (left_ right_ : Node).

Record AVLSet := {
  root : Node;
  sz : Z;
  isBalancing : bool
}.

(** [explicit AVLSet(bool shouldBalance = true)] *)
Definition create (shouldBalance : bool) : AVLSet :=
  {| root := nullptr; sz := 0; isBalancing := shouldBalance |}.

Fixpoint copyAll (node_ : Node) : Node :=
  match node_ with
  | nullptr => nullptr
  | node value left_ right_ => node value (copyAll left_) (copyAll right_)
  end.

(** [AVLSet(const AVLSet& s)] *)
Definition copy_construct (s : AVLSet) : AVLSet :=
  {| root := copyAll (root s); sz := sz s; isBalancing := isBalancing s |}.

(** [AVLSet(AVLSet&& s)]: the new object, then [s] as it is left.  Only the
    roots are swapped. *)
Definition move_construct (s : AVLSet) : AVLSet * AVLSet :=
  let this := {| root := nullptr; sz := sz s; isBalancing := isBalancing s |} in
  ({| root := root s; sz := sz this; isBalancing := isBalancing this |},
   {| root := root this; sz := sz s; isBalancing := isBalancing s |}).

(** [operator=(const AVLSet& s)] for [this != &s]: what [this] becomes, its
    own nodes having been deleted. *)
Definition copy_assign (this s : AVLSet) : AVLSet :=
  {| root := copyAll (root s); sz := sz s; isBalancing := isBalancing s |}.

(** [operator=(AVLSet&& s)] for [this != &s]: [this], then [s]. *)
Definition move_assign (this s : AVLSet) : AVLSet * AVLSet :=
  ({| root := root s; sz := sz s; isBalancing := isBalancing s |},
   {| root := root this; sz := sz this; isBalancing := isBalancing this |}).

Definition rrRotation (node_ : Node) : result Node :=
  match node_ with
  | node value left_ (node tvalue tleft tright) =>   (* temp = node_->right *)
      Ok (node tvalue (node value left_ tleft) tright)
  | _ => Undefined
  end.

Definition llRotation (node_ : Node) : result Node :=
  match node_ with
  | node value (node tvalue tleft tright) right_ =>   (* temp = node_->left *)
      Ok (node tvalue tleft (node value tright right_))
  | _ => Undefined
  end.

Fixpoint height_ (node_ : Node) : Z :=
  match node_ with
  | nullptr => -1
  | node _ left_ right_ =>
      let left_subtree := height_ left_ in
      let right_subtree := height_ right_ in
      Z.max left_subtree right_subtree + 1
  end.

Definition checkBalance (node_ : Node) (element : ElementType) : result Node :=
  match node_ with
  | nullptr => Ok node_
  | node value left_ right_ =>
      let balance := height_ left_ - height_ right_ in
      if bool_decide (balance < -1) then
        match right_ with
        | nullptr => Undefined                      (* node_->right->value *)
        | node rvalue _ _ =>
            if decide (less rvalue element) then rrRotation node_
            else if decide (less element rvalue) then
              right' ← llRotation right_;
              rrRotation (node value left_ right')
            else Ok node_
        end
      else if bool_decide (balance > 1) then
        match left_ with
        | nullptr => Undefined                      (* node_->left->value *)
        | node lvalue _ _ =>
            if decide (less element lvalue) then llRotation node_
            else if decide (less lvalue element) then
              left' ← rrRotation left_;
              llRotation (node value left' right_)
            else Ok node_
        end
      else Ok node_
  end.

(** [insert(node_, element)]: the subtree that [node_] refers to afterwards,
    and [sz]. *)
Fixpoint insert (isBalancing : bool) (node_ : Node) (element : ElementType)
    (sz : Z) : result (Node * Z) :=
  let balance (node_ : Node) (sz : Z) : result (Node * Z) :=
    if isBalancing then node_ ← checkBalance node_ element; Ok (node_, sz)
    else Ok (node_, sz) in
  match node_ with
  | nullptr => balance (node element nullptr nullptr) (to_unsigned (sz + 1))
  | node value left_ right_ =>
      if decide (less element value) then
        r ← insert isBalancing left_ element sz;
        balance (node value r.1 right_) r.2
      else if decide (less value element) then
        r ← insert isBalancing right_ element sz;
        balance (node value left_ r.1) r.2
      else if decide (element = value) then Ok (node_, sz)
      else balance node_ sz
  end.

Definition add (s : AVLSet) (element : ElementType) : result AVLSet :=
  r ← insert (isBalancing s) (root s) element (sz s);
  Ok {| root := r.1; sz := r.2; isBalancing := isBalancing s |}.

Fixpoint contains_ (node_ : Node) (element : ElementType) : bool :=
  match node_ with
  | node value left_ right_ =>
      if decide (value = element) then true
      else if decide (less element value) then contains_ left_ element
      else contains_ right_ element
  | nullptr => false
  end.

Definition contains (s : AVLSet) (element : ElementType) : bool :=
  contains_ (root s) element.

Definition size (s : AVLSet) : Z := sz s.

Definition height (s : AVLSet) : Z := height_ (root s).

Fixpoint preorder_ (node_ : Node) : list ElementType :=
  match node_ with
  | nullptr => []
  | node value left_subtree right_subtree =>
      [value] ++ preorder_ left_subtree ++ preorder_ right_subtree
  end.

Fixpoint inorder_ (node_ : Node) : list ElementType :=
  match node_ with
  | nullptr => []
  | node value left_subtree right_subtree =>
      inorder_ left_subtree ++ [value] ++ inorder_ right_subtree
  end.

Fixpoint postorder_ (node_ : Node) : list ElementType :=
  match node_ with
  | nullptr => []
  | node value left_subtree right_subtree =>
      postorder_ left_subtree ++ postorder_ right_subtree ++ [value]
  end.

Definition preorder (s : AVLSet) : list ElementType := preorder_ (root s).
Definition inorder (s : AVLSet) : list ElementType := inorder_ (root s).
Definition postorder (s : AVLSet) : list ElementType := postorder_ (root s).

(** [add] for each element of a list, in turn. *)
Definition add_all (s : AVLSet) (elements : list ElementType) : result AVLSet :=
  foldl (λ r element, s ← r; add s element) (Ok s) elements.

(** ** Notions *)

(** A search tree: the values on the left of a node are less than its value
    and the values on its right are greater. *)
Fixpoint search_tree (node_ : Node) : Prop :=
  match node_ with
  | nullptr => True
  | node value left_ right_ =>
      (∀ x, x ∈ inorder_ left_ → less x value) ∧
      (∀ x, x ∈ inorder_ right_ → less value x) ∧
      search_tree left_ ∧ search_tree right_
  end.

(** At every node the heights of the two subtrees differ by one at most. *)
Fixpoint balanced (node_ : Node) : Prop :=
  match node_ with
  | nullptr => True
  | node _ left_ right_ =>
      -1 ≤ height_ left_ - height_ right_ ≤ 1 ∧ balanced left_ ∧ balanced right_
  end.

(** The tree whose nodes have no left subtree, with the given values from the
    root down. *)
Fixpoint right_spine (elements : list ElementType) : Node :=
  match elements with
  | [] => nullptr
  | value :: rest => node value nullptr (right_spine rest)
  end.

(** The trees that [add] keeps. *)
Definition well_formed (s : AVLSet) : Prop :=
  search_tree (root s) ∧ (isBalancing s = true → balanced (root s)) ∧
  0 ≤ sz s < 2 ^ 32.

End AVLSet.

Arguments Node : clear implicits.
Arguments AVLSet : clear implicits.

End AVLSet.

(** ** Instances of the two sets used as evidence *)

(** [HashSet<int>] with the hash function that returns its argument. *)
Definition hash_id (z : Z) : Z := z.

(** The set after [add] of 0, 1, ..., 8 to a new set: nine nodes in a table
    of capacity 10. *)
Definition nine : HashSet.HashSet Z :=
  {| HashSet.hashTable := Some [[0]; [1]; [2]; [3]; [4]; [5]; [6]; [7]; [8]; []];
     HashSet.sz := 9;
     HashSet.capacity := 10 |}.

(** [AVLSet<int>] with 1, 2 and 3, balanced. *)
Definition avl_123 : AVLSet.AVLSet Z :=
  {| AVLSet.root :=
       AVLSet.node 2 (AVLSet.node 1 AVLSet.nullptr AVLSet.nullptr)
                     (AVLSet.node 3 AVLSet.nullptr AVLSet.nullptr);
     AVLSet.sz := 3;
     AVLSet.isBalancing := true |}.

(** * Properties *)

(** ** Machine integers *)

Lemma to_int_small z : INT_MIN ≤ z ≤ INT_MAX → to_int z = z.
Proof.
  unfold to_int, INT_MIN, INT_MAX. intros Hz.
  rewrite Z.mod_small by lia. lia.
Qed.

Lemma to_int_range z : INT_MIN ≤ to_int z ≤ INT_MAX.
Proof.
  unfold to_int, INT_MIN, INT_MAX.
  pose proof (Z.mod_pos_bound (z + 2 ^ 31) (2 ^ 32)). lia.
Qed.

Lemma to_int_congr a b : a `mod` 2 ^ 32 = b `mod` 2 ^ 32 → to_int a = to_int b.
Proof.
  unfold to_int. intros Hab.
  rewrite (Zplus_mod a), (Zplus_mod b), Hab. done.
Qed.

Lemma to_int_idemp a b : to_int (to_int a + b) = to_int (a + b).
Proof.
  apply to_int_congr. unfold to_int.
  rewrite <- Z.add_sub_swap, <- Z.add_sub_assoc, Zplus_mod, Zminus_mod.
  rewrite Z.mod_mod by lia. rewrite <- Zminus_mod, <- Zplus_mod.
  f_equal. lia.
Qed.

Lemma count_edges_mod {E} c (js : list (DigraphEdge E)) :
  count_edges c js `mod` 2 ^ 32 = (c + Z.of_nat (length js)) `mod` 2 ^ 32.
Proof.
  revert c. induction js as [|j js IH]; intros c; simpl.
  - f_equal. lia.
  - unfold count_edges in *. simpl. rewrite IH. unfold to_unsigned.
    rewrite Zplus_mod, Z.mod_mod, <- Zplus_mod by lia. f_equal. lia.
Qed.

(** ** Iterating over the map *)

Section Iteration.
Context {VertexInfo EdgeInfo : Type}.
Implicit Types (g : Digraph VertexInfo EdgeInfo).
Implicit Types (its : list (Z * DigraphVertex VertexInfo EdgeInfo)).

Lemma map_iter_Permutation g : map_iter g ≡ₚ map_to_list g.
Proof. apply merge_sort_Permutation. Qed.

Lemma elem_of_map_iter g k v : (k, v) ∈ map_iter g ↔ g !! k = Some v.
Proof. rewrite map_iter_Permutation. apply elem_of_map_to_list. Qed.

Lemma NoDup_map_iter g : NoDup (map_iter g).*1.
Proof. rewrite map_iter_Permutation. apply NoDup_fst_map_to_list. Qed.

Lemma length_map_iter g : length (map_iter g) = size g.
Proof. rewrite map_iter_Permutation. apply length_map_to_list. Qed.

Lemma map_iter_keys g k : k ∈ (map_iter g).*1 ↔ is_Some (g !! k).
Proof.
  rewrite list_elem_of_fmap. split.
  - intros [[k' v] [-> Hin]]. apply elem_of_map_iter in Hin. by exists v.
  - intros [v Hv]. exists (k, v). split; [done|]. by apply elem_of_map_iter.
Qed.

(** The entries are sorted by key, as a [std::map] is traversed. *)
Lemma map_iter_sorted g : Sorted Z.le (map_iter g).*1.
Proof.
  assert (Hs : Sorted key_le (map_iter g)).
  { assert (Total (@key_le VertexInfo EdgeInfo)) by (intros a b; unfold key_le; lia).
    apply (Sorted_merge_sort key_le). }
  induction Hs as [|i its _ IH Hhd]; simpl; constructor; [done|].
  destruct Hhd; simpl; constructor. done.
Qed.

(** An entry of the map splits the traversal in two parts that do not hold
    its key. *)
Lemma map_iter_split g k v :
  g !! k = Some v →
  ∃ l1 l2, map_iter g = l1 ++ (k, v) :: l2 ∧ (k ∉ l1.*1) ∧ (k ∉ l2.*1).
Proof.
  intros Hk. apply elem_of_map_iter, list_elem_of_split in Hk as (l1 & l2 & Heq).
  exists l1, l2. split; [done|].
  pose proof (NoDup_map_iter g) as Hnd. rewrite Heq, fmap_app, fmap_cons in Hnd.
  apply NoDup_app in Hnd as (_ & Hdisj & Hnd). apply NoDup_cons in Hnd as [Hk2 _].
  split; [|done]. intros Hin. apply (Hdisj _ Hin). simpl. left.
Qed.

Lemma vertices_keys g : vertices g = (map_iter g).*1.
Proof.
  unfold vertices.
  assert (H : ∀ its acc, foldl (λ vs i, vs ++ [i.1]) acc its = acc ++ its.*1).
  { induction its as [|i its IH]; intros acc; simpl.
    - by rewrite app_nil_r.
    - rewrite IH, <- app_assoc. done. }
  apply H.
Qed.

Lemma elem_of_vertices g k : k ∈ vertices g ↔ is_Some (g !! k).
Proof. rewrite vertices_keys. apply map_iter_keys. Qed.

Lemma NoDup_vertices g : NoDup (vertices g).
Proof. rewrite vertices_keys. apply NoDup_map_iter. Qed.

Lemma length_vertices g : length (vertices g) = size g.
Proof. rewrite vertices_keys, length_fmap. apply length_map_iter. Qed.

Lemma count_0 g k : count g k = 0 ↔ g !! k = None.
Proof. unfold count. destruct (g !! k); split; intros; done. Qed.

(** *** The reading loops *)

Lemma push_pairs (es : list (Z * Z)) (js : list (DigraphEdge EdgeInfo)) :
  foldl (λ es j, es ++ [edge_pair j]) es js = es ++ (edge_pair <$> js).
Proof.
  revert es. induction js as [|j js IH]; intros es; simpl.
  - by rewrite app_nil_r.
  - rewrite IH, <- app_assoc. done.
Qed.

Lemma edges_all_bind g : edges_all g = map_iter g ≫= (λ i, pairs_of i.2).
Proof.
  unfold edges_all.
  assert (H : ∀ its acc,
    foldl (λ es i, foldl (λ es j, es ++ [edge_pair j]) es (edges i.2)) acc its
    = acc ++ (its ≫= (λ i, pairs_of i.2))).
  { induction its as [|i its IH]; intros acc.
    - simpl. by rewrite app_nil_r.
    - rewrite bind_cons. simpl. rewrite IH, push_pairs, <- app_assoc. done. }
  apply H.
Qed.

Lemma edges_all_Permutation g :
  edges_all g ≡ₚ map_to_list g ≫= (λ i, pairs_of i.2).
Proof. by rewrite edges_all_bind, map_iter_Permutation. Qed.

Lemma elem_of_edges_all g p :
  p ∈ edges_all g ↔ ∃ k v j, g !! k = Some v ∧ j ∈ edges v ∧ p = edge_pair j.
Proof.
  rewrite edges_all_bind, list_elem_of_bind. split.
  - intros ([k v] & Hp & Hin). apply elem_of_map_iter in Hin.
    apply list_elem_of_fmap in Hp as (j & -> & Hj). eauto 6.
  - intros (k & v & j & Hk & Hj & ->). exists (k, v). split.
    + apply list_elem_of_fmap. eauto.
    + by apply elem_of_map_iter.
Qed.

(** Replacing the entry of a vertex replaces its pairs among [edges()]. *)
Lemma edges_all_insert g k v v' :
  g !! k = Some v →
  ∃ others, edges_all g ≡ₚ pairs_of v ++ others ∧
            edges_all (<[k := v']> g) ≡ₚ pairs_of v' ++ others.
Proof.
  intros Hk. exists (map_to_list (delete k g) ≫= (λ i, pairs_of i.2)). split.
  - rewrite edges_all_Permutation, <- (map_to_list_delete g k v Hk).
    by rewrite bind_cons.
  - rewrite edges_all_Permutation, <- insert_delete_eq.
    rewrite map_to_list_insert by apply lookup_delete_eq. by rewrite bind_cons.
Qed.

Lemma edges_from_loop_skip its (vertex : Z) acc :
  vertex ∉ its.*1 →
  foldl (λ es i, if bool_decide (i.1 = vertex)
                 then foldl (λ es j, es ++ [edge_pair j]) es (edges i.2)
                 else es) acc its = acc.
Proof.
  revert acc. induction its as [|i its IH]; intros acc Hn; simpl; [done|].
  rewrite fmap_cons, not_elem_of_cons in Hn. destruct Hn as [Hne Hn].
  rewrite bool_decide_eq_false_2 by done. by apply IH.
Qed.

Lemma edges_from_lookup g k v :
  g !! k = Some v → edges_from g k = Ok (pairs_of v).
Proof.
  intros Hk. unfold edges_from.
  rewrite bool_decide_eq_false_2 by (rewrite count_0; congruence).
  destruct (map_iter_split g k v Hk) as (l1 & l2 & -> & H1 & H2).
  rewrite foldl_app, (edges_from_loop_skip l1) by done. simpl.
  rewrite bool_decide_eq_true_2 by done.
  rewrite (edges_from_loop_skip l2) by done. by rewrite push_pairs.
Qed.

Lemma edgeInfo_loop_skip its (from to : Z) :
  from ∉ its.*1 →
  edgeInfo_loop from to its = Throw (DigraphException msg_no_edge).
Proof.
  induction its as [|i its IH]; intros Hn; simpl; [done|].
  rewrite fmap_cons, not_elem_of_cons in Hn. destruct Hn as [Hne Hn].
  rewrite bool_decide_eq_false_2 by done. by apply IH.
Qed.

Lemma edgeInfo_lookup g from to v :
  g !! from = Some v → is_Some (g !! to) →
  edgeInfo g from to =
    match find_edge to (edges v) with
    | Some x => Ok x
    | None => Throw (DigraphException msg_no_edge)
    end.
Proof.
  intros Hk [v' Hto]. unfold edgeInfo.
  rewrite bool_decide_eq_false_2 by (rewrite !count_0; intros [?|?]; congruence).
  destruct (map_iter_split g from v Hk) as (l1 & l2 & -> & H1 & H2).
  induction l1 as [|i l1 IH]; simpl.
  - rewrite bool_decide_eq_true_2 by done.
    destruct (find_edge to (edges v)); [done|]. by apply edgeInfo_loop_skip.
  - rewrite fmap_cons, not_elem_of_cons in H1. destruct H1 as [Hne H1].
    rewrite bool_decide_eq_false_2 by done. by apply IH.
Qed.

Lemma edgeCount_total g :
  edgeCount g = to_int (Z.of_nat (length (edges_all g))).
Proof.
  unfold edgeCount. apply to_int_congr. rewrite edges_all_bind.
  assert (H : ∀ its c,
    foldl (λ c i, count_edges c (edges i.2)) c its `mod` 2 ^ 32
    = (c + Z.of_nat (length (its ≫= (λ i, pairs_of i.2)))) `mod` 2 ^ 32).
  { induction its as [|i its IH]; intros c.
    - simpl. f_equal. lia.
    - rewrite bind_cons. simpl. rewrite IH, length_app. unfold pairs_of at 2.
      rewrite length_fmap.
      rewrite Zplus_mod, count_edges_mod, <- Zplus_mod. f_equal. lia. }
  apply H.
Qed.

Lemma edgeCount_from_loop_skip its (vertex : Z) c :
  vertex ∉ its.*1 →
  foldl (λ c i, if bool_decide (i.1 = vertex)
                then count_edges c (edges i.2) else c) c its = c.
Proof.
  revert c. induction its as [|i its IH]; intros c Hn; simpl; [done|].
  rewrite fmap_cons, not_elem_of_cons in Hn. destruct Hn as [Hne Hn].
  rewrite bool_decide_eq_false_2 by done. by apply IH.
Qed.

Lemma edgeCount_from_lookup g k v :
  g !! k = Some v →
  edgeCount_from g k = Ok (to_int (Z.of_nat (length (edges v)))).
Proof.
  intros Hk. unfold edgeCount_from.
  rewrite bool_decide_eq_false_2 by (rewrite count_0; congruence).
  destruct (map_iter_split g k v Hk) as (l1 & l2 & -> & H1 & H2).
  rewrite foldl_app, (edgeCount_from_loop_skip l1) by done. simpl.
  rewrite bool_decide_eq_true_2 by done.
  rewrite (edgeCount_from_loop_skip l2) by done. f_equal.
  apply to_int_congr. by rewrite count_edges_mod.
Qed.

End Iteration.

(** ** The mutating member functions *)

Lemma filter_all {A} (P : A → Prop) `{∀ x, Decision (P x)} (l : list A) :
  Forall P l → filter P l = l.
Proof.
  induction 1 as [|x l Hx _ IH]; [done|].
  rewrite filter_cons_True by done. by rewrite IH.
Qed.

Lemma NoDup_fmap_filter {A B} (f : A → B) (P : A → Prop)
    `{∀ x, Decision (P x)} (l : list A) :
  NoDup (f <$> l) → NoDup (f <$> filter P l).
Proof.
  induction l as [|x l IH]; [done|].
  rewrite fmap_cons, NoDup_cons. intros [Hx Hnd].
  destruct (decide (P x)).
  - rewrite filter_cons_True by done. rewrite fmap_cons, NoDup_cons.
    split; [|by apply IH]. intros Hin. apply Hx.
    apply list_elem_of_fmap in Hin as (y & -> & Hy).
    apply list_elem_of_filter in Hy as [_ Hy]. apply list_elem_of_fmap. eauto.
  - rewrite filter_cons_False by done. by apply IH.
Qed.

Section Mutation.
Context {VertexInfo EdgeInfo : Type}.
Implicit Types (g : Digraph VertexInfo EdgeInfo).
Implicit Types (v : DigraphVertex VertexInfo EdgeInfo).
Implicit Types (j : DigraphEdge EdgeInfo) (js : list (DigraphEdge EdgeInfo)).
Implicit Types (its : list (Z * DigraphVertex VertexInfo EdgeInfo)).

Lemma set_edges_id v : set_edges v (edges v) = v.
Proof. by destruct v. Qed.

Lemma has_edge_spec to js : has_edge to js = bool_decide (to ∈ toVertex <$> js).
Proof.
  induction js as [|j js IH]; simpl.
  - first [done | symmetry; apply bool_decide_eq_false_2; by rewrite elem_of_nil].
  - destruct (decide (toVertex j = to)) as [Hj|Hj].
    + rewrite (bool_decide_eq_true_2 _ Hj). symmetry.
      apply bool_decide_eq_true_2. rewrite Hj. left.
    + rewrite (bool_decide_eq_false_2 _ Hj), IH.
      apply bool_decide_ext. rewrite elem_of_cons.
      split; [tauto|intros [?|?]; [congruence|done]].
Qed.

Lemma find_edge_absent to js : to ∉ toVertex <$> js → find_edge to js = None.
Proof.
  induction js as [|j js IH]; simpl; [done|].
  rewrite not_elem_of_cons. intros [Hne Hn].
  rewrite bool_decide_eq_false_2 by done. by apply IH.
Qed.

(** *** [addVertex] *)

Lemma addVertex_loop_spec k its :
  addVertex_loop k its = bool_decide (k ∈ its.*1).
Proof.
  induction its as [|i its IH]; simpl.
  - first [done | symmetry; apply bool_decide_eq_false_2; by rewrite elem_of_nil].
  - destruct (decide (i.1 = k)) as [Hi|Hi].
    + rewrite (bool_decide_eq_true_2 _ Hi). symmetry.
      apply bool_decide_eq_true_2. rewrite Hi. left.
    + rewrite (bool_decide_eq_false_2 _ Hi), IH.
      apply bool_decide_ext. rewrite elem_of_cons.
      split; [tauto|intros [?|?]; [congruence|done]].
Qed.

Lemma addVertex_present g k vi :
  is_Some (g !! k) →
  addVertex g k vi = Raised (DigraphException msg_vertex_exists) g.
Proof.
  intros Hk. unfold addVertex. rewrite addVertex_loop_spec.
  rewrite bool_decide_eq_true_2; [done|]. by apply map_iter_keys.
Qed.

Lemma addVertex_absent g k vi :
  g !! k = None →
  addVertex g k vi = Done (<[k := {| vinfo := vi; edges := [] |}]> g).
Proof.
  intros Hk. unfold addVertex. rewrite addVertex_loop_spec.
  rewrite bool_decide_eq_false_2.
  - unfold map_insert_new. by rewrite Hk.
  - rewrite map_iter_keys, Hk. by intros [].
Qed.

(** *** [addEdge] *)

Lemma addEdge_loop_skip from to ei its g :
  from ∉ its.*1 → addEdge_loop from to ei its g = Done g.
Proof.
  revert g. induction its as [|i its IH]; intros g Hn; simpl; [done|].
  rewrite fmap_cons, not_elem_of_cons in Hn. destruct Hn as [Hne Hn].
  rewrite bool_decide_eq_false_2 by done. by apply IH.
Qed.

Lemma addEdge_loop_split from to ei its1 its2 v g :
  from ∉ its1.*1 → from ∉ its2.*1 →
  addEdge_loop from to ei (its1 ++ (from, v) :: its2) g =
    if has_edge to (edges v) then Raised (DigraphException msg_edge_exists) g
    else Done (<[from := push_back v {| fromVertex := from; toVertex := to;
                                        einfo := ei |}]> g).
Proof.
  intros H1 H2. induction its1 as [|i its1 IH]; simpl.
  - rewrite bool_decide_eq_true_2 by done.
    destruct (has_edge to (edges v)); [done|]. by apply addEdge_loop_skip.
  - rewrite fmap_cons, not_elem_of_cons in H1. destruct H1 as [Hne H1].
    rewrite bool_decide_eq_false_2 by done. by apply IH.
Qed.

Lemma addEdge_lookup g from to ei v :
  g !! from = Some v → is_Some (g !! to) →
  addEdge g from to ei =
    if has_edge to (edges v) then Raised (DigraphException msg_edge_exists) g
    else Done (<[from := push_back v {| fromVertex := from; toVertex := to;
                                        einfo := ei |}]> g).
Proof.
  intros Hk [v' Hto]. unfold addEdge.
  rewrite bool_decide_eq_false_2 by (rewrite !count_0; intros [?|?]; congruence).
  destruct (map_iter_split g from v Hk) as (l1 & l2 & -> & H1 & H2).
  by apply addEdge_loop_split.
Qed.

Lemma addEdge_missing g from to ei :
  g !! from = None ∨ g !! to = None →
  addEdge g from to ei = Raised (DigraphException msg_no_vertices) g.
Proof.
  intros H. unfold addEdge. rewrite bool_decide_eq_true_2; [done|].
  by rewrite !count_0.
Qed.

(** *** The erasing loop *)

Lemma erase_loop_absent (vertex : Z) js :
  vertex ∉ toVertex <$> js → erase_loop vertex js = Some (js, false).
Proof.
  induction js as [|j js IH]; simpl; [done|].
  rewrite not_elem_of_cons. intros [Hne Hn].
  rewrite bool_decide_eq_false_2 by done. by rewrite IH.
Qed.

(** When nothing was erased the list is as it was. *)
Lemma erase_loop_false (vertex : Z) js js' :
  erase_loop vertex js = Some (js', false) → js' = js.
Proof.
  revert js'. induction js as [|j js IH]; intros js'; simpl.
  - by intros [= <-].
  - case_bool_decide.
    + destruct js as [|j' js]; [done|].
      destruct (erase_loop vertex js) as [[??]|]; done.
    + destruct (erase_loop vertex js) as [[l b]|]; [|done].
      intros [= <- ->]. f_equal. by apply IH.
Qed.

(** The destinations being distinct, the loop erases the edge to [vertex]:
    the edge it steps over after an [erase] is not one to [vertex]. *)
Lemma erase_loop_NoDup (vertex : Z) js js' b :
  NoDup (toVertex <$> js) →
  erase_loop vertex js = Some (js', b) →
  js' = filter (λ j, toVertex j ≠ vertex) js ∧
  b = bool_decide (vertex ∈ toVertex <$> js).
Proof.
  revert js' b. induction js as [|j js IH]; intros js' b Hnd; simpl.
  - intros [= <- <-]. done.
  - rewrite fmap_cons, NoDup_cons in Hnd. destruct Hnd as [Hj Hnd].
    destruct (decide (toVertex j = vertex)) as [Hv|Hv].
    + rewrite (bool_decide_eq_true_2 _ Hv).
      destruct js as [|j' js]; [done|].
      assert (Hrest : vertex ∉ toVertex <$> js).
      { intros Hin. apply Hj. rewrite Hv, fmap_cons. by right. }
      rewrite (erase_loop_absent _ js Hrest). intros [= <- <-].
      split; [|symmetry; apply bool_decide_eq_true_2; rewrite Hv; left].
      rewrite filter_cons_False by (intros Hne; by apply Hne).
      symmetry. apply filter_all, Forall_forall. intros x Hx Heq.
      apply Hj. rewrite Hv, <- Heq. apply list_elem_of_fmap. eauto.
    + rewrite (bool_decide_eq_false_2 _ Hv).
      destruct (erase_loop vertex js) as [[l b']|] eqn:Hl; [|done].
      intros [= <- <-]. destruct (IH l b' Hnd eq_refl) as [-> ->].
      rewrite filter_cons_True by done. split; [done|].
      apply bool_decide_ext. rewrite elem_of_cons.
      split; [tauto|intros [?|?]; [congruence|done]].
Qed.

(** *** [removeVertex] *)

Lemma removeVertex_loop_spec (vertex : Z) its g g' :
  NoDup its.*1 →
  removeVertex_loop vertex its g = Done g' →
  (∀ k, k ∉ its.*1 → g' !! k = g !! k) ∧
  (∀ k v, (k, v) ∈ its →
     ∃ js b, erase_loop vertex (if bool_decide (k = vertex) then []
                                else edges v) = Some (js, b) ∧
             g' !! k = Some (set_edges v js)).
Proof.
  revert g. induction its as [|[k0 v0] its IH]; intros g Hnd; simpl.
  - intros [= <-]. split; [done|]. intros k v Hin. by apply elem_of_nil in Hin.
  - rewrite fmap_cons, NoDup_cons in Hnd. destruct Hnd as [Hk0 Hnd].
    destruct (erase_loop vertex _) as [[js b]|] eqn:Her; [|done].
    intros Hloop. destruct (IH _ Hnd Hloop) as [Hout Hin]. split.
    + intros k Hk. rewrite not_elem_of_cons in Hk. destruct Hk as [Hne Hk].
      rewrite (Hout k Hk). by rewrite lookup_insert_ne.
    + intros k v Hkv. apply elem_of_cons in Hkv as [[= -> ->]|Hkv].
      * exists js, b. split; [done|].
        rewrite (Hout k0 Hk0). by rewrite lookup_insert_eq.
      * by apply Hin.
Qed.

Lemma removeVertex_loop_not_Raised (vertex : Z) its g e g' :
  removeVertex_loop vertex its g ≠ Raised e g'.
Proof.
  revert g. induction its as [|i its IH]; intros g; simpl; [done|].
  destruct (erase_loop vertex _) as [[js b]|]; [apply IH|done].
Qed.

(** What a successful [removeVertex] leaves, on a graph that satisfies the
    invariant. *)
Lemma removeVertex_Done g (vertex : Z) g' :
  invariant g → removeVertex g vertex = Done g' →
  ∀ k, g' !! k =
       if bool_decide (k = vertex) then None
       else (λ v, set_edges v (filter (λ j, toVertex j ≠ vertex) (edges v)))
              <$> g !! k.
Proof.
  intros Hinv. unfold removeVertex. case_bool_decide as Hc; [done|].
  destruct (removeVertex_loop vertex (map_iter g) g) as [g1| |] eqn:Hloop;
    [|done..].
  intros [= <-] k. case_bool_decide as Hk.
  - subst. by rewrite lookup_delete_eq.
  - rewrite lookup_delete_ne by done.
    destruct (removeVertex_loop_spec _ _ _ _ (NoDup_map_iter g) Hloop)
      as [Hout Hin].
    destruct (g !! k) as [v|] eqn:Hgk; simpl.
    + apply elem_of_map_iter in Hgk as Hkv.
      destruct (Hin k v Hkv) as (js & b & Her & ->).
      rewrite bool_decide_eq_false_2 in Her by done.
      apply erase_loop_NoDup in Her as [-> _]; [done|]. by apply (Hinv k v).
    + rewrite Hout, Hgk; [done|]. rewrite map_iter_keys, Hgk. by intros [].
Qed.

Lemma removeVertex_Raised g (vertex : Z) e g' :
  removeVertex g vertex = Raised e g' →
  g' = g ∧ e = DigraphException msg_no_vertex ∧ g !! vertex = None.
Proof.
  unfold removeVertex. case_bool_decide as Hc.
  - intros [= <- <-]. by rewrite <- count_0.
  - destruct (removeVertex_loop vertex (map_iter g) g) as [g1|e1 g1|] eqn:Hloop;
      [done| |done].
    by apply removeVertex_loop_not_Raised in Hloop.
Qed.

(** *** [removeEdge] *)

Lemma removeEdge_loop_skip from to its edgeExists g :
  from ∉ its.*1 →
  removeEdge_loop from to its edgeExists g = Some (edgeExists, g).
Proof.
  revert g. induction its as [|i its IH]; intros g Hn; simpl; [done|].
  rewrite fmap_cons, not_elem_of_cons in Hn. destruct Hn as [Hne Hn].
  rewrite bool_decide_eq_false_2 by done. by apply IH.
Qed.

Lemma removeEdge_lookup g from to v :
  g !! from = Some v → is_Some (g !! to) →
  removeEdge g from to =
    match erase_loop to (edges v) with
    | Some (js, true) => Done (<[from := set_edges v js]> g)
    | Some (js, false) =>
        Raised (DigraphException msg_no_edge) (<[from := set_edges v js]> g)
    | None => Undef
    end.
Proof.
  intros Hk [v' Hto]. unfold removeEdge.
  rewrite bool_decide_eq_false_2 by (rewrite !count_0; intros [?|?]; congruence).
  destruct (map_iter_split g from v Hk) as (l1 & l2 & -> & H1 & H2).
  assert (Hloop : removeEdge_loop from to (l1 ++ (from, v) :: l2) false g =
    match erase_loop to (edges v) with
    | Some (js, b) => Some (b, <[from := set_edges v js]> g)
    | None => None
    end).
  { induction l1 as [|i l1 IH]; simpl.
    - rewrite bool_decide_eq_true_2 by done.
      destruct (erase_loop to (edges v)) as [[js b]|]; [|done].
      by apply removeEdge_loop_skip.
    - rewrite fmap_cons, not_elem_of_cons in H1. destruct H1 as [Hne H1].
      rewrite bool_decide_eq_false_2 by done. by apply IH. }
  rewrite Hloop. by destruct (erase_loop to (edges v)) as [[js [|]]|].
Qed.

Lemma removeEdge_Raised g from to e g' :
  removeEdge g from to = Raised e g' → g' = g.
Proof.
  destruct (g !! from) as [v|] eqn:Hf; [destruct (g !! to) as [v'|] eqn:Ht|].
  - rewrite (removeEdge_lookup g from to v) by eauto.
    destruct (erase_loop to (edges v)) as [[js [|]]|] eqn:Her; [done| |done].
    intros [= <- <-]. apply erase_loop_false in Her as ->.
    rewrite set_edges_id. by apply insert_id.
  - unfold removeEdge. rewrite bool_decide_eq_true_2; [by intros [= <- <-]|].
    rewrite !count_0. by right.
  - unfold removeEdge. rewrite bool_decide_eq_true_2; [by intros [= <- <-]|].
    rewrite !count_0. by left.
Qed.

End Mutation.

(** ** The graph store: invariants, failures, self-loops *)

Section Store.
Context {VertexInfo EdgeInfo : Type}.
Implicit Types (g : Digraph VertexInfo EdgeInfo).
Implicit Types (v : DigraphVertex VertexInfo EdgeInfo).
Implicit Types (j : DigraphEdge EdgeInfo) (js : list (DigraphEdge EdgeInfo)).

Lemma invariant_empty : invariant (∅ : Digraph VertexInfo EdgeInfo).
Proof. intros k v Hk. by rewrite lookup_empty in Hk. Qed.

Lemma edge_ok_mono g g' k j :
  (∀ x, is_Some (g !! x) → is_Some (g' !! x)) → edge_ok g k j → edge_ok g' k j.
Proof. intros Hsub (Hf & Hk & Ht). repeat split; auto. Qed.

Lemma vertex_ok_mono g g' k v :
  (∀ x, is_Some (g !! x) → is_Some (g' !! x)) →
  vertex_ok g k v → vertex_ok g' k v.
Proof.
  intros Hsub [Hall Hnd]. split; [|done].
  eapply Forall_impl; [exact Hall|]. intros j. by apply edge_ok_mono.
Qed.

Lemma insert_keeps_keys g k v x :
  is_Some (g !! x) → is_Some (<[k := v]> g !! x).
Proof. intros Hx. apply lookup_insert_is_Some'. by right. Qed.

Lemma addVertex_invariant g k vi g' :
  invariant g → addVertex g k vi = Done g' → invariant g'.
Proof.
  intros Hinv Hadd. destruct (g !! k) as [v|] eqn:Hk.
  - rewrite addVertex_present in Hadd by eauto. done.
  - rewrite addVertex_absent in Hadd by done. injection Hadd as <-.
    intros k' v' Hlk. destruct (decide (k = k')) as [<-|Hne].
    + rewrite lookup_insert_eq in Hlk. injection Hlk as <-.
      split; simpl; constructor.
    + rewrite lookup_insert_ne in Hlk by done.
      eapply vertex_ok_mono; [|by apply Hinv]. apply insert_keeps_keys.
Qed.

Lemma addEdge_Done g from to ei g' :
  addEdge g from to ei = Done g' →
  ∃ v, g !! from = Some v ∧ is_Some (g !! to) ∧ (to ∉ toVertex <$> edges v) ∧
       g' = <[from := push_back v {| fromVertex := from; toVertex := to;
                                     einfo := ei |}]> g.
Proof.
  intros Hadd.
  destruct (g !! from) as [v|] eqn:Hf; [destruct (g !! to) as [v'|] eqn:Ht|].
  - rewrite (addEdge_lookup g from to ei v) in Hadd by eauto.
    rewrite has_edge_spec in Hadd. case_bool_decide; [done|].
    injection Hadd as <-. exists v. eauto.
  - rewrite addEdge_missing in Hadd by auto. done.
  - rewrite addEdge_missing in Hadd by auto. done.
Qed.


Lemma vertex_ok_filter g k v (P : DigraphEdge EdgeInfo → Prop)
    `{∀ j, Decision (P j)} :
  vertex_ok g k v → vertex_ok g k (set_edges v (filter P (edges v))).
Proof.
  intros [Hall Hnd]. split; simpl.
  - apply Forall_forall. intros j Hj. apply list_elem_of_filter in Hj as [_ Hj].
    by apply (proj1 (Forall_forall _ _) Hall).
  - by apply NoDup_fmap_filter.
Qed.

Lemma removeEdge_invariant g from to g' :
  invariant g → removeEdge g from to = Done g' → invariant g'.
Proof.
  intros Hinv Hrem.
  destruct (g !! from) as [v|] eqn:Hf; [destruct (g !! to) as [v'|] eqn:Ht|].
  - rewrite (removeEdge_lookup g from to v) in Hrem by eauto.
    destruct (erase_loop to (edges v)) as [[js [|]]|] eqn:Her; [|done..].
    injection Hrem as <-.
    apply erase_loop_NoDup in Her as [-> _]; [|by apply (Hinv from v)].
    intros k1 v1 Hlk. destruct (decide (from = k1)) as [<-|Hne].
    + rewrite lookup_insert_eq in Hlk. injection Hlk as <-.
      eapply vertex_ok_mono; [apply insert_keeps_keys|].
      by apply vertex_ok_filter, Hinv.
    + rewrite lookup_insert_ne in Hlk by done.
      eapply vertex_ok_mono; [|by apply Hinv]. apply insert_keeps_keys.
  - unfold removeEdge in Hrem. rewrite bool_decide_eq_true_2 in Hrem; [done|].
    rewrite !count_0. by right.
  - unfold removeEdge in Hrem. rewrite bool_decide_eq_true_2 in Hrem; [done|].
    rewrite !count_0. by left.
Qed.





Lemma addVertex_Raised g k vi e g' :
  addVertex g k vi = Raised e g' → g' = g.
Proof.
  unfold addVertex. destruct (addVertex_loop k (map_iter g)); [|done].
  by intros [= <- <-].
Qed.

Lemma addEdge_Raised g from to ei e g' :
  addEdge g from to ei = Raised e g' → g' = g.
Proof.
  destruct (g !! from) as [v|] eqn:Hf; [destruct (g !! to) as [v'|] eqn:Ht|].
  - rewrite (addEdge_lookup g from to ei v) by eauto.
    destruct (has_edge to (edges v)); [|done]. by intros [= <- <-].
  - rewrite addEdge_missing by auto. by intros [= <- <-].
  - rewrite addEdge_missing by auto. by intros [= <- <-].
Qed.

(** C7.  A mutating member function that throws leaves the graph as it was;
    [addVertex] of a vertex that is present throws, and so does [addEdge] of
    a pair that [edges()] reports already. *)
Theorem failed_mutation_keeps_graph (g : Digraph VertexInfo EdgeInfo) :
  (∀ k vi e g', addVertex g k vi = Raised e g' → g' = g) ∧
  (∀ from to ei e g', addEdge g from to ei = Raised e g' → g' = g) ∧
  (∀ vertex e g', removeVertex g vertex = Raised e g' → g' = g) ∧
  (∀ from to e g', removeEdge g from to = Raised e g' → g' = g) ∧
  (∀ k vi, is_Some (g !! k) →
     addVertex g k vi = Raised (DigraphException msg_vertex_exists) g) ∧
  (∀ from to ei v, g !! from = Some v → to ∈ toVertex <$> edges v →
     ∃ e, addEdge g from to ei = Raised e g ∧
          (is_Some (g !! to) → e = DigraphException msg_edge_exists)) ∧
  (invariant g → ∀ from to ei, (from, to) ∈ edges_all g →
     addEdge g from to ei = Raised (DigraphException msg_edge_exists) g).
Proof.
  assert (Hdup : ∀ from to ei v, g !! from = Some v →
    to ∈ toVertex <$> edges v → is_Some (g !! to) →
    addEdge g from to ei = Raised (DigraphException msg_edge_exists) g).
  { intros from to ei v Hf Hin Ht.
    rewrite (addEdge_lookup g from to ei v) by done.
    by rewrite has_edge_spec, bool_decide_eq_true_2. }
  split; [|split; [|split; [|split; [|split; [|split]]]]].
  - intros k vi e g'. apply addVertex_Raised.
  - intros from to ei e g'. apply addEdge_Raised.
  - intros vertex e g' H. by apply removeVertex_Raised in H as [-> _].
  - intros from to e g'. apply removeEdge_Raised.
  - intros k vi. apply addVertex_present.
  - intros from to ei v Hf Hin. destruct (g !! to) as [v'|] eqn:Ht.
    + exists (DigraphException msg_edge_exists). split; [|done].
      apply (Hdup from to ei v); eauto.
    + exists (DigraphException msg_no_vertices). split; [|by intros []].
      apply addEdge_missing. by right.
  - intros Hinv from to ei (k & v & j & Hk & Hj & Hp)%elem_of_edges_all.
    destruct (Hinv k v Hk) as [Hall _].
    destruct (proj1 (Forall_forall _ _) Hall j Hj) as (Hfrom & _ & Hdst).
    injection Hp as -> ->. rewrite Hfrom in *.
    apply (Hdup k (toVertex j) ei v); [done| |done].
    apply list_elem_of_fmap. eauto.
Qed.

Lemma find_edge_last to js ei from :
  to ∉ toVertex <$> js →
  find_edge to (js ++ [{| fromVertex := from; toVertex := to; einfo := ei |}])
  = Some ei.
Proof.
  induction js as [|j js IH]; simpl.
  - intros _. by rewrite bool_decide_eq_true_2.
  - rewrite not_elem_of_cons. intros [Hne Hn].
    rewrite bool_decide_eq_false_2 by done. by apply IH.
Qed.

(** C10.  A self-loop can be added to a vertex that has none: [addEdge]
    returns, the pair is among [edges()] and [edges(vertex)], [edgeInfo]
    gives the payload, and both edge counts are one more than before, as
    [int]s (one more in [Z] unless the count was [INT_MAX]). *)
Theorem addEdge_self_loop (g : Digraph VertexInfo EdgeInfo) (vertex : Z) v ei :
  g !! vertex = Some v →
  vertex ∉ toVertex <$> edges v →
  ∃ g', addEdge g vertex vertex ei = Done g' ∧
    (vertex, vertex) ∈ edges_all g' ∧
    (∃ l, edges_from g' vertex = Ok l ∧ (vertex, vertex) ∈ l) ∧
    edgeInfo g' vertex vertex = Ok ei ∧
    edgeCount g' = to_int (edgeCount g + 1) ∧
    (edgeCount g ≠ INT_MAX → edgeCount g' = edgeCount g + 1) ∧
    (∃ n n', edgeCount_from g vertex = Ok n ∧ edgeCount_from g' vertex = Ok n' ∧
             n' = to_int (n + 1) ∧ (n ≠ INT_MAX → n' = n + 1)).
Proof.
  intros Hv Hnew.
  set (e := {| fromVertex := vertex; toVertex := vertex; einfo := ei |}).
  exists (<[vertex := push_back v e]> g).
  assert (Hlk : <[vertex := push_back v e]> g !! vertex = Some (push_back v e))
    by apply lookup_insert_eq.
  assert (Hin : (vertex, vertex) ∈ pairs_of (push_back v e)).
  { apply list_elem_of_fmap. exists e. split; [done|]. simpl.
    apply elem_of_app. right. left. }
  assert (Hstep : ∀ n, INT_MIN ≤ n ≤ INT_MAX → n ≠ INT_MAX → to_int (n + 1) = n + 1).
  { intros n Hn Hne. apply to_int_small. unfold INT_MIN, INT_MAX in *. lia. }
  assert (Hall : edgeCount (<[vertex := push_back v e]> g)
                 = to_int (edgeCount g + 1)).
  { rewrite !edgeCount_total, to_int_idemp.
    destruct (edges_all_insert g vertex v (push_back v e) Hv)
      as (others & -> & ->).
    rewrite !length_app. unfold pairs_of, push_back. simpl.
    rewrite !length_fmap, length_app. simpl. f_equal. lia. }
  split; [|split; [|split; [|split; [|split; [|split]]]]].
  - rewrite (addEdge_lookup g vertex vertex ei v) by eauto.
    by rewrite has_edge_spec, bool_decide_eq_false_2.
  - apply elem_of_edges_all. exists vertex, (push_back v e), e.
    split; [done|]. split; [|done]. simpl. apply elem_of_app. right. left.
  - exists (pairs_of (push_back v e)). split; [|done]. by apply edges_from_lookup.
  - rewrite (edgeInfo_lookup _ vertex vertex (push_back v e)) by eauto.
    simpl. subst e. by rewrite find_edge_last.
  - done.
  - intros Hne. rewrite Hall. apply Hstep; [|done]. rewrite edgeCount_total.
    apply to_int_range.
  - eexists _, _. split; [by apply edgeCount_from_lookup|].
    split; [by apply edgeCount_from_lookup|].
    assert (Heq : to_int (Z.of_nat (length (edges (push_back v e))))
                  = to_int (to_int (Z.of_nat (length (edges v))) + 1)).
    { rewrite to_int_idemp. simpl. rewrite length_app. simpl. f_equal. lia. }
    split; [done|]. intros Hne. rewrite Heq. apply Hstep; [|done].
    apply to_int_range.
Qed.

(** *** Copying and moving *)

Implicit Types (σ : nat → Digraph VertexInfo EdgeInfo).

Lemma swap_lookup a b σ :
  swap a b σ a = σ b ∧ swap a b σ b = σ a ∧
  ∀ c, c ≠ a → c ≠ b → swap a b σ c = σ c.
Proof.
  unfold swap. split; [apply fn_lookup_insert|]. split.
  - destruct (decide (a = b)) as [->|Hne]; [apply fn_lookup_insert|].
    rewrite fn_lookup_insert_ne by done. apply fn_lookup_insert.
  - intros c Ha Hb. by rewrite !fn_lookup_insert_ne.
Qed.

(** C9, as the code has it.  Moving into a new object leaves the source
    empty.  Move assignment exchanges the two graphs: the source is left with
    what the destination held, which is a graph as valid as that was, and it
    is left empty exactly when the destination was empty.  No other object
    changes. *)
Theorem move_exchanges (σ : nat → Digraph VertexInfo EdgeInfo) (this d : nat) :
  this ≠ d →
  (move_construct this d σ d = ∅ ∧ invariant (move_construct this d σ d) ∧
   move_construct this d σ this = σ d) ∧
  (move_assign this d σ d = σ this ∧ move_assign this d σ this = σ d) ∧
  (invariant (σ this) → invariant (move_assign this d σ d)) ∧
  (move_assign this d σ d = ∅ ↔ σ this = ∅) ∧
  (∀ c, c ≠ this → c ≠ d →
        move_construct this d σ c = σ c ∧ move_assign this d σ c = σ c).
Proof.
  intros Hne.
  assert (Hassign : move_assign this d σ = swap this d σ).
  { unfold move_assign. by rewrite bool_decide_eq_true_2. }
  destruct (swap_lookup this d σ) as (Ha & Hb & Hc).
  destruct (swap_lookup this d (<[this := ∅]> σ)) as (Ha' & Hb' & Hc').
  unfold move_construct. rewrite Hassign, Ha, Hb, Ha', Hb'.
  rewrite fn_lookup_insert, fn_lookup_insert_ne by done.
  split; [split; [done|split; [apply invariant_empty|done]]|].
  split; [done|]. split; [done|]. split; [done|].
  intros c H1 H2. split; [|by apply Hc].
  rewrite Hc' by done. by rewrite fn_lookup_insert_ne.
Qed.

End Store.

(** ** The reachability traversal *)

Lemma filter_length_le {A} (P Q : A → Prop)
    `{∀ x, Decision (P x)} `{∀ x, Decision (Q x)} (l : list A) :
  (∀ x, x ∈ l → P x → Q x) →
  (length (filter P l) ≤ length (filter Q l))%nat.
Proof.
  induction l as [|a l IH]; intros HPQ; [done|].
  assert (IH' : (length (filter P l) ≤ length (filter Q l))%nat).
  { apply IH. intros x Hx. apply HPQ. by right. }
  destruct (decide (P a)) as [Ha|Ha].
  - rewrite (filter_cons_True P) by done.
    rewrite (filter_cons_True Q) by (apply HPQ; [left|done]). simpl. lia.
  - rewrite (filter_cons_False P) by done. destruct (decide (Q a)).
    + rewrite (filter_cons_True Q) by done. simpl. lia.
    + by rewrite (filter_cons_False Q).
Qed.

Lemma filter_length_lt {A} (P Q : A → Prop)
    `{∀ x, Decision (P x)} `{∀ x, Decision (Q x)} (l : list A) (a : A) :
  (∀ x, x ∈ l → P x → Q x) → a ∈ l → Q a → ¬ P a →
  (length (filter P l) < length (filter Q l))%nat.
Proof.
  induction l as [|b l IH]; intros HPQ Hin Hq Hp.
  - by apply elem_of_nil in Hin.
  - assert (Hle : (length (filter P l) ≤ length (filter Q l))%nat).
    { apply filter_length_le. intros x Hx. apply HPQ. by right. }
    apply elem_of_cons in Hin as [<-|Hin].
    + rewrite (filter_cons_False P), (filter_cons_True Q) by done. simpl. lia.
    + assert (Hlt : (length (filter P l) < length (filter Q l))%nat).
      { apply IH; try done. intros x Hx. apply HPQ. by right. }
      destruct (decide (P b)) as [Hb|Hb].
      * rewrite (filter_cons_True P) by done.
        rewrite (filter_cons_True Q) by (apply HPQ; [left|done]). simpl. lia.
      * rewrite (filter_cons_False P) by done. destruct (decide (Q b)).
        -- rewrite (filter_cons_True Q) by done. simpl. lia.
        -- by rewrite (filter_cons_False Q).
Qed.

Section Traversal.
Context {VertexInfo EdgeInfo : Type}.
Context (int_to_vinfo : Z → VertexInfo) (int_eq_vinfo : Z → VertexInfo → bool).
Implicit Types (g : Digraph VertexInfo EdgeInfo).
Implicit Types (its : list (Z * DigraphVertex VertexInfo EdgeInfo)).
Implicit Types (tracker t : list Z) (vertex : VertexInfo).

Implicit Types (ks : list (DigraphEdge EdgeInfo)).

Local Abbreviation dF := (depthFirst int_to_vinfo int_eq_vinfo).
Local Abbreviation dF_loop := (depthFirst_loop int_to_vinfo int_eq_vinfo).
Local Abbreviation dF_edges := (visit_edges int_to_vinfo).

Lemma unvisited_nil g : unvisited g [] = size g.
Proof.
  unfold unvisited. rewrite filter_all, length_vertices; [done|].
  apply Forall_forall. intros x _. apply not_elem_of_nil.
Qed.

Lemma unvisited_mono g t t' :
  t ⊆ t' → (unvisited g t' ≤ unvisited g t)%nat.
Proof.
  intros Hsub. apply filter_length_le. intros x _ Hx Hin. by apply Hx, Hsub.
Qed.

Lemma unvisited_push g t k :
  k ∈ vertices g → k ∉ t → (unvisited g (t ++ [k]) < unvisited g t)%nat.
Proof.
  intros Hk Hn. apply (filter_length_lt _ _ _ k); try done.
  - intros x _ Hx Hin. apply Hx, elem_of_app. by left.
  - intros Hx. apply Hx, elem_of_app. right. left.
Qed.

Lemma scan_tracker_spec vertex t sc :
  scan_tracker int_eq_vinfo vertex t sc = true ↔
  sc = true ∨ ∃ x, x ∈ t ∧ int_eq_vinfo x vertex = true.
Proof.
  unfold scan_tracker. revert sc. induction t as [|a t IH]; intros sc; simpl.
  - split; [by left|]. intros [?|(x & Hx & _)]; [done|].
    by apply elem_of_nil in Hx.
  - rewrite IH. destruct (int_eq_vinfo a vertex) eqn:Ha.
    + split; [|by left]. intros _. right. exists a. split; [left|done].
    + split.
      * intros [?|(x & Hx & Hv)]; [by left|]. right. exists x. split; [by right|done].
      * intros [?|(x & Hx & Hv)]; [by left|]. right. exists x. split; [|done].
        apply elem_of_cons in Hx as [->|Hx]; [congruence|done].
Qed.

Lemma grows_refl g t : grows g t t.
Proof. by split. Qed.

Lemma grows_trans g t1 t2 t3 : grows g t1 t2 → grows g t2 t3 → grows g t1 t3.
Proof.
  intros (Hp & Hn & Hs) (Hp' & Hn' & Hs'). split; [by etrans|]. split; auto.
Qed.

Lemma grows_push g t k :
  k ∈ vertices g → k ∉ t → grows g t (t ++ [k]).
Proof.
  intros Hk Hn. split; [by apply prefix_app_r|]. split.
  - intros Hnd. apply NoDup_app. split; [done|]. split; [|apply NoDup_singleton].
    intros x Hx Hx'. apply list_elem_of_singleton in Hx'. by subst.
  - intros Hsub x Hx. apply elem_of_app in Hx as [Hx|Hx]; [by apply Hsub|].
    apply list_elem_of_singleton in Hx. by subst.
Qed.

Lemma grows_subseteq g t t' : grows g t t' → t ⊆ t'.
Proof. intros [[s ->] _] x Hx. apply elem_of_app. by left. Qed.

Lemma visit_edges_returns g n rec ks t :
  returns_below g n rec → (unvisited g t < n)%nat →
  ∃ t', dF_edges rec ks t = Some t' ∧ grows g t t'.
Proof.
  intros Hrec. revert t. induction ks as [|k ks IH]; intros t Hlt; simpl.
  - exists t. split; [done|apply grows_refl].
  - destruct (Hrec (int_to_vinfo (toVertex k)) t Hlt) as (t1 & -> & Hg1).
    destruct (IH t1) as (t2 & -> & Hg2).
    + eapply Nat.le_lt_trans; [|exact Hlt].
      by apply unvisited_mono, (grows_subseteq g).
    + exists t2. split; [done|]. by eapply grows_trans.
Qed.

Lemma depthFirst_loop_returns g n rec vertex its sc t :
  returns_below g n rec → (∀ i, i ∈ its → i.1 ∈ vertices g) →
  (unvisited g t ≤ n)%nat →
  ∃ t', dF_loop rec vertex its sc t = Some t' ∧ grows g t t'.
Proof.
  intros Hrec. revert sc t. induction its as [|i its IH]; intros sc t Hits Hle.
  - exists t. split; [done|apply grows_refl].
  - assert (Hits' : ∀ i', i' ∈ its → i'.1 ∈ vertices g).
    { intros i' Hi'. apply Hits. by right. }
    simpl. destruct (int_eq_vinfo i.1 vertex) eqn:Hi; [|by apply IH].
    destruct (scan_tracker int_eq_vinfo vertex t sc) eqn:Hscan; [by apply IH|].
    assert (Hnew : i.1 ∉ t).
    { intros Hin. apply not_true_iff_false in Hscan. apply Hscan.
      apply scan_tracker_spec. right. eauto. }
    assert (Hv : i.1 ∈ vertices g) by (apply Hits; left).
    destruct (visit_edges_returns g n rec (edges i.2) (t ++ [i.1]) Hrec)
      as (t1 & -> & Hg1).
    { pose proof (unvisited_push g t i.1 Hv Hnew). lia. }
    assert (Hg : grows g t t1).
    { eapply grows_trans; [|exact Hg1]. by apply grows_push. }
    destruct (IH false t1 Hits') as (t2 & -> & Hg2).
    { etrans; [|exact Hle]. by apply unvisited_mono, (grows_subseteq g). }
    exists t2. split; [done|]. by eapply grows_trans.
Qed.

(** A call returns when its bound exceeds the number of unvisited vertices:
    a call that goes deeper has recorded one more of them. *)
Lemma depthFirst_returns g fuel : returns_below g fuel (dF fuel g).
Proof.
  induction fuel as [|n IH]; intros vertex t Hlt; [lia|].
  simpl. apply (depthFirst_loop_returns g n); [done| |lia].
  intros [k v] Hi. apply elem_of_map_iter in Hi.
  apply elem_of_vertices. eauto.
Qed.

Lemma isStronglyConnected_loop_returns g its :
  ∃ b, isStronglyConnected_loop int_to_vinfo int_eq_vinfo g its = Some b.
Proof.
  induction its as [|i its IH]; [simpl; eauto|].
  cbn [isStronglyConnected_loop].
  destruct (depthFirst_returns g (S (size g)) (int_to_vinfo i.1) [])
    as (t & -> & _).
  { rewrite unvisited_nil. lia. }
  case_bool_decide; eauto.
Qed.

Lemma depthFirst_from_nil g vertex :
  ∃ t, dF (S (size g)) g vertex [] = Some t ∧ NoDup t ∧ t ⊆ vertices g.
Proof.
  destruct (depthFirst_returns g (S (size g)) vertex []) as (t & Ht & Hg).
  { rewrite unvisited_nil. lia. }
  destruct Hg as (_ & Hnd & Hsub). exists t. split; [done|]. split.
  - apply Hnd. constructor.
  - apply Hsub. intros x Hx. by apply elem_of_nil in Hx.
Qed.

(** C8.  The traversal returns on every graph, with or without cycles: a
    call stack of depth [size g + 1] is never exceeded, whatever vertex the
    traversal starts from, and the tracker it returns holds vertices of the
    graph, none of them twice; [isStronglyConnected] returns as well. *)
Theorem depthFirst_terminates (g : Digraph VertexInfo EdgeInfo) :
  (∀ vertex, ∃ tracker,
     depthFirst int_to_vinfo int_eq_vinfo (S (size g)) g vertex [] = Some tracker ∧
     NoDup tracker ∧ tracker ⊆ vertices g) ∧
  (∀ vertex tracker fuel, (unvisited g tracker < fuel)%nat →
     ∃ tracker', depthFirst int_to_vinfo int_eq_vinfo fuel g vertex tracker
                 = Some tracker') ∧
  (∃ b, isStronglyConnected int_to_vinfo int_eq_vinfo g = Some b).
Proof.
  split; [|split].
  - apply depthFirst_from_nil.
  - intros vertex tracker fuel Hlt.
    destruct (depthFirst_returns g fuel vertex tracker Hlt) as (t & Ht & _).
    eauto.
  - apply isStronglyConnected_loop_returns.
Qed.

End Traversal.

(** ** Strong connectivity, when vertex numbers convert exactly

    For [VertexInfo = int], and for every payload type that represents each
    [int] exactly, the conversion of a vertex number and the comparison with
    it are faithful. *)

Section Exact.
Context {VertexInfo EdgeInfo : Type}.
Context (int_to_vinfo : Z → VertexInfo) (int_eq_vinfo : Z → VertexInfo → bool).
Hypothesis exact : ∀ k x, int_eq_vinfo k (int_to_vinfo x) = bool_decide (k = x).
Implicit Types (g : Digraph VertexInfo EdgeInfo).
Implicit Types (its : list (Z * DigraphVertex VertexInfo EdgeInfo)).
Implicit Types (ks : list (DigraphEdge EdgeInfo)).
Implicit Types (t : list Z).

Local Abbreviation dF := (depthFirst int_to_vinfo int_eq_vinfo).
Local Abbreviation dF_loop := (depthFirst_loop int_to_vinfo int_eq_vinfo).
Local Abbreviation dF_edges := (visit_edges int_to_vinfo).

Lemma scan_tracker_exact (x : Z) t :
  scan_tracker int_eq_vinfo (int_to_vinfo x) t false = bool_decide (x ∈ t).
Proof.
  destruct (scan_tracker _ _ _ _) eqn:Hscan; symmetry.
  - apply bool_decide_eq_true_2.
    apply scan_tracker_spec in Hscan as [?|(y & Hy & Heq)]; [done|].
    rewrite exact in Heq. apply bool_decide_eq_true_1 in Heq. by subst.
  - apply bool_decide_eq_false_2. intros Hin.
    apply not_true_iff_false in Hscan. apply Hscan, scan_tracker_spec.
    right. exists x. split; [done|]. rewrite exact. by apply bool_decide_eq_true_2.
Qed.

Lemma depthFirst_loop_skip rec (x : Z) its sc t :
  x ∉ its.*1 → dF_loop rec (int_to_vinfo x) its sc t = Some t.
Proof.
  induction its as [|i its IH]; intros Hn; simpl; [done|].
  rewrite fmap_cons, not_elem_of_cons in Hn. destruct Hn as [Hne Hn].
  rewrite exact, bool_decide_eq_false_2 by congruence. by apply IH.
Qed.

Lemma depthFirst_loop_split rec (x : Z) its1 its2 v t :
  x ∉ its1.*1 → x ∉ its2.*1 →
  dF_loop rec (int_to_vinfo x) (its1 ++ (x, v) :: its2) false t =
    if bool_decide (x ∈ t) then Some t
    else dF_edges rec (edges v) (t ++ [x]).
Proof.
  intros H1 H2. induction its1 as [|i its1 IH]; simpl.
  - rewrite exact, bool_decide_eq_true_2 by done.
    rewrite scan_tracker_exact. case_bool_decide.
    + by apply depthFirst_loop_skip.
    + destruct (dF_edges rec (edges v) (t ++ [x])); [|done].
      by apply depthFirst_loop_skip.
  - rewrite fmap_cons, not_elem_of_cons in H1. destruct H1 as [Hne H1].
    rewrite exact, bool_decide_eq_false_2 by congruence. by apply IH.
Qed.

(** With exact conversions the loop over the map is a lookup. *)
Lemma depthFirst_exact n g (x : Z) t :
  dF (S n) g (int_to_vinfo x) t =
    match g !! x with
    | None => Some t
    | Some v => if bool_decide (x ∈ t) then Some t
                else dF_edges (dF n g) (edges v) (t ++ [x])
    end.
Proof.
  cbn [depthFirst]. destruct (g !! x) as [v|] eqn:Hx.
  - destruct (map_iter_split g x v Hx) as (l1 & l2 & -> & H1 & H2).
    by apply depthFirst_loop_split.
  - apply depthFirst_loop_skip. rewrite map_iter_keys, Hx. by intros [].
Qed.

Lemma visit_edges_visits n g (x : Z) :
  (∀ y t t', dF n g (int_to_vinfo y) t = Some t' → visits g y t t') →
  ∀ ks t t', (∀ k, k ∈ ks → succ g x (toVertex k)) →
    dF_edges (dF n g) ks t = Some t' →
    t ⊆ t' ∧
    (∀ k, k ∈ ks → is_Some (g !! toVertex k) → toVertex k ∈ t') ∧
    (∀ y, y ∈ t' → y ∉ t → reach g x y) ∧
    (∀ y, y ∈ t' → y ∉ t → ∀ z, succ g y z → is_Some (g !! z) → z ∈ t').
Proof.
  intros IHn. induction ks as [|k ks IH]; intros t t' Hks; simpl.
  - intros [= <-]. split; [done|]. split.
    + intros k Hk. by apply elem_of_nil in Hk.
    + split; intros y Hy Hn; done.
  - destruct (dF n g (int_to_vinfo (toVertex k)) t) as [t1|] eqn:Hcall; [|done].
    intros Hrest. apply IHn in Hcall as (Hsub1 & Hk1 & Hreach1 & Hclosed1).
    apply IH in Hrest as (Hsub2 & Hk2 & Hreach2 & Hclosed2).
    2:{ intros k' Hk'. apply Hks. by right. }
    split; [by etrans|]. split; [|split].
    + intros k' Hk' Hsome. apply elem_of_cons in Hk' as [->|Hk'].
      * by apply Hsub2, Hk1.
      * by apply Hk2.
    + intros y Hy Hn. destruct (decide (y ∈ t1)) as [Hy1|Hy1].
      * eapply rtc_l; [apply Hks; left|]. by apply Hreach1.
      * by apply Hreach2.
    + intros y Hy Hn z Hyz Hz. destruct (decide (y ∈ t1)) as [Hy1|Hy1].
      * apply Hsub2. by apply (Hclosed1 y).
      * by apply (Hclosed2 y).
Qed.

Lemma depthFirst_visits n g :
  ∀ (x : Z) t t', dF n g (int_to_vinfo x) t = Some t' → visits g x t t'.
Proof.
  induction n as [|n IH]; intros x t t'; [done|].
  rewrite depthFirst_exact. destruct (g !! x) as [v|] eqn:Hx.
  - case_bool_decide as Hin.
    + intros [= <-]. split; [done|]. split; [done|]. split; intros y Hy Hn; done.
    + intros Hedges.
      apply (visit_edges_visits n g x IH) in Hedges
        as (Hsub & Hks & Hreach & Hclosed).
      2:{ intros k Hk. exists v, k. done. }
      assert (Hxt : x ∈ t') by (apply Hsub, elem_of_app; right; left).
      split; [|split; [done|split]].
      * intros y Hy. apply Hsub, elem_of_app. by left.
      * intros y Hy Hn. destruct (decide (y = x)) as [->|Hne]; [apply rtc_refl|].
        apply Hreach; [done|]. rewrite elem_of_app, list_elem_of_singleton.
        tauto.
      * intros y Hy Hn z Hyz Hz. destruct (decide (y = x)) as [->|Hne].
        -- destruct Hyz as (v' & k & Hv' & Hk & <-).
           rewrite Hx in Hv'. injection Hv' as <-. by apply Hks.
        -- apply (Hclosed y); try done.
           rewrite elem_of_app, list_elem_of_singleton. tauto.
  - intros [= <-]. split; [done|]. split; [rewrite Hx; by intros []|].
    split; intros y Hy Hn; done.
Qed.

Lemma reach_source_present g (x y : Z) :
  reach g x y → is_Some (g !! y) → is_Some (g !! x).
Proof.
  intros Hr Hy. destruct Hr as [|x z y (v & k & Hv & _) _]; [done|]. eauto.
Qed.

Lemma reach_target_present g (x y : Z) :
  reach g x y → is_Some (g !! x) → x = y ∨ ∃ z, reach g x z ∧ succ g z y.
Proof.
  intros Hr _. apply rtc_inv_r in Hr as [->|(z & Hxz & Hzy)]; eauto.
Qed.

(** A tracker that holds the successors of each of its vertices holds
    whatever its vertices reach. *)
Lemma closed_reach g t (x y : Z) :
  (∀ u, u ∈ t → ∀ z, succ g u z → is_Some (g !! z) → z ∈ t) →
  reach g x y → x ∈ t → is_Some (g !! y) → y ∈ t.
Proof.
  intros Hclosed Hr. induction Hr as [|x z y Hxz Hzy IH]; [done|].
  intros Hx Hy. apply IH; [|done]. apply (Hclosed x); [done..|].
  by eapply reach_source_present.
Qed.

(** The traversal from a vertex records the vertices that it reaches. *)
Lemma depthFirst_reach g (x : Z) :
  is_Some (g !! x) →
  ∃ t, dF (S (size g)) g (int_to_vinfo x) [] = Some t ∧
       NoDup t ∧ t ⊆ vertices g ∧
       ∀ y, is_Some (g !! y) → y ∈ t ↔ reach g x y.
Proof.
  intros Hx.
  destruct (depthFirst_from_nil int_to_vinfo int_eq_vinfo g (int_to_vinfo x))
    as (t & Ht & Hnd & Hsub).
  exists t. split; [done|]. split; [done|]. split; [done|].
  apply depthFirst_visits in Ht as (_ & Hxt & Hreach & Hclosed).
  intros y Hy. split.
  - intros Hin. apply Hreach; [done|]. apply not_elem_of_nil.
  - intros Hr. apply (closed_reach g t x y); auto.
    intros u Hu. apply Hclosed; [done|]. apply not_elem_of_nil.
Qed.

Lemma full_tracker g t :
  NoDup t → t ⊆ vertices g →
  length t = size g ↔ ∀ y, is_Some (g !! y) → y ∈ t.
Proof.
  intros Hnd Hsub. rewrite <- length_vertices. split.
  - intros Hlen y Hy. apply elem_of_vertices in Hy.
    assert (Hperm : t ≡ₚ vertices g).
    { apply submseteq_length_Permutation; [by apply NoDup_submseteq|lia]. }
    by rewrite Hperm.
  - intros Hall. apply Nat.le_antisymm; apply submseteq_length, NoDup_submseteq;
      try done; [apply NoDup_vertices|].
    intros y Hy. by apply Hall, elem_of_vertices.
Qed.

Lemma vertexCount_small g :
  Z.of_nat (size g) ≤ INT_MAX → to_size_t (vertexCount g) = Z.of_nat (size g).
Proof.
  intros Hs. unfold vertexCount, to_size_t.
  rewrite to_int_small by (unfold INT_MIN, INT_MAX in *; lia).
  apply Z.mod_small. unfold INT_MAX in Hs. lia.
Qed.

Lemma isStronglyConnected_loop_exact g its :
  Z.of_nat (size g) ≤ INT_MAX → (∀ i, i ∈ its → is_Some (g !! i.1)) →
  ∃ b, isStronglyConnected_loop int_to_vinfo int_eq_vinfo g its = Some b ∧
       (b = true ↔ ∀ i y, i ∈ its → is_Some (g !! y) → reach g i.1 y).
Proof.
  intros Hsize. induction its as [|i its IH]; intros Hits.
  - exists true. split; [done|]. split; [|done].
    intros _ i y Hi. by apply elem_of_nil in Hi.
  - cbn [isStronglyConnected_loop].
    destruct (depthFirst_reach g i.1) as (t & -> & Hnd & Hsub & Hreach).
    { apply Hits. left. }
    rewrite vertexCount_small by done.
    destruct IH as (b & Hb & Hiff). { intros i' Hi'. apply Hits. by right. }
    case_bool_decide as Hlen.
    + exists false. split; [done|]. split; [done|]. intros Hall. exfalso.
      apply Hlen. f_equal. symmetry.
      apply (proj2 (full_tracker g t Hnd Hsub)).
      intros y Hy. apply Hreach; [done|]. apply Hall; [left|done].
    + exists b. split; [done|]. rewrite Hiff. split.
      * intros Hall i' y Hi' Hy. apply elem_of_cons in Hi' as [->|Hi'].
        -- apply Hreach; [done|].
           apply (proj1 (full_tracker g t Hnd Hsub)); [lia|done].
        -- by apply Hall.
      * intros Hall i' y Hi'. apply Hall. by right.
Qed.

(** [isStronglyConnected] is right when vertex numbers convert exactly (and
    [vertexCount()] is the number of vertices): it returns, and it returns
    true exactly on the strongly connected graphs. *)
Theorem isStronglyConnected_exact (g : Digraph VertexInfo EdgeInfo) :
  Z.of_nat (size g) ≤ INT_MAX →
  ∃ b, isStronglyConnected int_to_vinfo int_eq_vinfo g = Some b ∧
       (b = true ↔ strongly_connected g).
Proof.
  intros Hsize.
  destruct (isStronglyConnected_loop_exact g (map_iter g) Hsize)
    as (b & Hb & Hiff).
  { intros [k v] Hi. apply elem_of_map_iter in Hi. simpl. eauto. }
  exists b. split; [done|]. rewrite Hiff. split.
  - intros Hall x y [v Hx] Hy.
    apply (Hall (x, v) y); [by apply elem_of_map_iter|done].
  - intros Hsc [x v] y Hi Hy. apply elem_of_map_iter in Hi.
    apply Hsc; simpl; eauto.
Qed.

End Exact.

(** ** Shortest paths: what the code does on given graphs *)

Lemma Qltb_lt (a b : Q) : Qltb a b = true ↔ (a < b)%Q.
Proof.
  unfold Qltb. rewrite negb_true_iff, <- not_true_iff_false, Qle_bool_iff.
  split; [apply Qnot_le_lt|apply Qlt_not_le].
Qed.

Lemma pq_extract_None q : pq_extract q = None → q = [].
Proof.
  destruct q as [|x q]; [done|]. simpl.
  destruct (pq_extract q) as [[y r]|]; [|done]. by destruct (compare x y).
Qed.

Lemma pq_extract_elements q top rest :
  pq_extract q = Some (top, rest) → q ≡ₚ top :: rest.
Proof.
  revert top rest. induction q as [|x q IH]; intros top rest; simpl; [done|].
  destruct (pq_extract q) as [[y r]|] eqn:Hq.
  - specialize (IH y r eq_refl). destruct (compare x y).
    + intros [= <- <-]. rewrite IH. apply perm_swap.
    + by intros [= <- <-].
  - apply pq_extract_None in Hq as ->. by intros [= <- <-].
Qed.

(** What the queue is ordered by: the entry on top has the least [second],
    which is where the code puts the vertex number. *)
Lemma pq_extract_least q top rest :
  pq_extract q = Some (top, rest) → ∀ e, e ∈ rest → (top.2 <= e.2)%Q.
Proof.
  revert top rest. induction q as [|x q IH]; intros top rest; simpl; [done|].
  destruct (pq_extract q) as [[y r]|] eqn:Hq.
  - specialize (IH y r eq_refl). destruct (compare x y) eqn:Hc.
    + intros [= <- <-] e He. apply elem_of_cons in He as [->|He]; [|by apply IH].
      apply Qlt_le_weak. by apply Qltb_lt.
    + intros [= <- <-] e He.
      assert (Hxy : (x.2 <= y.2)%Q).
      { apply Qnot_lt_le. intros Hlt. apply Qltb_lt in Hlt.
        unfold compare in Hc. congruence. }
      apply pq_extract_elements in Hq. rewrite Hq in He.
      apply elem_of_cons in He as [->|He]; [done|].
      eapply Qle_trans; [exact Hxy|]. by apply IH.
  - intros [= <- <-] e He. by apply elem_of_nil in He.
Qed.

(** C2, on [detour].  After the first turn of the loop the queue holds the
    entries (10, 2), (1, 3) and (5, 4); the entry the second turn takes is
    (10, 2), of distance 10, while (1, 3), of distance 1, is waiting. *)
Theorem pop_is_not_least_distance :
  ∃ st0 st top rest e,
    init detour 1 = Ok st0 ∧
    state_after detour weight 1 st0 = Some st ∧
    pq_extract (pq st) = Some (top, rest) ∧
    e ∈ rest ∧ e.1 < top.1 ∧
    top = (10, inject_Z 2) ∧ e = (1, inject_Z 3).
Proof.
  destruct (init detour 1) as [st0| |] eqn:H0; [|by vm_compute in H0..].
  destruct (state_after detour weight 1 st0) as [st|] eqn:H1.
  2:{ apply (f_equal (λ r, match r with Ok s => state_after detour weight 1 s
                                      | _ => None end)) in H0.
      rewrite H1 in H0. by vm_compute in H0. }
  assert (Hpq : pq st = [(5, inject_Z 4); (1, inject_Z 3); (10, inject_Z 2)]).
  { apply (f_equal (λ r, match r with
                         | Ok s => pq <$> state_after detour weight 1 s
                         | _ => None end)) in H0.
    rewrite H1 in H0. vm_compute in H0. injection H0 as H0.
    symmetry. exact H0. }
  exists st0, st, (10, inject_Z 2), [(5, inject_Z 4); (1, inject_Z 3)],
         (1, inject_Z 3).
  split; [done|]. split; [done|]. split; [by rewrite Hpq|].
  split; [right; left|]. split; [simpl; lia|done].
Qed.

(** C3, on [lone5].  The start vertex 5 is a vertex of the graph, and the
    call throws [std::out_of_range], which is none of the four error kinds:
    the vectors [kv] and [dv] have [vertexCount() + 1 = 2] elements and
    [dv.at(5)] is out of range. *)
Theorem start_present_throws_out_of_range :
  is_Some (lone5 !! 5) ∧
  findShortestPaths lone5 weight 5 = Some (Throw std_out_of_range) ∧
  kind_of std_out_of_range = None.
Proof. split; [by eexists|]. split; by vm_compute. Qed.

(** The same for a start vertex that is absent: [pv.at(startVertex)] throws
    [std::out_of_range], not a [DigraphException]. *)
Lemma start_absent_throws_out_of_range :
  lone5 !! 1 = None ∧
  findShortestPaths lone5 weight 1 = Some (Throw std_out_of_range).
Proof. split; by vm_compute. Qed.

Lemma weight_nonneg x : (0 <= weight x)%Q.
Proof.
  unfold weight. destruct (Qle_bool 0 x) eqn:Hx; [|apply Qle_refl].
  by apply Qle_bool_iff.
Qed.

Lemma path_nonneg {VertexInfo EdgeInfo} (g : Digraph VertexInfo EdgeInfo)
    (w : EdgeInfo → Q) (u x : Z) (c : Q) :
  (∀ e, (0 <= w e)%Q) → path g w u x c → (0 <= c)%Q.
Proof.
  intros Hw. induction 1 as [|x v j y c _ IH _ _ _]; [apply Qle_refl|].
  specialize (Hw (einfo j)). lra.
Qed.

(** C1, on [detour], with weights that are not negative.  The call returns a
    map that gives vertex 4 the predecessor 1.  The edge from 1 to 4 weighs
    5 and the path 1, 3, 2, 4 weighs 3: no minimum-weight path to 4 ends
    with the edge from 1, and the map is no shortest-path tree.  (Vertex 2
    is taken from the queue before vertex 3, at distance 10, and its edge to
    4 is examined then; the distance of 2 drops to 2 afterwards.) *)
Theorem predecessor_off_shortest_path :
  is_Some (detour !! 1) ∧
  (∀ x, (0 <= weight x)%Q) ∧
  ∃ m, findShortestPaths detour weight 1 = Some (Ok m) ∧
       m !! 4 = Some 1 ∧
       path detour weight 1 4 (0 + weight 1 + weight 1 + weight 1)%Q ∧
       ¬ shortest_path_tree detour weight 1 m.
Proof.
  split; [by eexists|]. split; [apply weight_nonneg|].
  exists (list_to_map [(1, 1); (2, 3); (3, 1); (4, 1)]).
  assert (Hpath : path detour weight 1 4 (0 + weight 1 + weight 1 + weight 1)%Q).
  { pose (e13 := {| fromVertex := 1; toVertex := 3; einfo := 1%Q |}).
    pose (e32 := {| fromVertex := 3; toVertex := 2; einfo := 1%Q |}).
    pose (e24 := {| fromVertex := 2; toVertex := 4; einfo := 1%Q |}).
    apply (path_snoc detour weight 1 2 (vertex_of [(2, 4, 1%Q)]) e24);
      [|by vm_compute|left|done].
    apply (path_snoc detour weight 1 3 (vertex_of [(3, 2, 1%Q)]) e32);
      [|by vm_compute|left|done].
    apply (path_snoc detour weight 1 1
             (vertex_of [(1, 2, 10%Q); (1, 3, 1%Q); (1, 4, 5%Q)]) e13);
      [|by vm_compute|right; left|done].
    apply path_nil. }
  split; [by vm_compute|]. split; [by vm_compute|]. split; [done|].
  intros Htree. destruct (Htree 4) as (p & Hp & Hvia).
  - by eexists.
  - done.
  - eapply rtc_l; [|apply rtc_refl]. eexists _, _.
    split; [by vm_compute|]. split; [simpl; right; right; left|done].
  - vm_compute in Hp. injection Hp as <-.
    destruct Hvia as (c & v & j & Hc & Hv & Hj & Hto & Hmin).
    apply path_nonneg in Hc; [|apply weight_nonneg].
    specialize (Hmin _ Hpath).
    vm_compute in Hv. injection Hv as <-. simpl in Hj.
    assert (Hw : weight (einfo j) = 5%Q).
    { repeat (apply elem_of_cons in Hj as [->|Hj]; [by simpl in *|]).
      by apply elem_of_nil in Hj. }
    rewrite Hw in Hmin. unfold weight in Hmin. simpl in Hmin. lra.
Qed.

(** The example of the specification: from A (1), B has the predecessor A,
    C has B, D has C, and the isolated vertex E (0) has itself. *)
Example abcd_shortest_paths :
  findShortestPaths abcd weight 1
  = Some (Ok (list_to_map [(0, 0); (1, 1); (2, 1); (3, 2); (4, 3)])).
Proof. by vm_compute. Qed.

(** C5, on [lone2]: a single vertex, numbered 2, and no edge, in a
    [Digraph<bool, double>].  The graph is strongly connected, and
    [isStronglyConnected] returns false: the vertex number 2 converts to
    [true], which compares equal to the key 1 only. *)
Theorem lone_vertex_of_bool_graph :
  isStronglyConnected int_to_bool int_eq_bool lone2 = Some false ∧
  vertices lone2 = [2] ∧ edges_all lone2 = [] ∧ strongly_connected lone2.
Proof.
  split; [by vm_compute|]. split; [by vm_compute|]. split; [by vm_compute|].
  intros u w [v Hu] [v' Hw]. unfold lone2 in Hu, Hw.
  apply lookup_singleton_Some in Hu as [<- _].
  apply lookup_singleton_Some in Hw as [<- _]. apply rtc_refl.
Qed.

(** The known shapes of the specification, for [Digraph<int, double>]. *)
Example known_shapes :
  isStronglyConnected int_to_int int_eq_int cycle3 = Some true ∧
  isStronglyConnected int_to_int int_eq_int chain3 = Some false ∧
  isStronglyConnected int_to_int int_eq_int lone5 = Some true ∧
  isStronglyConnected int_to_int int_eq_int (∅ : Digraph Z Q) = Some true.
Proof. repeat split; by vm_compute. Qed.

(** ** Shortest paths: what holds on every graph *)







Section ShortestPaths.
Context {VertexInfo EdgeInfo : Type}.
Implicit Types (g : Digraph VertexInfo EdgeInfo).
Implicit Types (its : list (Z * DigraphVertex VertexInfo EdgeInfo)).
Implicit Types (js : list (DigraphEdge EdgeInfo)) (st : dijkstra).
Variable g : Digraph VertexInfo EdgeInfo.
Variable weightFn : EdgeInfo → Q.
Variable start : Z.


Hypothesis weight_nonneg : ∀ x, (0 <= weightFn x)%Q.





End ShortestPaths.

(** *** The loop ends *)

Section Turns.
Context {VertexInfo EdgeInfo : Type}.
Implicit Types (its : list (Z * DigraphVertex VertexInfo EdgeInfo)).
Implicit Types (js : list (DigraphEdge EdgeInfo)) (st : dijkstra).
Variable g : Digraph VertexInfo EdgeInfo.
Variable weightFn : EdgeInfo → Q.











End Turns.

(** *** The map that is returned *)

Section Returned.
Context {VertexInfo EdgeInfo : Type}.
Implicit Types (its : list (Z * DigraphVertex VertexInfo EdgeInfo)).
Variable g : Digraph VertexInfo EdgeInfo.
Variable weightFn : EdgeInfo → Q.

Lemma pv_init_lookup its (m : gmap Z Z) (k : Z) :
  foldl (λ m i, map_insert_new i.1 (-1) m) m its !! k =
    match m !! k with
    | Some p => Some p
    | None => if bool_decide (k ∈ its.*1) then Some (-1) else None
    end.
Proof.
  revert m. induction its as [|i its IH]; intros m; simpl.
  - by destruct (m !! k).
  - rewrite IH. unfold map_insert_new. destruct (m !! i.1) eqn:Hi.
    + destruct (m !! k) eqn:Hk; [done|]. apply (f_equal (λ b : bool, if b then _ else _)).
      apply bool_decide_ext. rewrite elem_of_cons. split; [by right|].
      intros [->|?]; [congruence|done].
    + destruct (decide (i.1 = k)) as [<-|Hne].
      * rewrite lookup_insert_eq, Hi. rewrite bool_decide_eq_true_2; [done|left].
      * rewrite lookup_insert_ne by done. destruct (m !! k); [done|].
        apply (f_equal (λ b : bool, if b then _ else _)).
        apply bool_decide_ext. rewrite elem_of_cons. split; [by right|].
        intros [->|?]; [congruence|done].
Qed.

Lemma pv_init_map (k : Z) :
  foldl (λ m i, map_insert_new i.1 (-1) m) (∅ : gmap Z Z) (map_iter g) !! k =
    if bool_decide (is_Some (g !! k)) then Some (-1) else None.
Proof.
  rewrite pv_init_lookup, lookup_empty.
  apply (f_equal (λ b : bool, if b then _ else _)).
  apply bool_decide_ext, map_iter_keys.
Qed.



End Returned.

(** *** The call returns a map when the vertex numbers are in range *)


Section Dense.
Context {VertexInfo EdgeInfo : Type}.
Implicit Types (its : list (Z * DigraphVertex VertexInfo EdgeInfo)).
Implicit Types (js : list (DigraphEdge EdgeInfo)) (st : dijkstra).
Variable g : Digraph VertexInfo EdgeInfo.
Variable weightFn : EdgeInfo → Q.
Hypothesis weight_nonneg : ∀ x, (0 <= weightFn x)%Q.
Hypothesis g_invariant : invariant g.
Hypothesis g_dense : dense g.








End Dense.

(** *** The contract of [findShortestPaths] *)

Section Contract.
Context {VertexInfo EdgeInfo : Type}.
Variable g : Digraph VertexInfo EdgeInfo.
Variable weightFn : EdgeInfo → Q.


(** A start vertex whose number is below 0 or above the number of vertices
    makes the call throw [std::out_of_range], and so does a start vertex that
    is absent. *)
Lemma findShortestPaths_out_of_range (startVertex : Z) :
  Z.of_nat (size g) < INT_MAX →
  g !! startVertex = None ∨ startVertex < 0 ∨ Z.of_nat (size g) < startVertex →
  findShortestPaths g weightFn startVertex = Some (Throw std_out_of_range).
Proof.
  intros Hsize Hcase. unfold findShortestPaths, init, vertexCount.
  rewrite to_int_small by (unfold INT_MIN, INT_MAX in *; lia).
  unfold int_add.
  rewrite bool_decide_eq_true_2 by (unfold INT_MIN, INT_MAX in *; lia). cbn.
  unfold vector_new. rewrite bool_decide_eq_false_2 by lia. cbn.
  replace (Z.to_nat (Z.of_nat (size g) + 1)) with (S (size g)) by lia.
  remember (replicate (S (size g)) false) as kv0 eqn:Hkv0.
  remember (replicate (S (size g)) 2147000000) as dv0 eqn:Hdv0.
  unfold map_at_set. rewrite pv_init_map. case_bool_decide as Hg; [|done].
  cbn. destruct Hcase as [Hnone|Hout].
  { rewrite Hnone in Hg. by destruct Hg. }
  unfold vector_set, vector_at. case_bool_decide as H0; [|done].
  rewrite (proj2 (lookup_ge_None dv0 (Z.to_nat startVertex))); [done|].
  rewrite Hdv0, length_replicate. lia.
Qed.

End Contract.

(** ** What the reading member functions return *)

Lemma StronglySorted_lt_NoDup (l : list Z) : StronglySorted Z.lt l → NoDup l.
Proof.
  induction 1 as [|x l _ IH Hx]; constructor; [|done].
  intros Hin. apply (proj1 (Forall_forall _ _) Hx) in Hin. lia.
Qed.

Lemma StronglySorted_le_lt (l : list Z) :
  StronglySorted Z.le l → NoDup l → StronglySorted Z.lt l.
Proof.
  induction 1 as [|x l _ IH Hx]; intros Hnd; constructor.
  - apply IH. by apply NoDup_cons in Hnd as [_ ?].
  - apply NoDup_cons in Hnd as [Hx' _]. apply Forall_forall. intros y Hy.
    assert (x ≠ y) by (by intros ->).
    apply (proj1 (Forall_forall _ _) Hx) in Hy. lia.
Qed.

Lemma StronglySorted_lt_ext (l1 l2 : list Z) :
  StronglySorted Z.lt l1 → StronglySorted Z.lt l2 →
  (∀ x, x ∈ l1 ↔ x ∈ l2) → l1 = l2.
Proof.
  intros H1 H2 Hext. apply (StronglySorted_unique_strong Z.lt); [|done..|].
  - intros x1 x2 _ _ ??. lia.
  - apply NoDup_Permutation; [by apply StronglySorted_lt_NoDup..|done].
Qed.

Section Reading.
Context {VertexInfo EdgeInfo : Type}.
Implicit Types (g : Digraph VertexInfo EdgeInfo).
Implicit Types (v : DigraphVertex VertexInfo EdgeInfo).
Implicit Types (j : DigraphEdge EdgeInfo) (js : list (DigraphEdge EdgeInfo)).
Implicit Types (its : list (Z * DigraphVertex VertexInfo EdgeInfo)).

Lemma map_iter_strictly_sorted g : StronglySorted Z.lt (map_iter g).*1.
Proof.
  apply StronglySorted_le_lt; [|apply NoDup_map_iter].
  apply Sorted_StronglySorted; [apply _|apply map_iter_sorted].
Qed.

Lemma vertices_strictly_sorted g : StronglySorted Z.lt (vertices g).
Proof. rewrite vertices_keys. apply map_iter_strictly_sorted. Qed.

(** The vertex numbers a graph holds determine what [vertices()] returns. *)
Lemma vertices_ext g (g' : Digraph VertexInfo EdgeInfo) :
  (∀ k, is_Some (g !! k) ↔ is_Some (g' !! k)) → vertices g = vertices g'.
Proof.
  intros Hext. apply StronglySorted_lt_ext; [apply vertices_strictly_sorted..|].
  intros k. by rewrite !elem_of_vertices.
Qed.

(** The entries of a graph determine the order in which a loop visits
    them. *)
Lemma map_iter_unique g its :
  StronglySorted Z.lt its.*1 →
  (∀ k v, (k, v) ∈ its ↔ g !! k = Some v) →
  map_iter g = its.
Proof.
  intros Hs Hits.
  assert (Hkeys : ∀ l : list (Z * DigraphVertex VertexInfo EdgeInfo),
    StronglySorted Z.lt l.*1 → StronglySorted key_le l).
  { induction l as [|i l IH]; [constructor|].
    rewrite fmap_cons. intros [Hall Hl]%StronglySorted_cons.
    constructor; [by apply IH|]. apply Forall_forall. intros i' Hi'.
    assert (i.1 < i'.1); [|unfold key_le; lia].
    apply (proj1 (Forall_forall _ _) Hall), list_elem_of_fmap. eauto. }
  apply (StronglySorted_unique_strong key_le).
  - intros [k1 v1] [k2 v2] H1 H2. unfold key_le. simpl. intros ??.
    assert (k1 = k2) as -> by lia.
    apply elem_of_map_iter in H1. apply Hits in H2. congruence.
  - apply Hkeys, map_iter_strictly_sorted.
  - by apply Hkeys.
  - apply NoDup_Permutation.
    + eapply NoDup_fmap_1, NoDup_map_iter.
    + eapply NoDup_fmap_1, StronglySorted_lt_NoDup, Hs.
    + intros [k v]. by rewrite elem_of_map_iter, Hits.
Qed.

(** Replacing the value of an entry leaves it at its place. *)
Lemma map_iter_insert_present g k v v' its1 its2 :
  map_iter g = its1 ++ (k, v) :: its2 →
  map_iter (<[k := v']> g) = its1 ++ (k, v') :: its2.
Proof.
  intros Heq. pose proof (map_iter_strictly_sorted g) as Hs.
  pose proof (NoDup_map_iter g) as Hnd.
  assert (Hin : ∀ k0 v0, (k0, v0) ∈ its1 ++ (k, v) :: its2 ↔ g !! k0 = Some v0).
  { intros k0 v0. rewrite <- Heq. apply elem_of_map_iter. }
  rewrite Heq in Hs, Hnd. rewrite fmap_app, fmap_cons in Hs, Hnd. simpl in *.
  apply NoDup_app in Hnd as (_ & Hdisj & Hnd). apply NoDup_cons in Hnd as [Hk2 _].
  assert (Hk1 : k ∉ its1.*1).
  { intros Hk. apply (Hdisj _ Hk). left. }
  apply map_iter_unique.
  - by rewrite fmap_app, fmap_cons.
  - intros k0 v0. destruct (decide (k0 = k)) as [->|Hne].
    + rewrite lookup_insert_eq, elem_of_app, elem_of_cons. split.
      * intros [Hl|[[= ->]|Hr]]; [|done|].
        -- exfalso. apply Hk1, list_elem_of_fmap. by exists (k, v0).
        -- exfalso. apply Hk2, list_elem_of_fmap. by exists (k, v0).
      * intros [= ->]. right. by left.
    + rewrite lookup_insert_ne by done. rewrite <- Hin.
      rewrite !elem_of_app, !elem_of_cons.
      split; (intros [?|[[= ??]|?]]; [by left|done|by right; right]).
Qed.

(** A new entry takes a place among the others, which keep their order. *)
Lemma map_iter_insert_new g k v :
  g !! k = None →
  ∃ its1 its2, map_iter g = its1 ++ its2 ∧
               map_iter (<[k := v]> g) = its1 ++ (k, v) :: its2.
Proof.
  intros Hk.
  destruct (map_iter_split (<[k := v]> g) k v) as (its1 & its2 & Heq & H1 & H2);
    [apply lookup_insert_eq|].
  exists its1, its2. split; [|done].
  pose proof (map_iter_strictly_sorted (<[k := v]> g)) as Hs.
  rewrite Heq, fmap_app, fmap_cons in Hs.
  apply StronglySorted_app in Hs as (Hlt & Hs1 & [Hall Hs2]%StronglySorted_cons).
  apply map_iter_unique.
  - rewrite fmap_app. apply StronglySorted_app. split; [|done].
    intros x1 x2 Hx1 Hx2. apply Hlt; [done|]. by right.
  - intros k0 v0. destruct (decide (k0 = k)) as [->|Hne].
    + rewrite Hk, elem_of_app. split; [|done]. intros [Hl|Hr]; exfalso.
      * apply H1, list_elem_of_fmap. by exists (k, v0).
      * apply H2, list_elem_of_fmap. by exists (k, v0).
    + rewrite <- (lookup_insert_ne g k k0 v) by done.
      rewrite <- elem_of_map_iter, Heq, !elem_of_app, elem_of_cons.
      split; [intros [?|?]; auto|]. intros [?|[[= ??]|?]]; auto. done.
Qed.

Lemma pairs_bind_entries g its :
  (∀ i, i ∈ its → g !! i.1 = Some i.2) →
  its ≫= (λ i, pairs_of i.2)
  = its.*1 ≫= (λ k, match edges_from g k with Ok l => l | _ => [] end).
Proof.
  induction its as [|i its IH]; intros Hits; [done|].
  rewrite fmap_cons, !bind_cons, IH.
  - f_equal. rewrite (edges_from_lookup g i.1 i.2); [done|]. apply Hits. left.
  - intros i' Hi'. apply Hits. by right.
Qed.

Lemma edges_from_entries g k :
  edges_from g k = match g !! k with
                   | Some v => Ok (pairs_of v)
                   | None => Throw (DigraphException msg_no_vertex)
                   end.
Proof.
  destruct (g !! k) as [v|] eqn:Hk; [by apply edges_from_lookup|].
  unfold edges_from. rewrite bool_decide_eq_true_2 by (by apply count_0). done.
Qed.

Lemma edgeCount_from_entries g k :
  edgeCount_from g k = match g !! k with
                       | Some v => Ok (to_int (Z.of_nat (length (edges v))))
                       | None => Throw (DigraphException msg_no_vertex)
                       end.
Proof.
  destruct (g !! k) as [v|] eqn:Hk; [by apply edgeCount_from_lookup|].
  unfold edgeCount_from.
  rewrite bool_decide_eq_true_2 by (by apply count_0). done.
Qed.

(** [vertices()] lists the vertex numbers of the graph in ascending order,
    each of them once; [vertexCount()] is the length of that list, as an
    [int]. *)
Theorem vertices_ascending g :
  StronglySorted Z.lt (vertices g) ∧
  NoDup (vertices g) ∧
  (∀ k, k ∈ vertices g ↔ is_Some (g !! k)) ∧
  vertexCount g = to_int (Z.of_nat (length (vertices g))) ∧
  (Z.of_nat (length (vertices g)) ≤ INT_MAX →
   vertexCount g = Z.of_nat (length (vertices g))).
Proof.
  split; [apply vertices_strictly_sorted|]. split; [apply NoDup_vertices|].
  split; [apply elem_of_vertices|]. unfold vertexCount.
  rewrite length_vertices. split; [done|]. intros Hle.
  apply to_int_small. unfold INT_MIN, INT_MAX in *. lia.
Qed.

(** [edges()] is the lists [edges(v)] of the vertices v, taken in the order
    of [vertices()]; [edgeCount()] is its length as an [int].  For a vertex of
    the graph [edges(v)] returns the pairs of the edges stored under it, in
    the order they were added, and [edgeCount(v)] their number; for any other
    vertex number both throw. *)
Theorem edges_by_vertex g :
  edges_all g
  = vertices g ≫= (λ k, match edges_from g k with Ok l => l | _ => [] end) ∧
  edgeCount g = to_int (Z.of_nat (length (edges_all g))) ∧
  ∀ k, match g !! k with
       | Some v =>
           edges_from g k = Ok (edge_pair <$> edges v) ∧
           edgeCount_from g k = Ok (to_int (Z.of_nat (length (edges v))))
       | None =>
           edges_from g k = Throw (DigraphException msg_no_vertex) ∧
           edgeCount_from g k = Throw (DigraphException msg_no_vertex)
       end.
Proof.
  split; [|split; [apply edgeCount_total|]].
  - rewrite edges_all_bind, vertices_keys. apply pairs_bind_entries.
    intros [k v]. apply elem_of_map_iter.
  - intros k. rewrite edges_from_entries, edgeCount_from_entries.
    by destruct (g !! k).
Qed.

(** What [vertexInfo] and [edgeInfo] return, by the entries of the map. *)
Lemma vertexInfo_lookup g k :
  vertexInfo g k = match g !! k with
                   | Some v => Ok (vinfo v)
                   | None => Throw (DigraphException msg_no_vertex)
                   end.
Proof.
  unfold vertexInfo. destruct (g !! k) as [v|] eqn:Hk.
  - rewrite bool_decide_eq_false_2; [done|]. rewrite count_0. congruence.
  - rewrite bool_decide_eq_true_2; [done|]. by rewrite count_0.
Qed.

Lemma edgeInfo_missing g from to :
  g !! from = None ∨ g !! to = None →
  edgeInfo g from to = Throw (DigraphException msg_no_vertices).
Proof.
  intros H. unfold edgeInfo. rewrite bool_decide_eq_true_2; [done|].
  by rewrite !count_0.
Qed.

Lemma find_edge_Some to js x :
  find_edge to js = Some x → ∃ j, j ∈ js ∧ toVertex j = to ∧ einfo j = x.
Proof.
  induction js as [|j js IH]; simpl; [done|]. case_bool_decide as Hj.
  - intros [= <-]. exists j. split; [left|done].
  - intros (j' & Hin & H')%IH. exists j'. split; [by right|done].
Qed.

Lemma find_edge_None to js : find_edge to js = None → to ∉ toVertex <$> js.
Proof.
  induction js as [|j js IH]; simpl; [intros _; apply not_elem_of_nil|].
  case_bool_decide as Hj; [done|]. intros Hn%IH.
  rewrite not_elem_of_cons. split; [congruence|done].
Qed.

Lemma find_edge_app_other to js j :
  toVertex j ≠ to → find_edge to (js ++ [j]) = find_edge to js.
Proof.
  intros Hne. induction js as [|j' js IH]; simpl.
  - by rewrite bool_decide_eq_false_2.
  - by rewrite IH.
Qed.

Lemma find_edge_filter_other (vertex : Z) to js :
  to ≠ vertex →
  find_edge to (filter (λ j, toVertex j ≠ vertex) js) = find_edge to js.
Proof.
  intros Hne. induction js as [|j js IH]; [done|]. simpl.
  destruct (decide (toVertex j ≠ vertex)) as [Hj|Hj].
  - rewrite filter_cons_True by done. simpl. by rewrite IH.
  - rewrite filter_cons_False by done. rewrite IH.
    rewrite bool_decide_eq_false_2; [done|]. intros Heq. apply Hj.
    by rewrite Heq.
Qed.

(** Under the invariant the pairs of [edges()] are the edges as stored. *)
Lemma elem_of_edges_all_stored g from to :
  invariant g →
  (from, to) ∈ edges_all g ↔
  ∃ v, g !! from = Some v ∧ to ∈ toVertex <$> edges v.
Proof.
  intros Hinv. rewrite elem_of_edges_all. split.
  - intros (k & v & j & Hk & Hj & [= -> ->]).
    destruct (Hinv k v Hk) as [Hall _].
    destruct (proj1 (Forall_forall _ _) Hall j Hj) as (Hfrom & _).
    exists v. rewrite Hfrom. split; [done|]. apply list_elem_of_fmap. eauto.
  - intros (v & Hv & (j & -> & Hj)%list_elem_of_fmap).
    exists from, v, j. split; [done|]. split; [done|].
    destruct (Hinv from v Hv) as [Hall _].
    destruct (proj1 (Forall_forall _ _) Hall j Hj) as (Hfrom & _).
    unfold edge_pair. by rewrite Hfrom.
Qed.

(** [edgeInfo] on a graph that satisfies the invariant: it returns the
    payload of the edge when the pair is among [edges()]; it throws
    "Vertice(s) do not exist!" when an endpoint is no vertex of the graph, and
    "Edge does not exist!" when both are and the pair is not among
    [edges()]. *)
Theorem edgeInfo_outcome g from to :
  invariant g →
  match edgeInfo g from to with
  | Ok x =>
      (from, to) ∈ edges_all g ∧
      ∃ v j, g !! from = Some v ∧ j ∈ edges v ∧ toVertex j = to ∧ einfo j = x
  | Throw e =>
      (e = DigraphException msg_no_vertices ∧
       (g !! from = None ∨ g !! to = None)) ∨
      (e = DigraphException msg_no_edge ∧
       is_Some (g !! from) ∧ is_Some (g !! to) ∧ (from, to) ∉ edges_all g)
  | Undefined => False
  end.
Proof.
  intros Hinv.
  destruct (g !! from) as [v|] eqn:Hf; [destruct (g !! to) as [v'|] eqn:Ht|].
  - rewrite (edgeInfo_lookup g from to v) by eauto.
    destruct (find_edge to (edges v)) as [x|] eqn:Hfind.
    + apply find_edge_Some in Hfind as (j & Hj & Hto & Hx). split; [|eauto 6].
      apply elem_of_edges_all_stored; [done|]. exists v. split; [done|].
      apply list_elem_of_fmap. eauto.
    + right. split; [done|]. split; [eauto|]. split; [eauto|].
      rewrite elem_of_edges_all_stored by done. intros (v0 & Hv0 & Hin).
      apply find_edge_None in Hfind. congruence.
  - rewrite edgeInfo_missing by auto. left. auto.
  - rewrite edgeInfo_missing by auto. left. auto.
Qed.

End Reading.

(** ** What the mutating member functions change, and what they keep *)

Lemma StronglySorted_filter {A} (R : relation A) (P : A → Prop)
    `{∀ x, Decision (P x)} (l : list A) :
  StronglySorted R l → StronglySorted R (filter P l).
Proof.
  induction 1 as [|x l _ IH Hx]; [constructor|].
  destruct (decide (P x)).
  - rewrite filter_cons_True by done. constructor; [done|].
    apply Forall_forall. intros y [_ Hy]%list_elem_of_filter.
    by apply (proj1 (Forall_forall _ _) Hx).
  - by rewrite filter_cons_False.
Qed.

Lemma to_int_pred a : to_int (to_int (a + 1) - 1) = to_int a.
Proof.
  replace (to_int (a + 1) - 1) with (to_int (a + 1) + -1) by lia.
  rewrite to_int_idemp. f_equal. lia.
Qed.

Section Frames.
Context {VertexInfo EdgeInfo : Type}.
Implicit Types (g : Digraph VertexInfo EdgeInfo).
Implicit Types (v : DigraphVertex VertexInfo EdgeInfo).
Implicit Types (j : DigraphEdge EdgeInfo) (js : list (DigraphEdge EdgeInfo)).
Implicit Types (its : list (Z * DigraphVertex VertexInfo EdgeInfo)).

Lemma edgeInfo_entries g from to :
  edgeInfo g from to =
    match g !! from, g !! to with
    | Some v, Some _ =>
        match find_edge to (edges v) with
        | Some x => Ok x
        | None => Throw (DigraphException msg_no_edge)
        end
    | _, _ => Throw (DigraphException msg_no_vertices)
    end.
Proof.
  destruct (g !! from) as [v|] eqn:Hf; [destruct (g !! to) as [v'|] eqn:Ht|].
  - apply edgeInfo_lookup; eauto.
  - apply edgeInfo_missing; auto.
  - apply edgeInfo_missing; auto.
Qed.

(** Replacing the edges of one vertex changes [edgeInfo] for the pairs only
    that the search in that list answers differently. *)
Lemma edgeInfo_insert g k v v' a b :
  g !! k = Some v →
  (a = k → find_edge b (edges v') = find_edge b (edges v)) →
  edgeInfo (<[k := v']> g) a b = edgeInfo g a b.
Proof.
  intros Hk Hfind. rewrite !edgeInfo_entries.
  assert (Hb : ∀ (X Y : result EdgeInfo),
    match <[k := v']> g !! b with Some _ => X | None => Y end
    = match g !! b with Some _ => X | None => Y end).
  { intros X Y. destruct (decide (b = k)) as [->|Hne].
    - by rewrite lookup_insert_eq, Hk.
    - by rewrite lookup_insert_ne. }
  destruct (decide (a = k)) as [->|Hne].
  - rewrite lookup_insert_eq, Hk, Hb, Hfind; done.
  - rewrite lookup_insert_ne by done. destruct (g !! a); [apply Hb|done].
Qed.

Lemma edges_all_replace g k v v' :
  g !! k = Some v →
  ∃ a b, edges_all g = a ++ pairs_of v ++ b ∧
         edges_all (<[k := v']> g) = a ++ pairs_of v' ++ b.
Proof.
  intros Hk. destruct (map_iter_split g k v Hk) as (l1 & l2 & Heq & _).
  exists (l1 ≫= (λ i, pairs_of i.2)), (l2 ≫= (λ i, pairs_of i.2)).
  rewrite !edges_all_bind, (map_iter_insert_present g k v v' l1 l2 Heq), Heq.
  by rewrite !bind_app, !bind_cons.
Qed.

Lemma insert_present_keys g k v v' x :
  g !! k = Some v → is_Some (<[k := v']> g !! x) ↔ is_Some (g !! x).
Proof.
  intros Hk. rewrite lookup_insert_is_Some'. split; [|by right].
  intros [<-|?]; [eauto|done].
Qed.

(** A call of [addVertex] that returns has added the vertex with its payload
    and no edge; it has changed nothing else: the other vertices keep their
    place in [vertices()], their payload and their edges, and [edges()]
    returns what it returned before. *)
Theorem addVertex_adds g k vi g' :
  addVertex g k vi = Done g' →
  g !! k = None ∧
  vertexInfo g' k = Ok vi ∧ edges_from g' k = Ok [] ∧
  (∃ a b, vertices g = a ++ b ∧ vertices g' = a ++ k :: b) ∧
  vertexCount g' = to_int (vertexCount g + 1) ∧
  edges_all g' = edges_all g ∧
  (∀ k', k' ≠ k →
     vertexInfo g' k' = vertexInfo g k' ∧ edges_from g' k' = edges_from g k') ∧
  (∀ a b, a ≠ k → b ≠ k → edgeInfo g' a b = edgeInfo g a b).
Proof.
  intros Hadd. destruct (g !! k) as [v|] eqn:Hk.
  { rewrite addVertex_present in Hadd by eauto. done. }
  rewrite addVertex_absent in Hadd by done. injection Hadd as <-.
  set (v0 := {| vinfo := vi; edges := [] |}).
  destruct (map_iter_insert_new g k v0 Hk) as (its1 & its2 & Hg & Hg').
  split; [done|]. split; [|split; [|split; [|split; [|split; [|split]]]]].
  - by rewrite vertexInfo_lookup, lookup_insert_eq.
  - by rewrite edges_from_entries, lookup_insert_eq.
  - exists its1.*1, its2.*1. rewrite !vertices_keys, Hg, Hg'.
    by rewrite !fmap_app, fmap_cons.
  - unfold vertexCount. rewrite map_size_insert_None by done.
    rewrite to_int_idemp. f_equal. lia.
  - rewrite !edges_all_bind, Hg, Hg'. by rewrite !bind_app, bind_cons.
  - intros k' Hne. rewrite !vertexInfo_lookup, !edges_from_entries.
    by rewrite lookup_insert_ne.
  - intros a b Ha Hb. rewrite !edgeInfo_entries.
    by rewrite !lookup_insert_ne.
Qed.

(** A call of [addEdge] that returns has added the one edge: [edgeInfo]
    gives its payload, [edges(from)] has its pair at the end, [edges()] has
    gained that pair and kept the order of the others, and the edge count has
    grown by one as an [int].  The vertices, their payloads, the edges of the
    other vertices and the payloads of the other edges are as before. *)
Theorem addEdge_adds g from to ei g' :
  addEdge g from to ei = Done g' →
  edgeInfo g' from to = Ok ei ∧
  (∃ l, edges_from g from = Ok l ∧ edges_from g' from = Ok (l ++ [(from, to)])) ∧
  (∃ a b, edges_all g = a ++ b ∧ edges_all g' = a ++ (from, to) :: b) ∧
  edgeCount g' = to_int (edgeCount g + 1) ∧
  vertices g' = vertices g ∧
  (∀ k, vertexInfo g' k = vertexInfo g k) ∧
  (∀ k, k ≠ from → edges_from g' k = edges_from g k) ∧
  (∀ a b, (a, b) ≠ (from, to) → edgeInfo g' a b = edgeInfo g a b).
Proof.
  intros (v & Hf & Ht & Hnew & ->)%addEdge_Done.
  set (e := {| fromVertex := from; toVertex := to; einfo := ei |}).
  assert (Hpairs : pairs_of (push_back v e) = pairs_of v ++ [(from, to)]).
  { unfold pairs_of, push_back. simpl. by rewrite fmap_app. }
  destruct (edges_all_replace g from v (push_back v e) Hf) as (a & b & Ha & Hb).
  split; [|split; [|split; [|split; [|split; [|split; [|split]]]]]].
  - rewrite (edgeInfo_lookup _ from to (push_back v e)).
    + simpl. subst e. by rewrite find_edge_last.
    + apply lookup_insert_eq.
    + by apply insert_keeps_keys.
  - exists (pairs_of v). rewrite !edges_from_entries, lookup_insert_eq, Hf.
    by rewrite Hpairs.
  - exists (a ++ pairs_of v), b. rewrite Ha, Hb, Hpairs.
    by rewrite <- !app_assoc.
  - rewrite !edgeCount_total, to_int_idemp, Ha, Hb, Hpairs. f_equal.
    rewrite !length_app. simpl. lia.
  - apply vertices_ext. intros k. by apply (insert_present_keys g from v).
  - intros k. rewrite !vertexInfo_lookup.
    destruct (decide (k = from)) as [->|Hne].
    + by rewrite lookup_insert_eq, Hf.
    + by rewrite lookup_insert_ne.
  - intros k Hne. rewrite !edges_from_entries. by rewrite lookup_insert_ne.
  - intros x y Hne. apply (edgeInfo_insert g from v); [done|].
    intros ->. simpl. apply find_edge_app_other. simpl. congruence.
Qed.

(** *** The erasing loop and the end of the list *)

(** The destinations being distinct, the erasing loop increments the
    past-the-end iterator exactly when the last edge of the list is the one
    it erases. *)
Lemma erase_loop_None (vertex : Z) js :
  NoDup (toVertex <$> js) →
  erase_loop vertex js = None ↔ toVertex <$> last js = Some vertex.
Proof.
  induction js as [|j js IH]; [done|].
  rewrite fmap_cons, NoDup_cons. intros [Hj Hnd]. simpl erase_loop.
  destruct (decide (toVertex j = vertex)) as [Hv|Hv].
  - rewrite (bool_decide_eq_true_2 _ Hv). destruct js as [|j' js].
    + simpl. by rewrite Hv.
    + assert (Hrest : vertex ∉ toVertex <$> j' :: js) by by rewrite <- Hv.
      rewrite last_cons_cons.
      rewrite fmap_cons, not_elem_of_cons in Hrest. destruct Hrest as [_ Hrest].
      rewrite (erase_loop_absent _ js Hrest). split; [done|].
      intros Hlast. exfalso. apply Hj. rewrite Hv.
      rewrite <- fmap_last in Hlast. by apply last_Some_elem_of.
  - rewrite (bool_decide_eq_false_2 _ Hv).
    destruct (erase_loop vertex js) as [[l b]|] eqn:Hl.
    + split; [done|]. intros Hlast. exfalso.
      destruct js as [|j' js].
      * simpl in Hlast. congruence.
      * rewrite last_cons_cons in Hlast. by apply (IH Hnd) in Hlast.
    + split; [|done]. intros _. destruct js as [|j' js]; [done|].
      rewrite last_cons_cons. by apply IH.
Qed.

Lemma filter_erases_one (to : Z) js :
  NoDup (toVertex <$> js) → to ∈ toVertex <$> js →
  ∃ js1 j js2, js = js1 ++ j :: js2 ∧ toVertex j = to ∧
               filter (λ j, toVertex j ≠ to) js = js1 ++ js2.
Proof.
  intros Hnd (j & Hto & Hj)%list_elem_of_fmap.
  apply list_elem_of_split in Hj as (js1 & js2 & ->).
  exists js1, j, js2. split; [done|]. split; [done|].
  rewrite fmap_app, fmap_cons in Hnd.
  apply NoDup_app in Hnd as (_ & Hdisj & Hnd). apply NoDup_cons in Hnd as [H2 _].
  rewrite filter_app, filter_cons_False by (intros Hne; by apply Hne).
  rewrite !filter_all; [done| |]; apply Forall_forall; intros x Hx Heq.
  - apply H2. rewrite <- Hto, <- Heq. apply list_elem_of_fmap. eauto.
  - apply (Hdisj (toVertex x)); [apply list_elem_of_fmap; eauto|].
    rewrite Heq, Hto. left.
Qed.

(** A call of [removeEdge] that returns, on a graph that satisfies the
    invariant, has removed the one pair from [edges()], the others keeping
    their order; [edgeInfo] of the pair throws "Edge does not exist!"
    afterwards and the edge count has dropped by one as an [int].  The
    vertices, their payloads and the payloads of the other edges are as
    before. *)
Theorem removeEdge_removes g from to g' :
  invariant g →
  removeEdge g from to = Done g' →
  (∃ a b, edges_all g = a ++ (from, to) :: b ∧ edges_all g' = a ++ b) ∧
  ((from, to) ∉ edges_all g') ∧
  edgeInfo g' from to = Throw (DigraphException msg_no_edge) ∧
  edgeCount g' = to_int (edgeCount g - 1) ∧
  vertices g' = vertices g ∧
  (∀ k, vertexInfo g' k = vertexInfo g k) ∧
  (∀ k, k ≠ from → edges_from g' k = edges_from g k) ∧
  (∀ a b, (a, b) ≠ (from, to) → edgeInfo g' a b = edgeInfo g a b).
Proof.
  intros Hinv Hrem. pose proof (removeEdge_invariant g from to g' Hinv Hrem) as Hinv'.
  destruct (g !! from) as [v|] eqn:Hf; [destruct (g !! to) as [v'|] eqn:Ht|].
  2,3: unfold removeEdge in Hrem; rewrite bool_decide_eq_true_2 in Hrem;
         [done|rewrite !count_0; auto].
  rewrite (removeEdge_lookup g from to v) in Hrem by eauto.
  destruct (erase_loop to (edges v)) as [[js [|]]|] eqn:Her; [|done..].
  injection Hrem as <-.
  destruct (Hinv from v Hf) as [Hall Hnd].
  apply erase_loop_NoDup in Her as [-> Hin]; [|done].
  symmetry in Hin. apply bool_decide_eq_true_1 in Hin.
  destruct (filter_erases_one to (edges v) Hnd Hin)
    as (js1 & j & js2 & Hjs & Hto & Hfilter).
  assert (Hfrom : fromVertex j = from).
  { apply (proj1 (Forall_forall _ _) Hall j). rewrite Hjs.
    apply elem_of_app. right. left. }
  set (v1 := set_edges v (filter (λ j, toVertex j ≠ to) (edges v))) in *.
  assert (Hlk : <[from := v1]> g !! from = Some v1) by apply lookup_insert_eq.
  assert (Hgone : to ∉ toVertex <$> edges v1).
  { simpl. intros (x & Hx & [Hne _]%list_elem_of_filter)%list_elem_of_fmap.
    by apply Hne. }
  destruct (edges_all_replace g from v v1 Hf) as (a & b & Ha & Hb).
  assert (Hp : pairs_of v = edge_pair <$> js1 ++ j :: js2)
    by (unfold pairs_of; by rewrite Hjs).
  assert (Hp1 : pairs_of v1 = edge_pair <$> js1 ++ js2)
    by (unfold pairs_of, v1; simpl; by rewrite Hfilter).
  rewrite fmap_app, fmap_cons in Hp. rewrite fmap_app in Hp1.
  unfold edge_pair at 2 in Hp. rewrite Hfrom, Hto in Hp.
  assert (Hedges : edges_all g = (a ++ (edge_pair <$> js1)) ++ (from, to)
                     :: ((edge_pair <$> js2) ++ b) ∧
                   edges_all (<[from := v1]> g)
                   = (a ++ (edge_pair <$> js1)) ++ ((edge_pair <$> js2) ++ b)).
  { rewrite Ha, Hb, Hp, Hp1. split; by rewrite <- !app_assoc. }
  destruct Hedges as [Hg Hg'].
  split; [eauto|]. split; [|split; [|split; [|split; [|split; [|split]]]]].
  - rewrite elem_of_edges_all_stored by done. intros (v2 & Hv2 & Hin2).
    rewrite Hlk in Hv2. injection Hv2 as <-. done.
  - rewrite (edgeInfo_lookup _ from to v1 Hlk).
    + by rewrite find_edge_absent.
    + apply insert_keeps_keys. eauto.
  - rewrite !edgeCount_total, Hg, Hg'. rewrite !length_app. simpl.
    rewrite <- (to_int_pred (Z.of_nat _)). f_equal. f_equal. f_equal.
    rewrite length_app. lia.
  - apply vertices_ext. intros k. by apply (insert_present_keys g from v).
  - intros k. rewrite !vertexInfo_lookup.
    destruct (decide (k = from)) as [->|Hne].
    + by rewrite lookup_insert_eq, Hf.
    + by rewrite lookup_insert_ne.
  - intros k Hne. rewrite !edges_from_entries. by rewrite lookup_insert_ne.
  - intros x y Hne. apply (edgeInfo_insert g from v); [done|].
    intros ->. simpl. apply find_edge_filter_other. congruence.
Qed.

(** How a call of [removeEdge] ends, on a graph that satisfies the invariant
    and for endpoints that are vertices of it, [l] being what [edges(from)]
    returns.  It throws "Edge does not exist!" when the pair is not in [l].
    It increments the past-the-end iterator of the list, which is undefined,
    when the pair is the last of [l].  It returns when the pair is in [l] at
    another place, and [edges(from)] then returns [l] without the pair. *)
Theorem removeEdge_outcome g from to l :
  invariant g → edges_from g from = Ok l → is_Some (g !! to) →
  match removeEdge g from to with
  | Done g' =>
      (from, to) ∈ l ∧ last l ≠ Some (from, to) ∧
      edges_from g' from = Ok (filter (λ p, p ≠ (from, to)) l)
  | Raised e g' =>
      e = DigraphException msg_no_edge ∧ g' = g ∧ (from, to) ∉ l
  | Undef => last l = Some (from, to)
  end.
Proof.
  intros Hinv Hl Hto. rewrite edges_from_entries in Hl.
  destruct (g !! from) as [v|] eqn:Hf; [|done]. injection Hl as <-.
  destruct (Hinv from v Hf) as [Hall Hnd].
  assert (Hpair : ∀ j, j ∈ edges v → edge_pair j = (from, toVertex j)).
  { intros j Hj. unfold edge_pair.
    by rewrite (proj1 (proj1 (Forall_forall _ _) Hall j Hj)). }
  assert (Hmem : (from, to) ∈ pairs_of v ↔ to ∈ toVertex <$> edges v).
  { unfold pairs_of. rewrite !list_elem_of_fmap. split.
    - intros (j & Heq & Hj). rewrite (Hpair j Hj) in Heq.
      injection Heq as ->. eauto.
    - intros (j & -> & Hj). exists j. by rewrite (Hpair j Hj). }
  assert (Hlast : last (pairs_of v) = Some (from, to)
                  ↔ toVertex <$> last (edges v) = Some to).
  { unfold pairs_of. rewrite fmap_last.
    destruct (last (edges v)) as [j|] eqn:Hj; [|done]. simpl.
    rewrite (Hpair j) by by apply last_Some_elem_of. split; congruence. }
  rewrite (removeEdge_lookup g from to v Hf Hto).
  destruct (erase_loop to (edges v)) as [[js b]|] eqn:Her.
  - assert (Hsome : erase_loop to (edges v) ≠ None) by congruence.
    rewrite (erase_loop_None to (edges v) Hnd), <- Hlast in Hsome.
    apply erase_loop_NoDup in Her as [-> ->]; [|done].
    case_bool_decide as Hin.
    + split; [by apply Hmem|]. split; [done|].
      rewrite edges_from_entries, lookup_insert_eq. f_equal.
      unfold pairs_of. simpl.
      assert (Hfilter : ∀ js0, (∀ j, j ∈ js0 → j ∈ edges v) →
        edge_pair <$> filter (λ j, toVertex j ≠ to) js0
        = filter (λ p, p ≠ (from, to)) (edge_pair <$> js0)).
      { induction js0 as [|j js0 IH]; intros Hsub; [done|].
        assert (Hj : edge_pair j = (from, toVertex j)) by (apply Hpair, Hsub; left).
        assert (IH' := IH (λ x Hx, Hsub x (list_elem_of_further _ _ _ Hx))).
        rewrite fmap_cons. destruct (decide (toVertex j = to)) as [Heq|Hne].
        - rewrite (filter_cons_False (λ j, toVertex j ≠ to))
            by (intros H; by apply H).
          rewrite filter_cons_False; [done|]. intros H. apply H.
          by rewrite Hj, Heq.
        - rewrite (filter_cons_True (λ j, toVertex j ≠ to)) by done.
          rewrite filter_cons_True by (rewrite Hj; congruence).
          by rewrite fmap_cons, IH'. }
      by apply Hfilter.
    + split; [done|]. split; [|by rewrite Hmem].
      rewrite filter_all; [|apply Forall_forall; intros x Hx Heq; apply Hin;
                            apply list_elem_of_fmap; eauto].
      rewrite set_edges_id. by apply insert_id.
  - apply Hlast, erase_loop_None; done.
Qed.

(** The edge that [addEdge] has just added is the last of its list:
    a call of [removeEdge] for it erases the edge and then increments the
    past-the-end iterator of the list, which is undefined. *)
Theorem removeEdge_after_addEdge g from to ei g' :
  addEdge g from to ei = Done g' → removeEdge g' from to = Undef.
Proof.
  intros (v & Hf & Ht & Hnew & ->)%addEdge_Done.
  set (e := {| fromVertex := from; toVertex := to; einfo := ei |}).
  rewrite (removeEdge_lookup _ from to (push_back v e));
    [|apply lookup_insert_eq|by apply insert_keeps_keys].
  assert (Her : ∀ js, to ∉ toVertex <$> js → erase_loop to (js ++ [e]) = None).
  { induction js as [|j js IH]; simpl.
    - intros _. by rewrite bool_decide_eq_true_2.
    - rewrite not_elem_of_cons. intros [Hne Hn].
      rewrite bool_decide_eq_false_2 by done. by rewrite IH. }
  simpl. by rewrite Her.
Qed.

End Frames.

Section Removal.
Context {VertexInfo EdgeInfo : Type}.
Implicit Types (g : Digraph VertexInfo EdgeInfo).
Implicit Types (v : DigraphVertex VertexInfo EdgeInfo).
Implicit Types (j : DigraphEdge EdgeInfo) (js : list (DigraphEdge EdgeInfo)).
Implicit Types (its : list (Z * DigraphVertex VertexInfo EdgeInfo)).

(** Under the invariant the last pair of [edges(k)] is the last edge of the
    list of [k]. *)
Lemma last_pair_stored g k v (to : Z) :
  invariant g → g !! k = Some v →
  last (pairs_of v) = Some (k, to) ↔ toVertex <$> last (edges v) = Some to.
Proof.
  intros Hinv Hk. destruct (Hinv k v Hk) as [Hall _].
  unfold pairs_of. rewrite fmap_last.
  destruct (last (edges v)) as [j|] eqn:Hj; [|done]. simpl.
  apply last_Some_elem_of in Hj.
  destruct (proj1 (Forall_forall _ _) Hall j Hj) as (Hfrom & _).
  unfold edge_pair. rewrite Hfrom. split; congruence.
Qed.

Lemma removeVertex_loop_Undef (vertex : Z) its g :
  removeVertex_loop vertex its g = Undef ↔
  ∃ i, i ∈ its ∧
       erase_loop vertex (if bool_decide (i.1 = vertex) then [] else edges i.2)
       = None.
Proof.
  revert g. induction its as [|i its IH]; intros g; simpl.
  - split; [done|]. intros (i & Hi & _). by apply elem_of_nil in Hi.
  - destruct (erase_loop vertex _) as [[l b]|] eqn:Her.
    + rewrite IH. split.
      * intros (i' & Hi' & Hnone). exists i'. split; [by right|done].
      * intros (i' & Hi' & Hnone). apply elem_of_cons in Hi' as [->|Hi'].
        -- congruence.
        -- eauto.
    + split; [|done]. intros _. exists i. split; [left|done].
Qed.

(** A call of [removeVertex] that returns, on a graph that satisfies the
    invariant, has taken the vertex out of [vertices()] and out of the vertex
    count, and the pairs that have it as source or destination out of
    [edges()]; the other vertices keep their payload, the other pairs stay,
    and the other edges keep their payload. *)
Theorem removeVertex_removes g (vertex : Z) g' :
  invariant g →
  removeVertex g vertex = Done g' →
  vertices g' = filter (λ k, k ≠ vertex) (vertices g) ∧
  vertexCount g' = to_int (vertexCount g - 1) ∧
  vertexInfo g' vertex = Throw (DigraphException msg_no_vertex) ∧
  (∀ p, p ∈ edges_all g' ↔ p ∈ edges_all g ∧ p.1 ≠ vertex ∧ p.2 ≠ vertex) ∧
  (∀ k, k ≠ vertex → vertexInfo g' k = vertexInfo g k) ∧
  (∀ a b, a ≠ vertex → b ≠ vertex → edgeInfo g' a b = edgeInfo g a b).
Proof.
  intros Hinv Hrem. pose proof (removeVertex_Done g vertex g' Hinv Hrem) as Hlk.
  assert (Hvertex : is_Some (g !! vertex)).
  { destruct (g !! vertex) eqn:Hv; [eauto|]. unfold removeVertex in Hrem.
    rewrite bool_decide_eq_true_2 in Hrem; [done|by apply count_0]. }
  assert (Hgone : g' !! vertex = None).
  { rewrite Hlk. by rewrite bool_decide_eq_true_2. }
  assert (Hother : ∀ k, k ≠ vertex →
    g' !! k = (λ v, set_edges v (filter (λ j, toVertex j ≠ vertex) (edges v)))
                <$> g !! k).
  { intros k Hk. rewrite Hlk. by rewrite bool_decide_eq_false_2. }
  split; [|split; [|split; [|split; [|split]]]].
  - apply StronglySorted_lt_ext.
    + apply vertices_strictly_sorted.
    + apply StronglySorted_filter, vertices_strictly_sorted.
    + intros k. rewrite list_elem_of_filter, !elem_of_vertices.
      destruct (decide (k = vertex)) as [->|Hne].
      * rewrite Hgone. split; [by intros []|]. by intros [? _].
      * rewrite Hother, fmap_is_Some by done. tauto.
  - unfold vertexCount.
    assert (Hdom : dom g' = dom (delete vertex g)).
    { apply set_eq. intros k. rewrite !elem_of_dom.
      destruct (decide (k = vertex)) as [->|Hne].
      - rewrite Hgone, lookup_delete_eq. done.
      - rewrite Hother, lookup_delete_ne, fmap_is_Some by done. done. }
    rewrite <- (size_dom g'), Hdom, size_dom.
    destruct Hvertex as [v Hv]. rewrite (map_size_delete_Some vertex g) by eauto.
    assert (Hpos : (0 < size g)%nat).
    { apply Nat.neq_0_lt_0. intros H0. apply map_size_empty_inv in H0.
      by rewrite H0, lookup_empty in Hv. }
    replace (to_int (Z.of_nat (size g)) - 1)
      with (to_int (Z.of_nat (size g)) + -1) by lia.
    rewrite to_int_idemp. f_equal. lia.
  - by rewrite vertexInfo_lookup, Hgone.
  - intros p. rewrite !elem_of_edges_all. split.
    + intros (k & v' & j & Hk & Hj & ->).
      assert (Hne : k ≠ vertex) by (intros ->; congruence).
      rewrite Hother in Hk by done.
      destruct (g !! k) as [v|] eqn:Hgk; [|done]. injection Hk as <-.
      simpl in Hj. apply list_elem_of_filter in Hj as [Hto Hj].
      destruct (Hinv k v Hgk) as [Hall _].
      destruct (proj1 (Forall_forall _ _) Hall j Hj) as (Hfrom & _).
      split; [eauto 6|]. simpl. split; [congruence|done].
    + intros ((k & v & j & Hk & Hj & ->) & H1 & H2). simpl in H1, H2.
      destruct (Hinv k v Hk) as [Hall _].
      destruct (proj1 (Forall_forall _ _) Hall j Hj) as (Hfrom & _).
      assert (Hne : k ≠ vertex) by congruence.
      eexists k, _, j. split; [by rewrite Hother, Hk|]. split; [|done].
      simpl. by apply list_elem_of_filter.
  - intros k Hk. rewrite !vertexInfo_lookup, Hother by done.
    by destruct (g !! k).
  - intros a b Ha Hb. rewrite !edgeInfo_entries, !Hother by done.
    destruct (g !! a) as [va|]; [|done]. destruct (g !! b) as [vb|]; [|done].
    simpl. by rewrite find_edge_filter_other.
Qed.

(** How a call of [removeVertex] ends, on a graph that satisfies the
    invariant and for a vertex of it: it increments the past-the-end iterator
    of a list, which is undefined, exactly when [edges(k)] of some other
    vertex k ends with the pair (k, vertex); otherwise it returns. *)
Theorem removeVertex_outcome g (vertex : Z) :
  invariant g → is_Some (g !! vertex) →
  (removeVertex g vertex = Undef ↔
   ∃ k l, k ≠ vertex ∧ edges_from g k = Ok l ∧ last l = Some (k, vertex)) ∧
  (removeVertex g vertex ≠ Undef → ∃ g', removeVertex g vertex = Done g').
Proof.
  intros Hinv [v0 Hv0]. unfold removeVertex.
  rewrite bool_decide_eq_false_2 by (rewrite count_0; congruence).
  assert (Hloop : removeVertex_loop vertex (map_iter g) g = Undef ↔
    ∃ k l, k ≠ vertex ∧ edges_from g k = Ok l ∧ last l = Some (k, vertex)).
  { rewrite removeVertex_loop_Undef. split.
    - intros ([k v] & Hi & Hnone). apply elem_of_map_iter in Hi.
      simpl in Hnone. case_bool_decide as Hk; [done|].
      exists k, (pairs_of v). split; [done|].
      split; [by apply edges_from_lookup|].
      apply (last_pair_stored g k v); [done..|].
      apply erase_loop_None; [by apply (Hinv k v)|done].
    - intros (k & l & Hne & Hl & Hlast). rewrite edges_from_entries in Hl.
      destruct (g !! k) as [v|] eqn:Hk; [|done]. injection Hl as <-.
      exists (k, v). split; [by apply elem_of_map_iter|]. simpl.
      rewrite bool_decide_eq_false_2 by done.
      apply erase_loop_None; [by apply (Hinv k v)|].
      by apply (last_pair_stored g k v). }
  destruct (removeVertex_loop vertex (map_iter g) g) as [g1|e g1|] eqn:Hrun.
  - split; [|eauto]. rewrite <- Hloop. done.
  - by apply removeVertex_loop_not_Raised in Hrun.
  - split; [|done]. by rewrite <- Hloop.
Qed.

(** A vertex that has just been added can be removed again, and the graph
    is then as it was before the two calls (on a graph that satisfies the
    invariant: no edge leads to a vertex that is new). *)
Theorem removeVertex_after_addVertex g k vi g1 :
  invariant g → addVertex g k vi = Done g1 → removeVertex g1 k = Done g.
Proof.
  intros Hinv Hadd.
  pose proof (addVertex_invariant g k vi g1 Hinv Hadd) as Hinv1.
  destruct (g !! k) as [v|] eqn:Hk.
  { rewrite addVertex_present in Hadd by eauto. done. }
  rewrite addVertex_absent in Hadd by done. injection Hadd as <-.
  set (g1 := <[k := {| vinfo := vi; edges := [] |}]> g) in *.
  assert (Hfresh : ∀ k' v', g !! k' = Some v' → k ∉ toVertex <$> edges v').
  { intros k' v' Hv' (j & -> & Hj)%list_elem_of_fmap.
    destruct (Hinv k' v' Hv') as [Hall _].
    destruct (proj1 (Forall_forall _ _) Hall j Hj) as (_ & _ & [? Hto]).
    congruence. }
  destruct (removeVertex g1 k) as [g2|e g2|] eqn:Hrem.
  - f_equal. apply map_eq. intros k'.
    rewrite (removeVertex_Done g1 k g2 Hinv1 Hrem k').
    case_bool_decide as Hk'; [by subst|].
    unfold g1. rewrite lookup_insert_ne by done.
    destruct (g !! k') as [v'|] eqn:Hv'; [|done]. simpl. f_equal.
    rewrite filter_all; [apply set_edges_id|].
    apply Forall_forall. intros j Hj Hto. apply (Hfresh k' v' Hv').
    apply list_elem_of_fmap. eauto.
  - apply removeVertex_Raised in Hrem as (_ & _ & Hnone).
    unfold g1 in Hnone. by rewrite lookup_insert_eq in Hnone.
  - exfalso. unfold removeVertex in Hrem.
    rewrite bool_decide_eq_false_2 in Hrem
      by (rewrite count_0; unfold g1; by rewrite lookup_insert_eq).
    destruct (removeVertex_loop k (map_iter g1) g1) as [g2|e g2|] eqn:Hloop;
      [done..|].
    apply removeVertex_loop_Undef in Hloop as ([k' v'] & Hi & Hnone).
    apply elem_of_map_iter in Hi. simpl in Hnone.
    case_bool_decide as Hk'; [done|].
    unfold g1 in Hi. rewrite lookup_insert_ne in Hi by done.
    by rewrite (erase_loop_absent k (edges v') (Hfresh k' v' Hi)) in Hnone.
Qed.

End Removal.

(** ** The predecessors that [findShortestPaths] reports *)

Section Predecessors.
Context {VertexInfo EdgeInfo : Type}.
Implicit Types (its : list (Z * DigraphVertex VertexInfo EdgeInfo)).
Implicit Types (js : list (DigraphEdge EdgeInfo)) (st : dijkstra).
Variable g : Digraph VertexInfo EdgeInfo.
Variable weightFn : EdgeInfo → Q.
Variable start : Z.







End Predecessors.

(** ** The properties at given graphs *)

(** The graphs used as evidence are graphs that calls of [addVertex] and
    [addEdge] build from the empty graph. *)
Example detour_built :
  foldl and_then (Done ∅)
    [ (λ g, addVertex g 1 0); (λ g, addVertex g 2 0); (λ g, addVertex g 3 0);
      (λ g, addVertex g 4 0);
      (λ g, addEdge g 1 2 10%Q); (λ g, addEdge g 1 3 1%Q);
      (λ g, addEdge g 1 4 5%Q); (λ g, addEdge g 3 2 1%Q);
      (λ g, addEdge g 2 4 1%Q) ]
  = Done detour.
Proof. by vm_compute. Qed.

Example lone5_built : addVertex ∅ 5 0 = Done lone5.
Proof. by vm_compute. Qed.

Example lone2_built : addVertex ∅ 2 true = Done lone2.
Proof. by vm_compute. Qed.

Example abcd_built :
  foldl and_then (Done ∅)
    [ (λ g, addVertex g 1 0); (λ g, addVertex g 2 0); (λ g, addVertex g 3 0);
      (λ g, addVertex g 4 0); (λ g, addVertex g 0 0);
      (λ g, addEdge g 1 2 1%Q); (λ g, addEdge g 2 3 2%Q);
      (λ g, addEdge g 1 3 5%Q); (λ g, addEdge g 3 4 1%Q) ]
  = Done abcd.
Proof. by vm_compute. Qed.

Example abcd_dense : invariant abcd ∧ dense abcd.
Proof. split; apply (bool_decide_unpack _); by vm_compute. Qed.

Lemma invariant_detour : invariant detour.
Proof. apply (bool_decide_unpack _). by vm_compute. Qed.

Lemma invariant_abcd : invariant abcd.
Proof. apply (bool_decide_unpack _). by vm_compute. Qed.


(** Vertex 3 of [detour] can be removed: the edge to it is followed by
    another one in the list of vertex 1. *)
Example removeVertex_detour_3 :
  ∃ g', removeVertex detour 3 = Done g' ∧
        vertices g' = [1; 2; 4] ∧ edges_all g' = [(1, 2); (1, 4); (2, 4)].
Proof. eexists. split; [by vm_compute|]. split; by vm_compute. Qed.

(** Vertex 4 of [detour] is the destination of the last edge of vertex 1:
    the loop of [removeVertex] erases it and then increments [end()]. *)
Example removeVertex_detour_4 : removeVertex detour 4 = Undef.
Proof. by vm_compute. Qed.

(** [addEdge_self_loop] at vertex 1 of [abcd]. *)
Lemma addEdge_self_loop_abcd :
  ∃ g', addEdge abcd 1 1 7%Q = Done g' ∧
    (1, 1) ∈ edges_all g' ∧
    (∃ l, edges_from g' 1 = Ok l ∧ (1, 1) ∈ l) ∧
    edgeInfo g' 1 1 = Ok 7%Q ∧
    edgeCount g' = to_int (edgeCount abcd + 1) ∧
    (edgeCount abcd ≠ INT_MAX → edgeCount g' = edgeCount abcd + 1) ∧
    (∃ n n', edgeCount_from abcd 1 = Ok n ∧ edgeCount_from g' 1 = Ok n' ∧
             n' = to_int (n + 1) ∧ (n ≠ INT_MAX → n' = n + 1)).
Proof.
  apply (addEdge_self_loop abcd 1 (vertex_of [(1, 2, 1%Q); (1, 3, 5%Q)]) 7%Q).
  - vm_compute. reflexivity.
  - apply (bool_decide_unpack _). vm_compute. exact I.
Defined.


(** [move_exchanges] at the store [two_graphs]. *)
Lemma move_exchanges_two_graphs :
  (move_construct 0 1 two_graphs 1%nat = ∅ ∧
   invariant (move_construct 0 1 two_graphs 1%nat) ∧
   move_construct 0 1 two_graphs 0%nat = two_graphs 1%nat) ∧
  (move_assign 0 1 two_graphs 1%nat = two_graphs 0%nat ∧
   move_assign 0 1 two_graphs 0%nat = two_graphs 1%nat) ∧
  (invariant (two_graphs 0%nat) → invariant (move_assign 0 1 two_graphs 1%nat)) ∧
  (move_assign 0 1 two_graphs 1%nat = ∅ ↔ two_graphs 0%nat = ∅) ∧
  (∀ c, c ≠ 0%nat → c ≠ 1%nat →
        move_construct 0 1 two_graphs c = two_graphs c ∧
        move_assign 0 1 two_graphs c = two_graphs c).
Proof. apply (move_exchanges two_graphs 0 1). lia. Defined.

(** C9 as stated fails for move assignment: the destination, object 0, holds
    [lone5] and the source, object 1, holds [cycle3]; after the assignment
    the source holds the vertex 5. *)
Lemma move_assign_leaves_source_nonempty :
  vertices (move_assign 0 1 two_graphs 1%nat) = [5] ∧
  move_assign 0 1 two_graphs 1%nat ≠ ∅.
Proof.
  assert (H : move_assign 0 1 two_graphs 1%nat = lone5) by by vm_compute.
  rewrite H. split; [by vm_compute|].
  intros Heq. apply (f_equal (λ m, m !! 5)) in Heq. by vm_compute in Heq.
Qed.

(** [isStronglyConnected_exact] at [cycle3], for [Digraph<int, double>]. *)
Lemma isStronglyConnected_exact_cycle3 :
  ∃ b, isStronglyConnected int_to_int int_eq_int cycle3 = Some b ∧
       (b = true ↔ strongly_connected cycle3).
Proof.
  apply (isStronglyConnected_exact int_to_int int_eq_int).
  - intros k x. reflexivity.
  - vm_compute. discriminate.
Defined.

(** [pq_extract_least] at the queue of the second turn on [detour]: the
    entry taken, of vertex 2, is before the entry of vertex 3. *)
Lemma pq_extract_least_detour :
  Qle (10, inject_Z 2).2 (1, inject_Z 3).2.
Proof.
  apply (pq_extract_least [(5, inject_Z 4); (1, inject_Z 3); (10, inject_Z 2)]
           (10, inject_Z 2) [(5, inject_Z 4); (1, inject_Z 3)]).
  - reflexivity.
  - right. left.
Defined.

(** [findShortestPaths_out_of_range] at [lone5], from its vertex 5. *)
Lemma findShortestPaths_out_of_range_lone5 :
  findShortestPaths lone5 weight 5 = Some (Throw std_out_of_range).
Proof.
  apply (findShortestPaths_out_of_range lone5 weight 5).
  - vm_compute. reflexivity.
  - right. right. vm_compute. reflexivity.
Defined.

(** [edgeInfo_outcome] at the pair (1, 3) of [abcd]. *)
Lemma edgeInfo_outcome_abcd :
  match edgeInfo abcd 1 3 with
  | Ok x =>
      (1, 3) ∈ edges_all abcd ∧
      ∃ v j, abcd !! 1 = Some v ∧ j ∈ edges v ∧ toVertex j = 3 ∧ einfo j = x
  | Throw e =>
      (e = DigraphException msg_no_vertices ∧
       (abcd !! 1 = None ∨ abcd !! 3 = None)) ∨
      (e = DigraphException msg_no_edge ∧
       is_Some (abcd !! 1) ∧ is_Some (abcd !! 3) ∧ (1, 3) ∉ edges_all abcd)
  | Undefined => False
  end.
Proof. apply (edgeInfo_outcome abcd 1 3), invariant_abcd. Defined.

(** [addVertex_adds] at [chain3], for a new vertex 0. *)
Lemma addVertex_adds_chain3 :
  ∃ g', addVertex chain3 0 7 = Done g' ∧
    chain3 !! 0 = None ∧
    vertexInfo g' 0 = Ok 7 ∧ edges_from g' 0 = Ok [] ∧
    (∃ a b, vertices chain3 = a ++ b ∧ vertices g' = a ++ 0 :: b) ∧
    vertexCount g' = to_int (vertexCount chain3 + 1) ∧
    edges_all g' = edges_all chain3 ∧
    (∀ k', k' ≠ 0 →
       vertexInfo g' k' = vertexInfo chain3 k' ∧
       edges_from g' k' = edges_from chain3 k') ∧
    (∀ a b, a ≠ 0 → b ≠ 0 → edgeInfo g' a b = edgeInfo chain3 a b).
Proof.
  eexists. split; [by vm_compute|].
  apply (addVertex_adds chain3 0 7). by vm_compute.
Defined.

(** [addEdge_adds] at [chain3]: the edge from 3 to 1 makes it [cycle3]. *)
Lemma addEdge_adds_chain3 :
  edgeInfo cycle3 3 1 = Ok 1%Q ∧
  (∃ l, edges_from chain3 3 = Ok l ∧ edges_from cycle3 3 = Ok (l ++ [(3, 1)])) ∧
  (∃ a b, edges_all chain3 = a ++ b ∧ edges_all cycle3 = a ++ (3, 1) :: b) ∧
  edgeCount cycle3 = to_int (edgeCount chain3 + 1) ∧
  vertices cycle3 = vertices chain3 ∧
  (∀ k, vertexInfo cycle3 k = vertexInfo chain3 k) ∧
  (∀ k, k ≠ 3 → edges_from cycle3 k = edges_from chain3 k) ∧
  (∀ a b, (a, b) ≠ (3, 1) → edgeInfo cycle3 a b = edgeInfo chain3 a b).
Proof. apply (addEdge_adds chain3 3 1 1%Q cycle3). by vm_compute. Defined.

(** [removeEdge_removes] at [detour], for its edge from 1 to 2. *)
Lemma removeEdge_removes_detour :
  ∃ g', removeEdge detour 1 2 = Done g' ∧
    (∃ a b, edges_all detour = a ++ (1, 2) :: b ∧ edges_all g' = a ++ b) ∧
    ((1, 2) ∉ edges_all g') ∧
    edgeInfo g' 1 2 = Throw (DigraphException msg_no_edge) ∧
    edgeCount g' = to_int (edgeCount detour - 1) ∧
    vertices g' = vertices detour ∧
    (∀ k, vertexInfo g' k = vertexInfo detour k) ∧
    (∀ k, k ≠ 1 → edges_from g' k = edges_from detour k) ∧
    (∀ a b, (a, b) ≠ (1, 2) → edgeInfo g' a b = edgeInfo detour a b).
Proof.
  eexists. split; [by vm_compute|].
  apply (removeEdge_removes detour 1 2); [apply invariant_detour|by vm_compute].
Defined.

(** [removeEdge_outcome] at [detour], for the last edge of vertex 1. *)
Lemma removeEdge_outcome_detour :
  match removeEdge detour 1 4 with
  | Done g' =>
      (1, 4) ∈ [(1, 2); (1, 3); (1, 4)] ∧
      last [(1, 2); (1, 3); (1, 4)] ≠ Some (1, 4) ∧
      edges_from g' 1 = Ok (filter (λ p, p ≠ (1, 4)) [(1, 2); (1, 3); (1, 4)])
  | Raised e g' =>
      e = DigraphException msg_no_edge ∧ g' = detour ∧
      (1, 4) ∉ [(1, 2); (1, 3); (1, 4)]
  | Undef => last [(1, 2); (1, 3); (1, 4)] = Some (1, 4)
  end.
Proof.
  apply (removeEdge_outcome detour 1 4 [(1, 2); (1, 3); (1, 4)]).
  - apply invariant_detour.
  - by vm_compute.
  - eexists. by vm_compute.
Defined.

(** [removeEdge_after_addEdge] at [chain3] and the edge from 3 to 1. *)
Lemma removeEdge_after_addEdge_chain3 : removeEdge cycle3 3 1 = Undef.
Proof. apply (removeEdge_after_addEdge chain3 3 1 1%Q cycle3). by vm_compute. Defined.

(** [removeVertex_removes] at [detour], for its vertex 3. *)
Lemma removeVertex_removes_detour :
  ∃ g', removeVertex detour 3 = Done g' ∧
    vertices g' = filter (λ k, k ≠ 3) (vertices detour) ∧
    vertexCount g' = to_int (vertexCount detour - 1) ∧
    vertexInfo g' 3 = Throw (DigraphException msg_no_vertex) ∧
    (∀ p, p ∈ edges_all g' ↔ p ∈ edges_all detour ∧ p.1 ≠ 3 ∧ p.2 ≠ 3) ∧
    (∀ k, k ≠ 3 → vertexInfo g' k = vertexInfo detour k) ∧
    (∀ a b, a ≠ 3 → b ≠ 3 → edgeInfo g' a b = edgeInfo detour a b).
Proof.
  eexists. split; [by vm_compute|].
  apply (removeVertex_removes detour 3); [apply invariant_detour|by vm_compute].
Defined.

(** [removeVertex_outcome] at [detour], for its vertex 4. *)
Lemma removeVertex_outcome_detour :
  (removeVertex detour 4 = Undef ↔
   ∃ k l, k ≠ 4 ∧ edges_from detour k = Ok l ∧ last l = Some (k, 4)) ∧
  (removeVertex detour 4 ≠ Undef → ∃ g', removeVertex detour 4 = Done g').
Proof.
  apply (removeVertex_outcome detour 4); [apply invariant_detour|].
  eexists. by vm_compute.
Defined.

(** [removeVertex_after_addVertex] at [abcd], for a new vertex 7. *)
Lemma removeVertex_after_addVertex_abcd :
  ∃ g1, addVertex abcd 7 0 = Done g1 ∧ removeVertex g1 7 = Done abcd.
Proof.
  eexists. split; [by vm_compute|].
  apply (removeVertex_after_addVertex abcd 7 0); [apply invariant_abcd|].
  by vm_compute.
Defined.


(** * Properties of the two sets *)

(** ** HashSet *)

Lemma to_unsigned_range z : 0 ≤ to_unsigned z < 2 ^ 32.
Proof. unfold to_unsigned. apply Z.mod_pos_bound. lia. Qed.

Lemma to_unsigned_small z : 0 ≤ z < 2 ^ 32 → to_unsigned z = z.
Proof. unfold to_unsigned. apply Z.mod_small. Qed.

Lemma to_unsigned_succ a : to_unsigned (to_unsigned a + 1) = to_unsigned (a + 1).
Proof.
  unfold to_unsigned. rewrite Zplus_mod, Z.mod_mod, <- Zplus_mod by lia. done.
Qed.

Lemma count_nodes_length {A} (l : list A) (c : Z) :
  foldl (λ temp _, to_unsigned (temp + 1)) (to_unsigned c) l
  = to_unsigned (c + Z.of_nat (length l)).
Proof.
  revert c. induction l as [|x l IH]; intros c; simpl.
  - f_equal. lia.
  - rewrite to_unsigned_succ, IH. f_equal. lia.
Qed.

Lemma concat_replicate_nil {A} (n : nat) : concat (replicate n (@nil A)) = [].
Proof. induction n; simpl; done. Qed.

Lemma concat_insert_replicate {A} (n i : nat) (l : list A) :
  (i < n)%nat → concat (<[i := l]> (replicate n [])) = l.
Proof.
  revert i. induction n as [|n IH]; intros i Hi; [lia|].
  destruct i as [|i]; simpl.
  - by rewrite concat_replicate_nil, app_nil_r.
  - apply IH. lia.
Qed.

Lemma concat_insert_cons {A} (table : list (list A)) (i : nat) (head : list A)
    (x : A) :
  table !! i = Some head →
  concat (<[i := x :: head]> table) ≡ₚ x :: concat table.
Proof.
  revert i. induction table as [|b table IH]; intros i; [done|].
  destruct i as [|i]; simpl.
  - by intros [= ->].
  - intros Hi. rewrite (IH i Hi). by rewrite Permutation_middle.
Qed.

Lemma elem_of_concat {A} (table : list (list A)) (x : A) :
  x ∈ concat table ↔ ∃ (i : nat) head, table !! i = Some head ∧ x ∈ head.
Proof.
  induction table as [|b table IH]; simpl.
  - split; [by intros ?%elem_of_nil|]. by intros (i & head & ? & _).
  - rewrite elem_of_app, IH. split.
    + intros [Hb|(i & head & Hi & Hx)]; [by exists 0%nat, b|].
      by exists (S i), head.
    + intros ([|i] & head & Hi & Hx); [left; by injection Hi as ->|].
      right. eauto.
Qed.

Lemma remove_dups_snoc_length {A} `{EqDecision A} (l : list A) (x : A) :
  length (remove_dups (l ++ [x]))
  = if bool_decide (x ∈ l) then length (remove_dups l)
    else S (length (remove_dups l)).
Proof.
  case_bool_decide as Hx.
  - apply Permutation_length, NoDup_Permutation; [apply NoDup_remove_dups..|].
    intros y. rewrite !elem_of_remove_dups, elem_of_app, list_elem_of_singleton.
    split; [intros [?| ->]; done|by left].
  - change (S (length (remove_dups l))) with (length (x :: remove_dups l)).
    apply Permutation_length, NoDup_Permutation.
    + apply NoDup_remove_dups.
    + apply NoDup_cons. split; [by rewrite elem_of_remove_dups|].
      apply NoDup_remove_dups.
    + intros y. rewrite elem_of_cons, !elem_of_remove_dups, elem_of_app,
        list_elem_of_singleton. tauto.
Qed.

Lemma count_nodes_0 {A} (l : list A) :
  foldl (λ temp _, to_unsigned (temp + 1)) 0 l = to_unsigned (Z.of_nat (length l)).
Proof. apply (count_nodes_length l 0). Qed.

Section HashSetFacts.
Context {ElementType : Type} `{EqDecision ElementType}.
Variable hashFunction : ElementType → Z.
Implicit Types (s : HashSet.HashSet ElementType) (e y : ElementType).
Implicit Types (table : list (list ElementType)) (head : list ElementType).

Local Abbreviation hash := (HashSet.hash hashFunction).
Local Abbreviation add := (HashSet.add hashFunction).
Local Abbreviation contains := (HashSet.contains hashFunction).
Local Abbreviation index_of := (HashSet.index_of hashFunction).

Lemma find_spec e head : HashSet.find e head = bool_decide (e ∈ head).
Proof.
  induction head as [|x head IH]; simpl.
  - first [done | symmetry; apply bool_decide_eq_false_2, not_elem_of_nil].
  - destruct (decide (x = e)) as [->|Hne].
    + rewrite bool_decide_eq_true_2 by done. symmetry.
      apply bool_decide_eq_true_2. left.
    + rewrite bool_decide_eq_false_2, IH by done.
      apply bool_decide_ext. rewrite elem_of_cons.
      split; [tauto|intros [?|?]; [congruence|done]].
Qed.

Lemma hash_index s e :
  0 < HashSet.capacity s →
  0 ≤ hash e `mod` HashSet.capacity s < HashSet.capacity s.
Proof. intros Hc. by apply Z.mod_pos_bound. Qed.

Lemma bucket_allocated s table (i : Z) :
  HashSet.hashTable s = Some table →
  length table = Z.to_nat (HashSet.capacity s) →
  0 ≤ i < HashSet.capacity s →
  ∃ head, table !! Z.to_nat i = Some head ∧ HashSet.bucket s i = Ok head.
Proof.
  intros Ht Hlen Hi. destruct (lookup_lt_is_Some_2 table (Z.to_nat i)) as [head Hh];
    [lia|].
  exists head. split; [done|]. unfold HashSet.bucket. by rewrite Ht, Hh.
Qed.

Lemma contains_allocated s table e :
  HashSet.hashTable s = Some table →
  0 < HashSet.capacity s →
  contains s e =
    match table !! Z.to_nat (hash e `mod` HashSet.capacity s) with
    | Some head => Ok (bool_decide (e ∈ head))
    | None => Undefined
    end.
Proof.
  intros Ht Hc. unfold HashSet.contains, HashSet.index_of.
  rewrite bool_decide_eq_false_2 by lia. cbn.
  unfold HashSet.bucket. rewrite Ht.
  destruct (table !! _); [|done]. cbn. by rewrite find_spec.
Qed.

(** The load factor exceeds 0.8 when 5 sz > 4 capacity. *)
Lemma exceeds_loadFactor s :
  0 < HashSet.capacity s →
  HashSet.exceeds (HashSet.loadFactor s) (8 # 10) = true
  ↔ 4 * HashSet.capacity s < 5 * HashSet.sz s.
Proof.
  intros Hc. unfold HashSet.loadFactor.
  rewrite bool_decide_eq_false_2 by lia. simpl. rewrite Qltb_lt.
  assert (Hq : (0 < inject_Z (HashSet.capacity s))%Q).
  { change 0%Q with (inject_Z 0). by rewrite <- Zlt_Qlt. }
  split.
  - intros Hlt.
    apply (Qmult_lt_r _ _ (inject_Z (HashSet.capacity s)) Hq) in Hlt.
    rewrite Qmult_comm, (Qmult_comm (_ / _)), Qmult_div_r in Hlt
      by (intros H0; rewrite H0 in Hq; by apply Qlt_irrefl in Hq).
    unfold Qlt in Hlt. simpl in Hlt. lia.
  - intros Hlt. apply Qlt_shift_div_l; [done|].
    unfold Qlt. simpl. lia.
Qed.

(** *** The resizing *)

Lemma relink_spec (index : Z) head table newHash :
  table !! Z.to_nat index = Some newHash →
  HashSet.relink index head table
  = Ok (<[Z.to_nat index := reverse head ++ newHash]> table).
Proof.
  revert table newHash. induction head as [|x head IH]; intros table b Hb; simpl.
  - by rewrite list_insert_id.
  - rewrite Hb. rewrite (IH _ (x :: b)).
    + rewrite list_insert_insert_eq, reverse_cons, <- app_assoc. done.
    + apply list_lookup_insert_eq. by eapply lookup_lt_Some.
Qed.

Lemma rehash_loop_spec s table (index : Z) (n : nat) (i : Z) t newHash :
  HashSet.hashTable s = Some table →
  0 ≤ i → (Z.to_nat i + n ≤ length table)%nat →
  t !! Z.to_nat index = Some newHash →
  HashSet.rehash_loop s index i n t
  = Ok (<[Z.to_nat index :=
            reverse (concat (take n (drop (Z.to_nat i) table))) ++ newHash]> t).
Proof.
  intros Ht. revert i t newHash. induction n as [|n IH]; intros i t b Hi Hlen Hb.
  - simpl. by rewrite list_insert_id.
  - cbn [HashSet.rehash_loop]. unfold HashSet.bucket. rewrite Ht.
    destruct (table !! Z.to_nat i) as [head|] eqn:Hhead.
    2:{ apply lookup_ge_None in Hhead. lia. }
    cbn. rewrite (relink_spec index head t b Hb). cbn.
    rewrite (IH (i + 1) _ (reverse head ++ b)).
    + rewrite list_insert_insert_eq. f_equal. f_equal.
      rewrite (drop_S _ _ _ Hhead). simpl.
      replace (Z.to_nat (i + 1)) with (S (Z.to_nat i)) by lia.
      by rewrite reverse_app, <- app_assoc.
    + lia.
    + lia.
    + apply list_lookup_insert_eq. by eapply lookup_lt_Some.
Qed.

Lemma new_capacity (c : Z) :
  0 < c < 2 ^ 32 → 0 < to_unsigned (c * 2 + 1) < 2 ^ 32.
Proof.
  intros Hc. pose proof (to_unsigned_range (c * 2 + 1)) as Hr.
  split; [|lia]. unfold to_unsigned in *.
  assert ((c * 2 + 1) `mod` 2 ^ 32 ≠ 0); [|lia].
  intros H0. apply Z.mod_divide in H0; [|lia]. destruct H0 as [q Hq].
  change (2 ^ 32) with (2 * 2 ^ 31) in Hq. lia.
Qed.

Lemma resize_allocated s e :
  HashSet.allocated s →
  ∃ s1, HashSet.resize hashFunction s e = Ok s1 ∧ HashSet.allocated s1 ∧
        HashSet.sz s1 = HashSet.sz s ∧
        HashSet.capacity s1 = to_unsigned (HashSet.capacity s * 2 + 1) ∧
        HashSet.hashTable s1
        = Some (<[Z.to_nat (hash e `mod` HashSet.capacity s1) :=
                    reverse (HashSet.nodes s)]>
                  (replicate (Z.to_nat (HashSet.capacity s1)) [])).
Proof.
  intros (table & Ht & Hlen & Hc & Hsz).
  pose proof (new_capacity _ Hc) as Hnew.
  set (c1 := to_unsigned (HashSet.capacity s * 2 + 1)) in *.
  assert (Hidx : 0 ≤ hash e `mod` c1 < c1) by (apply Z.mod_pos_bound; lia).
  eexists. unfold HashSet.resize. fold c1.
  rewrite (rehash_loop_spec s table _ _ 0 _ []); [| done | lia | simpl; lia | ].
  2:{ apply lookup_replicate_2. lia. }
  cbn. split; [reflexivity|]. simpl. split; [|split; [done|split; [done|]]].
  - eexists. split; [done|]. simpl.
    rewrite length_insert, length_replicate. done.
  - rewrite drop_0, <- Hlen, firstn_all, app_nil_r.
    unfold HashSet.nodes. by rewrite Ht.
Qed.

(** *** [add] *)

Lemma place_allocated s e :
  HashSet.allocated s →
  ∃ table head,
    HashSet.hashTable s = Some table ∧
    table !! Z.to_nat (hash e `mod` HashSet.capacity s) = Some head ∧
    HashSet.place hashFunction s e =
      Ok (if bool_decide (e ∈ head) then s
          else {| HashSet.hashTable :=
                    Some (<[Z.to_nat (hash e `mod` HashSet.capacity s)
                            := e :: head]> table);
                  HashSet.sz := to_unsigned (HashSet.sz s + 1);
                  HashSet.capacity := HashSet.capacity s |}).
Proof.
  intros (table & Ht & Hlen & Hc & Hsz).
  destruct (bucket_allocated s table (hash e `mod` HashSet.capacity s) Ht Hlen)
    as (head & Hhead & Hb); [apply hash_index; lia|].
  exists table, head. split; [done|]. split; [done|]. unfold HashSet.place.
  unfold HashSet.index_of at 1. rewrite bool_decide_eq_false_2 by lia. cbn.
  rewrite (contains_allocated s table e Ht) by lia. rewrite Hhead. cbn.
  case_bool_decide; [done|]. rewrite Hb. cbn. by rewrite Ht.
Qed.

Lemma add_cases s e :
  HashSet.allocated s →
  ∃ s1 table head,
    HashSet.allocated s1 ∧ HashSet.sz s1 = HashSet.sz s ∧
    HashSet.hashTable s1 = Some table ∧
    table !! Z.to_nat (hash e `mod` HashSet.capacity s1) = Some head ∧
    (if bool_decide (4 * HashSet.capacity s < 5 * HashSet.sz s) then
       HashSet.capacity s1 = to_unsigned (HashSet.capacity s * 2 + 1) ∧
       table = <[Z.to_nat (hash e `mod` HashSet.capacity s1) :=
                   reverse (HashSet.nodes s)]>
                 (replicate (Z.to_nat (HashSet.capacity s1)) [])
     else s1 = s) ∧
    add s e =
      Ok (if bool_decide (e ∈ head) then s1
          else {| HashSet.hashTable :=
                    Some (<[Z.to_nat (hash e `mod` HashSet.capacity s1)
                            := e :: head]> table);
                  HashSet.sz := to_unsigned (HashSet.sz s1 + 1);
                  HashSet.capacity := HashSet.capacity s1 |}).
Proof.
  intros Hs. pose proof Hs as (table0 & Ht0 & Hlen0 & Hc0 & Hsz0).
  unfold HashSet.add.
  destruct (HashSet.exceeds (HashSet.loadFactor s) (8 # 10)) eqn:Hload.
  - apply exceeds_loadFactor in Hload; [|lia].
    destruct (resize_allocated s e Hs) as (s1 & Hres & Hs1 & Hsz1 & Hc1 & Ht1).
    destruct (place_allocated s1 e Hs1) as (table & head & Ht & Hhead & Hplace).
    exists s1, table, head. rewrite Hres. cbn.
    rewrite bool_decide_eq_true_2 by done.
    split; [done|]. split; [done|]. split; [done|]. split; [done|].
    split; [|done]. split; [done|]. congruence.
  - assert (Hle : ¬ 4 * HashSet.capacity s < 5 * HashSet.sz s).
    { intros Hlt. apply exceeds_loadFactor in Hlt; [|lia]. congruence. }
    destruct (place_allocated s e Hs) as (table & head & Ht & Hhead & Hplace).
    exists s, table, head. cbn. rewrite bool_decide_eq_false_2 by done. done.
Qed.

Lemma nodes_table s table :
  HashSet.hashTable s = Some table → HashSet.nodes s = concat table.
Proof. intros Ht. unfold HashSet.nodes. by rewrite Ht. Qed.

Lemma allocated_create : HashSet.allocated (@HashSet.create ElementType).
Proof.
  eexists. split; [done|]. split; [apply length_replicate|].
  unfold HashSet.create, HashSet.DEFAULT_CAPACITY. simpl. lia.
Qed.

(** What [add] returns, in terms of the nodes. *)
Lemma add_step s e :
  HashSet.allocated s →
  ∃ s', add s e = Ok s' ∧ HashSet.allocated s' ∧
        contains s' e = Ok true ∧
        (∀ y, y ∈ HashSet.nodes s' ↔ y = e ∨ y ∈ HashSet.nodes s) ∧
        (HashSet.counted s → HashSet.counted s').
Proof.
  intros Hs.
  destruct (add_cases s e Hs)
    as (s1 & table & head & Hs1 & Hsz1 & Ht & Hhead & Hcase & Hadd).
  pose proof Hs1 as (table1 & Ht1 & Hlen1 & Hc1 & Hszr1).
  assert (table1 = table) as -> by congruence.
  assert (Hidx := hash_index s1 e (proj1 Hc1)).
  assert (Hnodes1 : HashSet.nodes s1 ≡ₚ HashSet.nodes s).
  { destruct (bool_decide (4 * HashSet.capacity s < 5 * HashSet.sz s));
      [|subst; reflexivity].
    destruct Hcase as [Hc Htable].
    rewrite (nodes_table s1 table Ht), Htable.
    rewrite concat_insert_replicate by lia. apply reverse_Permutation. }
  rewrite Hadd. eexists. split; [done|]. case_bool_decide as Hin.
  - split; [done|]. split; [|split].
    + rewrite (contains_allocated s1 table e Ht) by lia. rewrite Hhead.
      by rewrite bool_decide_eq_true_2.
    + intros y. rewrite Hnodes1. split; [by right|]. intros [->|?]; [|done].
      rewrite <- Hnodes1, (nodes_table s1 table Ht). apply elem_of_concat.
      eauto.
    + unfold HashSet.counted. by rewrite Hnodes1, Hsz1.
  - split; [|split; [|split]].
    + eexists. split; [done|]. simpl. rewrite length_insert.
      split; [done|]. split; [done|]. apply to_unsigned_range.
    + erewrite contains_allocated; [|done|simpl; lia]. simpl.
      rewrite list_lookup_insert_eq by (by eapply lookup_lt_Some).
      rewrite bool_decide_eq_true_2; [done|left].
    + intros y. unfold HashSet.nodes at 1. simpl.
      rewrite (concat_insert_cons table _ head e Hhead).
      by rewrite elem_of_cons, <- (nodes_table s1 table Ht), Hnodes1.
    + unfold HashSet.counted. intros Hcount. unfold HashSet.nodes at 1. simpl.
      rewrite (concat_insert_cons table _ head e Hhead).
      rewrite <- (nodes_table s1 table Ht), Hnodes1, Hsz1, Hcount.
      rewrite to_unsigned_succ, length_cons. f_equal. lia.
Qed.

(** [add] on an allocated table returns, and [contains] finds the element
    afterwards; the values of the nodes are the element and the values there
    were, and [size()] goes on counting the nodes if it did. *)
Theorem HashSet_add_contains s e :
  HashSet.allocated s →
  ∃ s', add s e = Ok s' ∧ HashSet.allocated s' ∧
        contains s' e = Ok true ∧
        (∀ y, y ∈ HashSet.nodes s' ↔ y = e ∨ y ∈ HashSet.nodes s) ∧
        (HashSet.size s = to_unsigned (Z.of_nat (length (HashSet.nodes s))) →
         HashSet.size s' = to_unsigned (Z.of_nat (length (HashSet.nodes s')))).
Proof. apply add_step. Qed.

Lemma add_all_snoc s es e :
  HashSet.add_all hashFunction s (es ++ [e])
  = (s' ← HashSet.add_all hashFunction s es; add s' e).
Proof. unfold HashSet.add_all. by rewrite foldl_app. Qed.

(** Whatever elements are added to a new set, in whatever order: every
    [add] returns, [size()] is the number of nodes as an [unsigned int], and
    the values of the nodes are the elements that were added. *)
Theorem HashSet_add_all_counted (es : list ElementType) :
  ∃ s, HashSet.add_all hashFunction HashSet.create es = Ok s ∧
       HashSet.allocated s ∧
       HashSet.size s = to_unsigned (Z.of_nat (length (HashSet.nodes s))) ∧
       (∀ y, y ∈ HashSet.nodes s ↔ y ∈ es) ∧
       (length (HashSet.nodes s) ≤ length es)%nat.
Proof.
  induction es as [|e es IH] using rev_ind.
  - exists HashSet.create. split; [done|]. split; [apply allocated_create|].
    split; [done|]. split; [|simpl; lia]. intros y. by vm_compute.
  - destruct IH as (s & Hall & Hs & Hcount & Hnodes & Hlen).
    destruct (add_cases s e Hs)
      as (s1 & table & head & Hs1 & Hsz1 & Ht & Hhead & Hcase & Hadd).
    destruct (add_step s e Hs) as (s' & Hadd' & Hs' & _ & Hnodes' & Hcount').
    exists s'. rewrite add_all_snoc, Hall. split; [done|]. split; [done|].
    split; [by apply Hcount'|]. split.
    + intros y. rewrite Hnodes', Hnodes, elem_of_app, list_elem_of_singleton.
      tauto.
    + rewrite length_app. simpl.
      assert (Hnodes1 : length (HashSet.nodes s1) = length (HashSet.nodes s)).
      { destruct (bool_decide (4 * HashSet.capacity s < 5 * HashSet.sz s));
          [|by subst].
        destruct Hcase as [Hc Htable].
        pose proof Hs1 as (table1 & Ht1 & Hlen1 & Hc1 & _).
        assert (Hidx := hash_index s1 e (proj1 Hc1)).
        rewrite (nodes_table s1 table Ht), Htable.
        rewrite concat_insert_replicate by lia. apply length_reverse. }
      rewrite Hadd in Hadd'. injection Hadd' as <-.
      case_bool_decide; [lia|]. unfold HashSet.nodes at 1. simpl.
      rewrite (concat_insert_cons table _ head e Hhead), length_cons.
      rewrite <- (nodes_table s1 table Ht). lia.
Qed.

(** *** [add] without resizing *)

Lemma contains_placed s y :
  HashSet.allocated s → HashSet.placed hashFunction s →
  contains s y = Ok (bool_decide (y ∈ HashSet.nodes s)).
Proof.
  intros (table & Ht & Hlen & Hc & Hsz) Hplaced.
  rewrite (contains_allocated s table y Ht) by lia.
  destruct (bucket_allocated s table (hash y `mod` HashSet.capacity s) Ht Hlen)
    as (head & Hhead & _); [apply hash_index; lia|].
  rewrite Hhead. f_equal. apply bool_decide_ext.
  rewrite (nodes_table s table Ht), elem_of_concat. split; [eauto|].
  intros (i & head' & Hi & Hy).
  pose proof (Hplaced table i head' y Ht Hi Hy) as Heq.
  rewrite <- Heq, Nat2Z.id in Hhead. congruence.
Qed.

Lemma add_in_place_spec s e :
  HashSet.allocated s →
  5 * HashSet.size s ≤ 4 * HashSet.capacity s →
  ∃ s', add s e = Ok s' ∧ HashSet.allocated s' ∧
        HashSet.capacity s' = HashSet.capacity s ∧
        contains s' e = Ok true ∧
        (∀ y, y ≠ e → contains s' y = contains s y) ∧
        HashSet.size s' = match contains s e with
                          | Ok true => HashSet.size s
                          | _ => to_unsigned (HashSet.size s + 1)
                          end ∧
        (HashSet.placed hashFunction s → HashSet.placed hashFunction s').
Proof.
  intros Hs Hload.
  destruct (add_cases s e Hs)
    as (s1 & table & head & Hs1 & Hsz1 & Ht & Hhead & Hcase & Hadd).
  destruct (add_step s e Hs) as (s' & Hadd' & Hs' & Hcont & _).
  rewrite bool_decide_eq_false_2 in Hcase by (unfold HashSet.size in Hload; lia).
  subst s1. pose proof Hs as (table1 & Ht1 & Hlen & Hc & Hsz).
  assert (table1 = table) as -> by congruence.
  assert (Hidx := hash_index s e (proj1 Hc)).
  exists s'. split; [done|]. split; [done|]. rewrite Hadd in Hadd'.
  injection Hadd' as <-.
  rewrite (contains_allocated s table e Ht), Hhead by lia.
  case_bool_decide as Hin.
  { split; [done|]. split; [|done].
    rewrite (contains_allocated s table e Ht), Hhead by lia.
    by rewrite bool_decide_eq_true_2. }
  split; [done|]. split; [done|]. split; [|split; [done|]].
  - intros y Hy. erewrite !contains_allocated; [|done|lia|done|simpl; lia].
    simpl.
    destruct (decide (Z.to_nat (hash y `mod` HashSet.capacity s)
                      = Z.to_nat (hash e `mod` HashSet.capacity s))) as [Heq|Hne].
    + rewrite Heq, Hhead.
      rewrite list_lookup_insert_eq by (by eapply lookup_lt_Some).
      f_equal. apply bool_decide_ext. rewrite elem_of_cons.
      split; [intros [?|?]; done|by right].
    + by rewrite list_lookup_insert_ne.
  - intros Hplaced table' i head' y. simpl. intros [= <-].
    destruct (decide (i = Z.to_nat (hash e `mod` HashSet.capacity s)))
      as [->|Hne].
    + rewrite list_lookup_insert_eq by (by eapply lookup_lt_Some).
      intros [= <-] [->|Hy]%elem_of_cons; [lia|].
      by apply (Hplaced table _ head y).
    + rewrite list_lookup_insert_ne by done. by apply Hplaced.
Qed.

(** While the load factor is at most 0.8, that is while
    [5 * size() <= 4 * capacity], [add] leaves the capacity as it is and
    leaves [contains] as it is for every other element; [size()] grows by one
    unless [contains] found the element before; and the nodes stay in the
    buckets of their hashes if they were. *)
Theorem HashSet_add_in_place s e :
  HashSet.allocated s →
  5 * HashSet.size s ≤ 4 * HashSet.capacity s →
  ∃ s', add s e = Ok s' ∧ HashSet.allocated s' ∧
        HashSet.capacity s' = HashSet.capacity s ∧
        contains s' e = Ok true ∧
        (∀ y, y ≠ e → contains s' y = contains s y) ∧
        HashSet.size s' = match contains s e with
                          | Ok true => HashSet.size s
                          | _ => to_unsigned (HashSet.size s + 1)
                          end ∧
        (HashSet.placed hashFunction s → HashSet.placed hashFunction s').
Proof. apply add_in_place_spec. Qed.

(** A new set to which elements are added, no more than 8 of them distinct,
    is a set of these elements: the capacity stays 10, [contains] is true
    exactly of the elements that were added, and [size()] is the number of
    distinct elements. *)
Theorem HashSet_small_set (es : list ElementType) :
  (length (remove_dups es) ≤ 8)%nat →
  ∃ s, HashSet.add_all hashFunction HashSet.create es = Ok s ∧
       HashSet.capacity s = 10 ∧
       (∀ y, contains s y = Ok (bool_decide (y ∈ es))) ∧
       HashSet.size s = Z.of_nat (length (remove_dups es)).
Proof.
  intros Hsmall.
  assert (Hinv : ∃ s, HashSet.add_all hashFunction HashSet.create es = Ok s ∧
    HashSet.allocated s ∧ HashSet.placed hashFunction s ∧
    HashSet.capacity s = 10 ∧
    (∀ y, contains s y = Ok (bool_decide (y ∈ es))) ∧
    HashSet.size s = Z.of_nat (length (remove_dups es))).
  { induction es as [|e es IH] using rev_ind.
    - exists HashSet.create. split; [done|]. split; [apply allocated_create|].
      assert (Hplaced : HashSet.placed hashFunction (@HashSet.create ElementType)).
      { intros table i head y [= <-] Hi Hy.
        apply list_elem_of_lookup_2 in Hi.
        repeat (apply elem_of_cons in Hi as [->|Hi]; [by apply elem_of_nil in Hy|]).
        by apply elem_of_nil in Hi. }
      split; [done|]. split; [done|]. split; [|done].
      intros y. rewrite contains_placed by (done || apply allocated_create).
      reflexivity.
    - rewrite remove_dups_snoc_length in Hsmall.
      destruct IH as (s & Hall & Hs & Hplaced & Hcap & Hcont & Hsize).
      { case_bool_decide; lia. }
      destruct (add_in_place_spec s e Hs)
        as (s' & Hadd & Hs' & Hcap' & Hcont_e & Hframe & Hsize' & Hplaced').
      { rewrite Hsize, Hcap. case_bool_decide; lia. }
      exists s'. rewrite add_all_snoc, Hall. split; [done|]. split; [done|].
      split; [by apply Hplaced'|]. split; [congruence|]. split.
      + intros y. destruct (decide (y = e)) as [->|Hne].
        * rewrite Hcont_e, bool_decide_eq_true_2; [done|].
          apply elem_of_app. right. left.
        * rewrite Hframe, Hcont by done. f_equal. apply bool_decide_ext.
          rewrite elem_of_app, list_elem_of_singleton. tauto.
      + rewrite Hsize', Hcont, remove_dups_snoc_length, Hsize.
        case_bool_decide; [done|]. rewrite to_unsigned_small; lia. }
  destruct Hinv as (s & ? & _ & _ & ? & ? & ?). eauto.
Qed.

(** *** [add] with resizing *)

(** When the load factor exceeds 0.8, that is when
    [5 * size() > 4 * capacity], [add] moves every node to the bucket of the
    element that is being added, in a table of [2 * capacity + 1] buckets:
    every other bucket is empty afterwards, and [contains] is false for every
    element whose bucket is another one, whether it was added before or
    not.  The nodes are all still there. *)
Theorem HashSet_add_resizes s e :
  HashSet.allocated s →
  4 * HashSet.capacity s < 5 * HashSet.size s →
  ∃ s', add s e = Ok s' ∧
        HashSet.capacity s' = to_unsigned (HashSet.capacity s * 2 + 1) ∧
        contains s' e = Ok true ∧
        (∀ y, hash y `mod` HashSet.capacity s' ≠ hash e `mod` HashSet.capacity s' →
              contains s' y = Ok false) ∧
        (∀ i, 0 ≤ i < HashSet.capacity s' →
              i ≠ hash e `mod` HashSet.capacity s' →
              HashSet.elementsAtIndex s' i = Ok 0) ∧
        (∀ y, y ∈ HashSet.nodes s → y ∈ HashSet.nodes s').
Proof.
  intros Hs Hload.
  destruct (add_cases s e Hs)
    as (s1 & table & head & Hs1 & Hsz1 & Ht & Hhead & Hcase & Hadd).
  destruct (add_step s e Hs) as (s' & Hadd' & Hs' & Hcont & Hnodes & _).
  rewrite bool_decide_eq_true_2 in Hcase by (unfold HashSet.size in Hload; lia).
  destruct Hcase as [Hcap Htable].
  pose proof Hs1 as (table1 & Ht1 & Hlen1 & Hc1 & _).
  assert (Hidx := hash_index s1 e (proj1 Hc1)).
  assert (Hcap' : HashSet.capacity s' = HashSet.capacity s1).
  { rewrite Hadd in Hadd'. injection Hadd' as <-. by case_bool_decide. }
  assert (Hempty : ∃ table', HashSet.hashTable s' = Some table' ∧
    ∀ i, 0 ≤ i < HashSet.capacity s1 → i ≠ hash e `mod` HashSet.capacity s1 →
         table' !! Z.to_nat i = Some []).
  { assert (Hrep : ∀ i, 0 ≤ i < HashSet.capacity s1 →
      i ≠ hash e `mod` HashSet.capacity s1 → table !! Z.to_nat i = Some []).
    { intros i Hi Hne. rewrite Htable, list_lookup_insert_ne by lia.
      apply lookup_replicate_2. lia. }
    rewrite Hadd in Hadd'. injection Hadd' as <-. case_bool_decide.
    - by exists table.
    - eexists. split; [done|]. intros i Hi Hne.
      rewrite list_lookup_insert_ne by lia. by apply Hrep. }
  destruct Hempty as (table' & Ht' & Hempty).
  exists s'. split; [done|]. split; [congruence|]. split; [done|].
  split; [|split].
  - intros y Hy. rewrite (contains_allocated s' table' y Ht') by lia.
    rewrite Hcap' in *. rewrite Hempty; [done| |done].
    apply Z.mod_pos_bound. lia.
  - intros i Hi Hne. unfold HashSet.elementsAtIndex, HashSet.bucket.
    rewrite bool_decide_eq_true_2 by done. rewrite Hcap' in *.
    rewrite Ht', Hempty by done. done.
  - intros y Hy. apply Hnodes. by right.
Qed.

(** *** Copies *)

Lemma copy_nodes_reverse (l acc : list ElementType) :
  HashSet.copy_nodes l acc = reverse l ++ acc.
Proof.
  revert acc. induction l as [|x l IH]; intros acc; simpl; [done|].
  unfold HashSet.copy_nodes in *. simpl. rewrite IH, reverse_cons.
  by rewrite <- app_assoc.
Qed.

Lemma copy_loop_spec s table (n : nat) (i : Z) :
  HashSet.hashTable s = Some table →
  0 ≤ i → (Z.to_nat i + n ≤ length table)%nat →
  HashSet.copy_loop s i n = Ok (reverse <$> take n (drop (Z.to_nat i) table)).
Proof.
  intros Ht. revert i. induction n as [|n IH]; intros i Hi Hlen; [done|].
  cbn [HashSet.copy_loop]. unfold HashSet.bucket. rewrite Ht.
  destruct (table !! Z.to_nat i) as [head|] eqn:Hhead.
  2:{ apply lookup_ge_None in Hhead. lia. }
  cbn. rewrite IH by lia. cbn. rewrite (drop_S _ _ _ Hhead). simpl.
  replace (Z.to_nat (i + 1)) with (S (Z.to_nat i)) by lia.
  by rewrite copy_nodes_reverse, app_nil_r.
Qed.

Lemma destroy_loop_returns (n : nat) s table (i : Z) :
  HashSet.hashTable s = Some table →
  0 ≤ i → (Z.to_nat i + n ≤ length table)%nat →
  ∃ s', HashSet.destroy_loop s i n = Ok s'.
Proof.
  revert s table i. induction n as [|n IH]; intros s table i Ht Hi Hlen.
  - by exists s.
  - cbn [HashSet.destroy_loop]. unfold HashSet.bucket. rewrite Ht.
    destruct (table !! Z.to_nat i) as [head|] eqn:Hhead.
    2:{ apply lookup_ge_None in Hhead. lia. }
    cbn. eapply IH; [done|lia|]. rewrite length_insert. lia.
Qed.

(** The copy constructor, on an allocated table, gives a table with the same
    capacity and [size()] whose buckets hold the same values in reverse
    order: [contains] and [elementsAtIndex] answer as for the original.  Copy
    assignment to an allocated object leaves the same. *)
Theorem HashSet_copy s :
  HashSet.allocated s →
  ∃ s', HashSet.copy_construct s = Ok s' ∧ HashSet.allocated s' ∧
        HashSet.size s' = HashSet.size s ∧
        HashSet.capacity s' = HashSet.capacity s ∧
        (∀ i head, HashSet.bucket s i = Ok head →
                   HashSet.bucket s' i = Ok (reverse head)) ∧
        (∀ y, contains s' y = contains s y) ∧
        (∀ i, HashSet.elementsAtIndex s' i = HashSet.elementsAtIndex s i) ∧
        (∀ this, HashSet.allocated this → HashSet.copy_assign this s = Ok s').
Proof.
  intros (table & Ht & Hlen & Hc & Hsz).
  assert (Hcopy : HashSet.copy_loop s 0 (Z.to_nat (HashSet.capacity s))
                  = Ok (reverse <$> table)).
  { rewrite (copy_loop_spec s table) by (done || simpl; lia).
    by rewrite drop_0, <- Hlen, firstn_all. }
  eexists. unfold HashSet.copy_construct. rewrite Hcopy. cbn.
  split; [done|]. split; [|split; [done|split; [done|split; [|split; [|split]]]]].
  - eexists. split; [done|]. simpl. by rewrite length_fmap.
  - intros i head. unfold HashSet.bucket. rewrite Ht. simpl.
    rewrite list_lookup_fmap. destruct (table !! Z.to_nat i); [|done].
    by intros [= ->].
  - intros y. rewrite (contains_allocated s table y Ht) by lia.
    erewrite contains_allocated; [|done|simpl; lia]. simpl.
    rewrite list_lookup_fmap. destruct (table !! _); [|done]. simpl.
    f_equal. apply bool_decide_ext. by rewrite elem_of_reverse.
  - intros i. unfold HashSet.elementsAtIndex, HashSet.bucket. simpl.
    case_bool_decide; [|done]. rewrite Ht, list_lookup_fmap.
    destruct (table !! _); [|done]. cbn. f_equal.
    by rewrite !count_nodes_0, length_reverse.
  - intros this (table0 & Ht0 & Hlen0 & Hc0 & _). unfold HashSet.copy_assign.
    destruct (destroy_loop_returns (Z.to_nat (HashSet.capacity this)) this
                table0 0 Ht0) as (this' & Hdestroy); [lia|simpl; lia|].
    unfold HashSet.destroyAll. rewrite Hdestroy. cbn. by rewrite Hcopy.
Qed.

(** Move construction gives the new object the table, the size and the
    capacity of the source and leaves the source without a table ([nullptr]),
    with size 0 and capacity 10.  Every member function that reads the table
    of the source afterwards reads through the null pointer, which is
    undefined: [contains], [add], [elementsAtIndex] below 10,
    [isElementAtIndex], the copy constructor, and copy assignment to it. *)
Theorem HashSet_moved_from s :
  (HashSet.move_construct s).1 = s ∧
  HashSet.size (HashSet.move_construct s).2 = 0 ∧
  HashSet.capacity (HashSet.move_construct s).2 = 10 ∧
  (∀ y, contains (HashSet.move_construct s).2 y = Undefined) ∧
  (∀ y, add (HashSet.move_construct s).2 y = Undefined) ∧
  (∀ i, 0 ≤ i < 10 →
        HashSet.elementsAtIndex (HashSet.move_construct s).2 i = Undefined) ∧
  (∀ y i, 0 ≤ i →
          HashSet.isElementAtIndex (HashSet.move_construct s).2 y i = Undefined) ∧
  HashSet.copy_construct (HashSet.move_construct s).2 = Undefined ∧
  (∀ s0, HashSet.copy_assign (HashSet.move_construct s).2 s0 = Undefined).
Proof.
  split; [by destruct s|]. split; [done|]. split; [done|].
  split; [done|]. split; [|split; [|split; [|split; [done|done]]]].
  - intros y. unfold HashSet.add. simpl. done.
  - intros i Hi. unfold HashSet.elementsAtIndex. simpl.
    unfold HashSet.DEFAULT_CAPACITY. by rewrite bool_decide_eq_true_2.
  - intros y i Hi. unfold HashSet.isElementAtIndex.
    rewrite bool_decide_eq_true_2 by auto. done.
Qed.

(** [isElementAtIndex] reads the bucket whatever the index is: for an index
    that is not below the capacity it reads past the end of the table, which
    is undefined, where [elementsAtIndex] returns 0.  For an index below the
    capacity it tells whether the bucket has a node with the element, and at
    the index of the hash of the element it answers as [contains] does. *)
Theorem HashSet_isElementAtIndex s e (index : Z) :
  HashSet.allocated s → 0 ≤ index →
  (HashSet.capacity s ≤ index →
     HashSet.isElementAtIndex s e index = Undefined ∧
     HashSet.elementsAtIndex s index = Ok 0) ∧
  (index < HashSet.capacity s →
     ∃ head, HashSet.bucket s index = Ok head ∧
             HashSet.isElementAtIndex s e index = Ok (bool_decide (e ∈ head)) ∧
             HashSet.elementsAtIndex s index
             = Ok (to_unsigned (Z.of_nat (length head)))) ∧
  HashSet.isElementAtIndex s e (hash e `mod` HashSet.capacity s) = contains s e.
Proof.
  intros (table & Ht & Hlen & Hc & Hsz) Hi. split; [|split].
  - intros Hge. unfold HashSet.isElementAtIndex, HashSet.elementsAtIndex.
    rewrite bool_decide_eq_true_2 by auto.
    rewrite bool_decide_eq_false_2 by lia. split; [|done].
    unfold HashSet.bucket. rewrite Ht.
    rewrite (proj2 (lookup_ge_None table (Z.to_nat index))) by lia. done.
  - intros Hlt.
    destruct (bucket_allocated s table index Ht Hlen) as (head & Hhead & Hb);
      [lia|].
    exists head. split; [done|].
    unfold HashSet.isElementAtIndex, HashSet.elementsAtIndex.
    rewrite bool_decide_eq_true_2 by auto.
    rewrite (bool_decide_eq_true_2 (0 ≤ index ∧ _)) by lia. rewrite Hb. cbn.
    rewrite find_spec. split; [done|]. f_equal.
    apply count_nodes_0.
  - assert (Hidx := hash_index s e (proj1 Hc)).
    unfold HashSet.isElementAtIndex, HashSet.contains, HashSet.index_of.
    rewrite bool_decide_eq_true_2 by lia.
    rewrite bool_decide_eq_false_2 by lia. done.
Qed.

End HashSetFacts.

(** ** AVLSet *)

Arguments AVLSet.checkBalance : simpl never.

Lemma filter_none {A} (P : A → Prop) `{∀ x, Decision (P x)} (l : list A) :
  Forall (λ x, ¬ P x) l → filter P l = [].
Proof.
  induction 1 as [|x l Hx _ IH]; [done|]. by rewrite filter_cons_False.
Qed.

Ltac flatten_app :=
  repeat first [rewrite <- app_assoc | rewrite <- app_comm_cons]; try done.

Section AVLSetFacts.
Context {ElementType : Type} `{EqDecision ElementType}.
Context (less : relation ElementType) `{∀ x y, Decision (less x y)}.
Implicit Types (t l r : AVLSet.Node ElementType) (e x y v : ElementType).
Implicit Types (s : AVLSet.AVLSet ElementType).

Local Abbreviation node := (@AVLSet.node ElementType).
Local Abbreviation nullptr := (@AVLSet.nullptr ElementType).
Local Abbreviation height_ := (@AVLSet.height_ ElementType).
Local Abbreviation inorder_ := (@AVLSet.inorder_ ElementType).
Local Abbreviation balanced := (@AVLSet.balanced ElementType).
Local Abbreviation search_tree := (AVLSet.search_tree less).
Local Abbreviation insert := (AVLSet.insert less).
Local Abbreviation checkBalance := (AVLSet.checkBalance less).
Local Abbreviation contains_ := (AVLSet.contains_ less).

Lemma height_ge t : -1 ≤ height_ t.
Proof. induction t; simpl; lia. Qed.

Lemma inorder_node v l r : inorder_ (node v l r) = inorder_ l ++ v :: inorder_ r.
Proof. done. Qed.

(** Rotations leave the order of the values as it is. *)
Lemma checkBalance_inorder t e t' :
  checkBalance t e = Ok t' → inorder_ t' = inorder_ t.
Proof.
  destruct t as [|v l r]; [by intros [= <-]|]. unfold AVLSet.checkBalance.
  destruct (bool_decide (height_ l - height_ r < -1)).
  - destruct r as [|rv rl rr]; [done|].
    destruct (decide (less rv e)).
    + intros [= <-]. rewrite !inorder_node. flatten_app.
    + destruct (decide (less e rv)); [|by intros [= <-]].
      destruct rl as [|xv xl xr]; [done|]. cbn. intros [= <-].
      rewrite !inorder_node. flatten_app.
  - destruct (bool_decide (height_ l - height_ r > 1)); [|by intros [= <-]].
    destruct l as [|lv ll lr]; [done|].
    destruct (decide (less e lv)).
    + intros [= <-]. rewrite !inorder_node. flatten_app.
    + destruct (decide (less lv e)); [|by intros [= <-]].
      destruct lr as [|xv xl xr]; [done|]. cbn. intros [= <-].
      rewrite !inorder_node. flatten_app.
Qed.

(** The last step of [insert]. *)
Lemma balance_inorder (b : bool) t e (sz : Z) t' (sz' : Z) :
  (if b then node_ ← checkBalance t e; Ok (node_, sz) else Ok (t, sz))
  = Ok (t', sz') →
  inorder_ t' = inorder_ t ∧ sz' = sz.
Proof.
  destruct b; [|by intros [= <- <-]].
  destruct (checkBalance t e) as [t1| |] eqn:Hc; [|done..]. cbn.
  intros [= <- <-]. split; [|done]. by eapply checkBalance_inorder.
Qed.

Context `{!StrictOrder less}.

Lemma less_asym x y : less x y → ¬ less y x.
Proof. intros Hxy Hyx. apply (irreflexivity less x). by transitivity y. Qed.

Lemma search_tree_sorted t : search_tree t ↔ StronglySorted less (inorder_ t).
Proof.
  induction t as [|v l IHl r IHr]; simpl.
  - split; [constructor|done].
  - rewrite StronglySorted_app, StronglySorted_cons, Forall_forall, IHl, IHr.
    split.
    + intros (Hl & Hr & Sl & Sr). split; [|done].
      intros x1 x2 H1 [->|H2]%elem_of_cons; [by apply Hl|].
      transitivity v; [by apply Hl|by apply Hr].
    + intros (Hlr & Sl & Hr & Sr). split; [|done].
      intros x Hx. apply Hlr; [done|left].
Qed.

Lemma sorted_NoDup (l : list ElementType) : StronglySorted less l → NoDup l.
Proof.
  induction 1 as [|x l _ IH Hx]; constructor; [|done].
  intros Hin. apply (proj1 (Forall_forall _ _) Hx) in Hin.
  by apply (irreflexivity less x).
Qed.

Lemma sorted_insert (l1 l2 : list ElementType) e :
  StronglySorted less (l1 ++ l2) →
  (∀ x, x ∈ l1 → less x e) → (∀ x, x ∈ l2 → less e x) →
  StronglySorted less (l1 ++ e :: l2).
Proof.
  rewrite !StronglySorted_app, StronglySorted_cons, Forall_forall.
  intros (H12 & S1 & S2) H1 H2. split; [|done].
  intros x1 x2 Hx1 [->|Hx2]%elem_of_cons; [by apply H1|by apply H12].
Qed.

Context `{!Trichotomy less}.

(** [contains_] on a search tree. *)
Lemma contains_spec t e :
  search_tree t → contains_ t e = bool_decide (e ∈ inorder_ t).
Proof.
  induction t as [|v l IHl r IHr]; simpl.
  - intros _.
    first [done | symmetry; apply bool_decide_eq_false_2, not_elem_of_nil].
  - intros (Hl & Hr & Sl & Sr). destruct (decide (v = e)) as [->|Hne].
    + symmetry. apply bool_decide_eq_true_2. apply elem_of_app. right. left.
    + destruct (decide (less e v)) as [Hlt|Hnlt].
      * rewrite IHl by done. apply bool_decide_ext.
        rewrite elem_of_app, elem_of_cons. split; [by left|].
        intros [?|[->|Hin]]; [done|done|].
        exfalso. by apply (less_asym e v), Hr.
      * rewrite IHr by done. apply bool_decide_ext.
        rewrite elem_of_app, elem_of_cons. split; [by right; right|].
        intros [Hin|[->|?]]; [|done|done].
        exfalso. by apply Hnlt, Hl.
Qed.

(** What [insert] returns, when it returns: the values in order, with the
    element put at its place if it was not there, and [sz]. *)
Lemma insert_inorder (b : bool) t e (sz : Z) t' (sz' : Z) :
  search_tree t →
  insert b t e sz = Ok (t', sz') →
  if bool_decide (e ∈ inorder_ t) then inorder_ t' = inorder_ t ∧ sz' = sz
  else ∃ xs ys : list ElementType,
         inorder_ t = xs ++ ys ∧ inorder_ t' = xs ++ e :: ys ∧
         (∀ x, x ∈ xs → less x e) ∧ (∀ x, x ∈ ys → less e x) ∧
         sz' = to_unsigned (sz + 1).
Proof.
  revert t' sz'. induction t as [|v l IHl r IHr]; intros t' sz'.
  - intros _ Hins. cbn [AVLSet.insert] in Hins.
    apply balance_inorder in Hins as [Ht' ->].
    rewrite bool_decide_eq_false_2 by apply not_elem_of_nil.
    exists [], []. split; [done|]. split; [done|].
    split; [by intros x ?%elem_of_nil|]. split; [by intros x ?%elem_of_nil|done].
  - intros (Hl & Hr & Sl & Sr). cbn [AVLSet.insert].
    destruct (decide (less e v)) as [Hlt|Hnlt].
    + destruct (insert b l e sz) as [[l' szl]| |] eqn:Hrec; [|done..]. cbn.
      intros [Ht' ->]%balance_inorder. rewrite Ht', !inorder_node.
      specialize (IHl l' szl Sl eq_refl).
      assert (Hmem : e ∈ inorder_ l ++ v :: inorder_ r ↔ e ∈ inorder_ l).
      { rewrite elem_of_app, elem_of_cons. split; [|by left].
        intros [?|[->|Hin]]; [done| |].
        - by apply (irreflexivity less v) in Hlt.
        - exfalso. by apply (less_asym e v), Hr. }
      rewrite (bool_decide_ext _ _ Hmem).
      destruct (bool_decide (e ∈ inorder_ l)).
      * destruct IHl as [-> ->]. done.
      * destruct IHl as (l1 & l2 & -> & -> & H1 & H2 & ->).
        exists l1, (l2 ++ v :: inorder_ r). rewrite <- !app_assoc.
        split; [done|]. split; [done|]. split; [done|]. split; [|done].
        intros x [?|[->|Hin]%elem_of_cons]%elem_of_app; [by apply H2|done|].
        transitivity v; [done|by apply Hr].
    + destruct (decide (less v e)) as [Hgt|Hngt].
      * destruct (insert b r e sz) as [[r' szr]| |] eqn:Hrec; [|done..]. cbn.
        intros [Ht' ->]%balance_inorder. rewrite Ht', !inorder_node.
        specialize (IHr r' szr Sr eq_refl).
        assert (Hmem : e ∈ inorder_ l ++ v :: inorder_ r ↔ e ∈ inorder_ r).
        { rewrite elem_of_app, elem_of_cons. split; [|by right; right].
          intros [Hin|[->|?]]; [| |done].
          - exfalso. by apply Hnlt, Hl.
          - by apply (irreflexivity less v) in Hgt. }
        rewrite (bool_decide_ext _ _ Hmem).
        destruct (bool_decide (e ∈ inorder_ r)).
        -- destruct IHr as [-> ->]. done.
        -- destruct IHr as (l1 & l2 & -> & -> & H1 & H2 & ->).
           exists (inorder_ l ++ v :: l1), l2. rewrite <- !app_assoc.
           split; [done|]. split; [done|]. split; [|done].
           intros x [Hin|[->|?]%elem_of_cons]%elem_of_app; [|done|by apply H1].
           transitivity v; [by apply Hl|done].
      * assert (e = v) as ->.
        { destruct (trichotomy less e v) as [?|[?|?]]; done. }
        rewrite decide_True by done. intros [= <- <-].
        rewrite bool_decide_eq_true_2; [done|].
        rewrite inorder_node. apply elem_of_app. right. left.
Qed.

(** *** Balance *)

Lemma checkBalance_steady v l r e :
  -1 ≤ height_ l - height_ r ≤ 1 →
  checkBalance (node v l r) e = Ok (node v l r).
Proof.
  intros Hb. unfold AVLSet.checkBalance.
  by rewrite !bool_decide_eq_false_2 by lia.
Qed.

(** With [isBalancing], [insert] into a balanced tree returns a balanced
    tree.  The height stays or grows by one; when it grows, no rotation was
    made at the root and the subtree on the side of the element is the
    higher one. *)
Lemma insert_balanced t e (sz : Z) :
  balanced t →
  ∃ t' (sz' : Z), insert true t e sz = Ok (t', sz') ∧ balanced t' ∧
    (height_ t' = height_ t ∨
     (height_ t' = height_ t + 1 ∧
      match t, t' with
      | AVLSet.nullptr, _ => True
      | _, AVLSet.node v' l' r' =>
          (less e v' ∧ height_ l' = height_ r' + 1) ∨
          (less v' e ∧ height_ r' = height_ l' + 1)
      | _, AVLSet.nullptr => False
      end)).
Proof.
  induction t as [|v l IHl r IHr].
  - intros _. eexists _, _. cbn [AVLSet.insert].
    rewrite checkBalance_steady by (simpl; lia). cbn.
    split; [done|]. split; [simpl; lia|]. right. simpl. lia.
  - intros (Hb & Bl & Br). cbn [AVLSet.insert].
    pose proof (height_ge l) as Hgl. pose proof (height_ge r) as Hgr.
    destruct (decide (less e v)) as [Hlt|Hnlt];
      [|destruct (decide (less v e)) as [Hgt|Hngt]].
    + destruct (IHl Bl) as (l' & szl & -> & Bl' & Hh). cbn.
      destruct (decide (height_ l' - height_ r ≤ 1)) as [Hle|Hbig].
      { rewrite checkBalance_steady by lia. cbn. eexists _, _.
        split; [done|]. split; [simpl; split; [lia|done]|].
        cbn [AVLSet.height_].
        destruct Hh as [Hh|[Hh _]]; [left; lia|].
        destruct (decide (height_ l = height_ r)); [right|left; lia].
        split; [lia|]. left. split; [done|lia]. }
      destruct Hh as [Hh|[Hh Hside]]; [lia|].
      destruct l as [|lv0 ll0 lr0]; [simpl in *; lia|].
      destruct l' as [|lv ll lr]; [done|].
      cbn [AVLSet.height_ AVLSet.balanced] in *.
      destruct Bl' as (Hbl' & Bll & Blr).
      pose proof (height_ge ll) as Hgll. pose proof (height_ge lr) as Hglr.
      unfold AVLSet.checkBalance. cbn [AVLSet.height_].
      rewrite bool_decide_eq_false_2 by lia.
      rewrite bool_decide_eq_true_2 by lia.
      destruct Hside as [[Hl Hside]|[Hr Hside]].
      * rewrite decide_True by done. cbn. eexists _, _. split; [done|].
        cbn [AVLSet.height_ AVLSet.balanced].
        split; [split; [lia|split; [done|split; [lia|done]]]|]. left. lia.
      * rewrite decide_False by (by apply less_asym).
        rewrite decide_True by done.
        destruct lr as [|xv xl xr]; [simpl in *; lia|].
        cbn [AVLSet.height_ AVLSet.balanced] in *.
        destruct Blr as (Hbx & Bxl & Bxr).
        pose proof (height_ge xl) as Hgxl. pose proof (height_ge xr) as Hgxr.
        cbn. eexists _, _. split; [done|].
        cbn [AVLSet.height_ AVLSet.balanced].
        split; [|left; lia].
        split; [lia|]. split; (split; [lia|done]).
    + destruct (IHr Br) as (r' & szr & -> & Br' & Hh). cbn.
      destruct (decide (-1 ≤ height_ l - height_ r')) as [Hle|Hbig].
      { rewrite checkBalance_steady by lia. cbn. eexists _, _.
        split; [done|]. split; [simpl; split; [lia|done]|].
        cbn [AVLSet.height_].
        destruct Hh as [Hh|[Hh _]]; [left; lia|].
        destruct (decide (height_ l = height_ r)); [right|left; lia].
        split; [lia|]. right. split; [done|lia]. }
      destruct Hh as [Hh|[Hh Hside]]; [lia|].
      destruct r as [|rv0 rl0 rr0]; [simpl in *; lia|].
      destruct r' as [|rv rl rr]; [done|].
      cbn [AVLSet.height_ AVLSet.balanced] in *.
      destruct Br' as (Hbr' & Brl & Brr).
      pose proof (height_ge rl) as Hgrl. pose proof (height_ge rr) as Hgrr.
      unfold AVLSet.checkBalance. cbn [AVLSet.height_].
      rewrite bool_decide_eq_true_2 by lia.
      destruct Hside as [[Hl Hside]|[Hr Hside]].
      * rewrite decide_False by (by apply less_asym).
        rewrite decide_True by done.
        destruct rl as [|xv xl xr]; [simpl in *; lia|].
        cbn [AVLSet.height_ AVLSet.balanced] in *.
        destruct Brl as (Hbx & Bxl & Bxr).
        pose proof (height_ge xl) as Hgxl. pose proof (height_ge xr) as Hgxr.
        cbn. eexists _, _. split; [done|].
        cbn [AVLSet.height_ AVLSet.balanced].
        split; [|left; lia].
        split; [lia|]. split; (split; [lia|done]).
      * rewrite decide_True by done. cbn. eexists _, _. split; [done|].
        cbn [AVLSet.height_ AVLSet.balanced].
        split; [split; [lia|split; [split; [lia|done]|done]]|]. left. lia.
    + destruct (decide (e = v)) as [->|Hne].
      * eexists _, _. split; [done|]. split; [done|]. by left.
      * rewrite checkBalance_steady by lia. cbn. eexists _, _.
        split; [done|]. split; [done|]. by left.
Qed.

(** Without [isBalancing], [insert] returns. *)
Lemma insert_plain t e (sz : Z) :
  ∃ res : AVLSet.Node ElementType * Z, insert false t e sz = Ok res.
Proof.
  induction t as [|v l IHl r IHr]; cbn [AVLSet.insert]; [by eexists|].
  destruct (decide (less e v)); [|destruct (decide (less v e))].
  - destruct IHl as (rl & ->). cbn. by eexists.
  - destruct IHr as (rr & ->). cbn. by eexists.
  - destruct (decide (e = v)); by eexists.
Qed.

(** *** [add] *)

Lemma AVLSet_add_step s e :
  AVLSet.well_formed less s →
  ∃ s', AVLSet.add less s e = Ok s' ∧ AVLSet.well_formed less s' ∧
        AVLSet.isBalancing s' = AVLSet.isBalancing s ∧
        if bool_decide (e ∈ AVLSet.inorder s) then
          AVLSet.inorder s' = AVLSet.inorder s ∧ AVLSet.sz s' = AVLSet.sz s
        else
          ∃ xs ys : list ElementType,
            AVLSet.inorder s = xs ++ ys ∧ AVLSet.inorder s' = xs ++ e :: ys ∧
            (∀ x, x ∈ xs → less x e) ∧ (∀ x, x ∈ ys → less e x) ∧
            AVLSet.sz s' = to_unsigned (AVLSet.sz s + 1).
Proof.
  intros (Hst & Hbal & Hsz). unfold AVLSet.add, AVLSet.inorder.
  assert (Hins : ∃ t' (sz' : Z),
    insert (AVLSet.isBalancing s) (AVLSet.root s) e (AVLSet.sz s) = Ok (t', sz') ∧
    (AVLSet.isBalancing s = true → balanced t')).
  { destruct (AVLSet.isBalancing s).
    - destruct (insert_balanced (AVLSet.root s) e (AVLSet.sz s))
        as (t' & sz' & Hins & Hb & _); [by apply Hbal|]. eauto.
    - destruct (insert_plain (AVLSet.root s) e (AVLSet.sz s)) as ([t' sz'] & Hins).
      by exists t', sz'. }
  destruct Hins as (t' & sz' & Hins & Hb). rewrite Hins. cbn.
  pose proof (insert_inorder _ _ _ _ _ _ Hst Hins) as Hin.
  apply search_tree_sorted in Hst.
  eexists. split; [done|]. simpl. split; [|split; [done|]].
  - split; [|split; [done|]]; simpl.
    + apply search_tree_sorted.
      destruct (bool_decide (e ∈ inorder_ (AVLSet.root s))).
      * destruct Hin as [-> _]. done.
      * destruct Hin as (xs & ys & Hxy & -> & H1 & H2 & _).
        rewrite Hxy in Hst. by apply sorted_insert.
    + destruct (bool_decide (e ∈ inorder_ (AVLSet.root s))).
      * destruct Hin as [_ ->]. done.
      * destruct Hin as (xs & ys & _ & _ & _ & _ & ->). apply to_unsigned_range.
  - done.
Qed.

(** [add] on a search tree (balanced, when the set balances) returns a tree
    of the same kind.  The element is contained afterwards and nothing else
    changes for [contains]; [size()] grows by one unless the element was
    contained; the in-order traversal gains the element at its place. *)
Theorem AVLSet_add s e :
  AVLSet.well_formed less s →
  ∃ s', AVLSet.add less s e = Ok s' ∧ AVLSet.well_formed less s' ∧
        AVLSet.isBalancing s' = AVLSet.isBalancing s ∧
        (∀ y, AVLSet.contains less s' y
              = bool_decide (y = e) || AVLSet.contains less s y) ∧
        AVLSet.size s' = (if AVLSet.contains less s e then AVLSet.size s
                          else to_unsigned (AVLSet.size s + 1)) ∧
        AVLSet.inorder s'
        = (if AVLSet.contains less s e then AVLSet.inorder s
           else filter (λ x, less x e) (AVLSet.inorder s) ++ e
                  :: filter (less e) (AVLSet.inorder s)).
Proof.
  intros Hs. destruct (AVLSet_add_step s e Hs) as (s' & Hadd & Hs' & Hb & Hin).
  exists s'. split; [done|]. split; [done|]. split; [done|].
  pose proof Hs as (Hst & _). pose proof Hs' as (Hst' & _).
  unfold AVLSet.contains, AVLSet.size. rewrite (contains_spec _ e Hst).
  assert (Hmem : ∀ y, y ∈ AVLSet.inorder s' ↔ y = e ∨ y ∈ AVLSet.inorder s).
  { intros y. destruct (bool_decide (e ∈ AVLSet.inorder s)) eqn:He.
    - destruct Hin as [-> _]. apply bool_decide_eq_true_1 in He.
      split; [by right|]. by intros [->|?].
    - destruct Hin as (xs & ys & -> & -> & _).
      rewrite !elem_of_app, elem_of_cons. tauto. }
  split; [|split].
  - intros y. rewrite !contains_spec by done.
    apply eq_true_iff_eq. rewrite orb_true_iff, !bool_decide_eq_true.
    apply Hmem.
  - unfold AVLSet.inorder in *.
    destruct (bool_decide (e ∈ inorder_ (AVLSet.root s))); [by destruct Hin|].
    by destruct Hin as (xs & ys & _ & _ & _ & _ & ->).
  - unfold AVLSet.inorder in *.
    destruct (bool_decide (e ∈ inorder_ (AVLSet.root s))); [by destruct Hin|].
    destruct Hin as (xs & ys & Hxy & -> & H1 & H2 & _). rewrite Hxy.
    rewrite !filter_app.
    rewrite (filter_all (λ x, less x e) xs) by (by apply Forall_forall).
    rewrite (filter_all (less e) ys) by (by apply Forall_forall).
    rewrite (filter_none (λ x, less x e) ys), (filter_none (less e) xs).
    + by rewrite app_nil_r.
    + apply Forall_forall. intros x Hx. by apply less_asym, H1.
    + apply Forall_forall. intros x Hx. by apply less_asym, H2.
Qed.

Lemma AVLSet_add_all_snoc s es e :
  AVLSet.add_all less s (es ++ [e])
  = (s' ← AVLSet.add_all less s es; AVLSet.add less s' e).
Proof. unfold AVLSet.add_all. by rewrite foldl_app. Qed.

(** What holds of a set after any sequence of [add]s, from its
    construction on. *)
Lemma AVLSet_add_all_spec (b : bool) (es : list ElementType) :
  ∃ s, AVLSet.add_all less (AVLSet.create b) es = Ok s ∧
       AVLSet.well_formed less s ∧ AVLSet.isBalancing s = b ∧
       (∀ y, y ∈ AVLSet.inorder s ↔ y ∈ es) ∧
       AVLSet.sz s = to_unsigned (Z.of_nat (length (AVLSet.inorder s))).
Proof.
  induction es as [|e es IH] using rev_ind.
  - exists (AVLSet.create b). split; [done|]. split; [|done].
    split; [done|]. split; [done|]. simpl. lia.
  - destruct IH as (s & Hall & Hs & Hb & Hmem & Hsz).
    destruct (AVLSet_add_step s e Hs) as (s' & Hadd & Hs' & Hb' & Hin).
    exists s'. rewrite AVLSet_add_all_snoc, Hall. split; [done|].
    split; [done|]. split; [congruence|].
    destruct (bool_decide (e ∈ AVLSet.inorder s)) eqn:He.
    + destruct Hin as [-> ->]. apply bool_decide_eq_true_1 in He.
      split; [|done]. intros y.
      rewrite elem_of_app, list_elem_of_singleton, Hmem.
      split; [by left|]. intros [?| ->]; [done|]. by apply Hmem.
    + destruct Hin as (xs & ys & Hxy & -> & _ & _ & ->). split.
      * intros y. rewrite (elem_of_app es), <- Hmem, Hxy.
        rewrite !elem_of_app, elem_of_cons, list_elem_of_singleton. tauto.
      * rewrite Hsz, Hxy, to_unsigned_succ, !length_app, length_cons.
        f_equal. lia.
Qed.

(** A set that is constructed and to which elements are added, in whatever
    order and with or without balancing, is the set of these elements:
    every [add] returns, [contains] is true exactly of the elements that
    were added, the in-order traversal visits them in ascending order, each
    once, and [size()] is their number as an [unsigned int]. *)
Theorem AVLSet_is_a_set (b : bool) (es : list ElementType) :
  ∃ s, AVLSet.add_all less (AVLSet.create b) es = Ok s ∧
       (∀ y, AVLSet.contains less s y = bool_decide (y ∈ es)) ∧
       StronglySorted less (AVLSet.inorder s) ∧
       AVLSet.inorder s ≡ₚ remove_dups es ∧
       AVLSet.size s = to_unsigned (Z.of_nat (length (remove_dups es))).
Proof.
  destruct (AVLSet_add_all_spec b es) as (s & Hall & Hs & _ & Hmem & Hsz).
  pose proof Hs as (Hst & _).
  assert (Hsorted : StronglySorted less (AVLSet.inorder s))
    by by apply search_tree_sorted.
  assert (Hperm : AVLSet.inorder s ≡ₚ remove_dups es).
  { apply NoDup_Permutation.
    - by apply sorted_NoDup.
    - apply NoDup_remove_dups.
    - intros y. by rewrite elem_of_remove_dups. }
  exists s. split; [done|]. split; [|split; [done|split; [done|]]].
  - intros y. unfold AVLSet.contains. rewrite contains_spec by done.
    apply bool_decide_ext, Hmem.
  - unfold AVLSet.size. by rewrite Hsz, Hperm.
Qed.

(** *** Heights *)

Lemma balanced_height t :
  balanced t → 2 ^ ((height_ t + 1) / 2) ≤ Z.of_nat (length (inorder_ t)) + 1.
Proof.
  induction t as [|v l IHl r IHr]; [done|].
  intros (Hb & Bl & Br). specialize (IHl Bl). specialize (IHr Br).
  pose proof (height_ge l) as Hgl. pose proof (height_ge r) as Hgr.
  rewrite inorder_node, length_app, length_cons. cbn [AVLSet.height_].
  remember (Z.max (height_ l) (height_ r) + 1) as h eqn:Hh.
  destruct (decide (h = 0)) as [->|Hpos].
  { change (2 ^ ((0 + 1) / 2)) with 1. lia. }
  assert (Hhalf : (h + 1) / 2 = (h - 1) / 2 + 1).
  { replace (h + 1) with (h - 1 + 1 * 2) by lia. by rewrite Z.div_add. }
  assert (Hl : 2 ^ ((h - 1) / 2) ≤ 2 ^ ((height_ l + 1) / 2)).
  { apply Z.pow_le_mono_r; [lia|]. apply Z.div_le_mono; lia. }
  assert (Hr : 2 ^ ((h - 1) / 2) ≤ 2 ^ ((height_ r + 1) / 2)).
  { apply Z.pow_le_mono_r; [lia|]. apply Z.div_le_mono; lia. }
  assert (Hnn : 0 ≤ (h - 1) / 2) by (apply Z.div_pos; lia).
  rewrite Hhalf, Z.pow_add_r; [|exact Hnn|lia]. change (2 ^ 1) with 2. lia.
Qed.

(** A set that balances keeps its tree balanced, and low: with n elements
    added, of which d are distinct, [2 ^ ((height() + 1) / 2) <= d + 1]
    (the division is the integer division). *)
Theorem AVLSet_balanced_height (es : list ElementType) :
  ∃ s, AVLSet.add_all less (AVLSet.create true) es = Ok s ∧
       balanced (AVLSet.root s) ∧
       2 ^ ((AVLSet.height s + 1) / 2)
       ≤ Z.of_nat (length (remove_dups es)) + 1.
Proof.
  destruct (AVLSet_add_all_spec true es) as (s & Hall & Hs & Hb & Hmem & Hsz).
  destruct Hs as (Hst & Hbal & _). specialize (Hbal Hb).
  exists s. split; [done|]. split; [done|].
  assert (Hperm : AVLSet.inorder s ≡ₚ remove_dups es).
  { apply NoDup_Permutation.
    - by apply sorted_NoDup, search_tree_sorted.
    - apply NoDup_remove_dups.
    - intros y. by rewrite elem_of_remove_dups. }
  rewrite <- Hperm. by apply balanced_height.
Qed.

(** *** Traversals *)

Lemma preorder_Permutation t : AVLSet.preorder_ t ≡ₚ inorder_ t.
Proof.
  induction t as [|v l IHl r IHr]; [done|]. simpl.
  rewrite IHl, IHr. by rewrite Permutation_middle.
Qed.

Lemma postorder_Permutation t : AVLSet.postorder_ t ≡ₚ inorder_ t.
Proof.
  induction t as [|v l IHl r IHr]; [done|]. simpl.
  rewrite IHl, IHr. apply Permutation_app_head. symmetry.
  apply Permutation_cons_append.
Qed.

(** On a search tree the in-order traversal visits the values in ascending
    order, and [contains] is true exactly of the values it visits; the
    pre-order and the post-order traversals visit the same values, the
    pre-order one starting and the post-order one ending with the value at
    the root. *)
Theorem AVLSet_traversals s :
  search_tree (AVLSet.root s) →
  StronglySorted less (AVLSet.inorder s) ∧
  (∀ y, AVLSet.contains less s y = bool_decide (y ∈ AVLSet.inorder s)) ∧
  AVLSet.preorder s ≡ₚ AVLSet.inorder s ∧
  AVLSet.postorder s ≡ₚ AVLSet.inorder s ∧
  (∀ v l r, AVLSet.root s = node v l r →
            head (AVLSet.preorder s) = Some v ∧
            last (AVLSet.postorder s) = Some v).
Proof.
  intros Hst. split; [by apply search_tree_sorted|].
  split; [intros y; by apply contains_spec|].
  split; [apply preorder_Permutation|]. split; [apply postorder_Permutation|].
  intros v l r Hroot. unfold AVLSet.preorder, AVLSet.postorder.
  rewrite Hroot. simpl. split; [done|].
  by rewrite app_assoc, last_snoc.
Qed.

(** *** Without balancing *)

Lemma insert_right_spine (es : list ElementType) e (sz : Z) :
  (∀ x, x ∈ es → less x e) →
  insert false (AVLSet.right_spine es) e sz
  = Ok (AVLSet.right_spine (es ++ [e]), to_unsigned (sz + 1)).
Proof.
  induction es as [|x es IH]; intros Hes; [done|].
  cbn [AVLSet.insert AVLSet.right_spine app].
  assert (Hx : less x e) by (apply Hes; left).
  rewrite decide_False by (by apply less_asym). rewrite decide_True by done.
  rewrite IH by (intros y Hy; apply Hes; by right). done.
Qed.

Lemma height_right_spine (es : list ElementType) :
  height_ (AVLSet.right_spine es) = Z.of_nat (length es) - 1.
Proof.
  induction es as [|x es IH]; [done|]. cbn [AVLSet.right_spine AVLSet.height_].
  rewrite IH, length_cons. lia.
Qed.

Lemma preorder_right_spine (es : list ElementType) :
  AVLSet.preorder_ (AVLSet.right_spine es) = es.
Proof. induction es as [|x es IH]; [done|]. simpl. by rewrite IH. Qed.

(** A set that does not balance, to which elements are added in ascending
    order, is a list: no node has a left subtree, and [height()] is the
    number of elements less one. *)
Theorem AVLSet_unbalanced_ascending (es : list ElementType) :
  StronglySorted less es →
  ∃ s, AVLSet.add_all less (AVLSet.create false) es = Ok s ∧
       AVLSet.root s = AVLSet.right_spine es ∧
       AVLSet.height s = Z.of_nat (length es) - 1 ∧
       AVLSet.preorder s = es ∧ AVLSet.inorder s = es.
Proof.
  intros Hsorted.
  assert (Hspine : ∃ s, AVLSet.add_all less (AVLSet.create false) es = Ok s ∧
    AVLSet.root s = AVLSet.right_spine es ∧ AVLSet.isBalancing s = false).
  { induction es as [|e es IH] using rev_ind; [by eexists|].
    apply StronglySorted_app in Hsorted as (Hlt & Hes & _).
    destruct (IH Hes) as (s & Hall & Hroot & Hb).
    rewrite AVLSet_add_all_snoc, Hall. cbn. unfold AVLSet.add.
    rewrite Hb, Hroot, insert_right_spine.
    - cbn. by eexists.
    - intros x Hx. apply Hlt; [done|left]. }
  destruct Hspine as (s & Hall & Hroot & _). exists s.
  unfold AVLSet.height, AVLSet.preorder, AVLSet.inorder. rewrite Hroot.
  split; [done|]. split; [done|]. split; [apply height_right_spine|].
  split; [apply preorder_right_spine|].
  clear. induction es as [|x es IH]; [done|]. simpl. by rewrite IH.
Qed.

End AVLSetFacts.

(** *** After a move *)

Section AVLSetMoved.
Context {ElementType : Type} `{EqDecision ElementType}.
Context (less : relation ElementType) `{∀ x y, Decision (less x y)}.

(** The move constructor gives the new object the tree of the source and
    leaves the source with no node, but with the [sz] it had: the source is
    an empty set whose [size()] is the old one, and an [add] to it counts on
    from there. *)
Theorem AVLSet_moved_from (s : AVLSet.AVLSet ElementType) (e : ElementType) :
  (AVLSet.move_construct s).1 = s ∧
  AVLSet.root (AVLSet.move_construct s).2 = AVLSet.nullptr ∧
  (∀ y, AVLSet.contains less (AVLSet.move_construct s).2 y = false) ∧
  AVLSet.height (AVLSet.move_construct s).2 = -1 ∧
  AVLSet.size (AVLSet.move_construct s).2 = AVLSet.size s ∧
  ∃ s', AVLSet.add less (AVLSet.move_construct s).2 e = Ok s' ∧
        AVLSet.inorder s' = [e] ∧
        AVLSet.size s' = to_unsigned (AVLSet.size s + 1).
Proof.
  split; [by destruct s|]. split; [done|]. split; [done|]. split; [done|].
  split; [done|]. unfold AVLSet.add. simpl.
  destruct (AVLSet.isBalancing s); cbn; by eexists.
Qed.

End AVLSetMoved.

(** ** The two sets at given values *)

#[local] Instance Z_lt_trichotomy : Trichotomy Z.lt.
Proof. intros x y. lia. Qed.

Lemma allocated_nine : HashSet.allocated nine.
Proof. eexists. split; [done|]. split; [done|]. simpl. lia. Qed.

(** The set [nine] is what nine calls of [add] build. *)
Example nine_built :
  HashSet.add_all hash_id HashSet.create [0; 1; 2; 3; 4; 5; 6; 7; 8] = Ok nine.
Proof. by vm_compute. Qed.

(** The tenth [add] resizes the table to 21 buckets and puts the ten nodes in
    bucket 9: [contains(0)] is false afterwards, and adding 0 again makes
    [size()] 11. *)
Example tenth_add_hides_elements :
  ∃ s s', HashSet.add hash_id nine 9 = Ok s ∧
          HashSet.contains hash_id nine 0 = Ok true ∧
          HashSet.contains hash_id s 0 = Ok false ∧
          HashSet.elementsAtIndex s 9 = Ok 10 ∧ HashSet.size s = 10 ∧
          HashSet.add hash_id s 0 = Ok s' ∧ HashSet.size s' = 11.
Proof. eexists _, _. repeat split; by vm_compute. Qed.

(** [HashSet_add_contains] at a new set. *)
Lemma HashSet_add_contains_create :
  ∃ s', HashSet.add hash_id HashSet.create 5 = Ok s' ∧ HashSet.allocated s' ∧
        HashSet.contains hash_id s' 5 = Ok true ∧
        (∀ y, y ∈ HashSet.nodes s' ↔ y = 5 ∨ y ∈ HashSet.nodes (@HashSet.create Z)) ∧
        (HashSet.size (@HashSet.create Z)
         = to_unsigned (Z.of_nat (length (HashSet.nodes (@HashSet.create Z)))) →
         HashSet.size s' = to_unsigned (Z.of_nat (length (HashSet.nodes s')))).
Proof.
  apply (HashSet_add_contains hash_id HashSet.create 5).
  eexists. split; [done|]. split; [done|]. simpl.
  unfold HashSet.DEFAULT_CAPACITY. lia.
Defined.

(** [HashSet_add_in_place] at a new set. *)
Lemma HashSet_add_in_place_create :
  ∃ s', HashSet.add hash_id HashSet.create 13 = Ok s' ∧ HashSet.allocated s' ∧
        HashSet.capacity s' = HashSet.capacity (@HashSet.create Z) ∧
        HashSet.contains hash_id s' 13 = Ok true ∧
        (∀ y, y ≠ 13 →
              HashSet.contains hash_id s' y = HashSet.contains hash_id HashSet.create y) ∧
        HashSet.size s' = match HashSet.contains hash_id HashSet.create 13 with
                          | Ok true => HashSet.size (@HashSet.create Z)
                          | _ => to_unsigned (HashSet.size (@HashSet.create Z) + 1)
                          end ∧
        (HashSet.placed hash_id HashSet.create → HashSet.placed hash_id s').
Proof.
  apply (HashSet_add_in_place hash_id HashSet.create 13).
  - eexists. split; [done|]. split; [done|]. simpl.
    unfold HashSet.DEFAULT_CAPACITY. lia.
  - simpl. unfold HashSet.DEFAULT_CAPACITY. lia.
Defined.

(** [HashSet_small_set] at three elements, two of which share a bucket. *)
Lemma HashSet_small_set_collision :
  ∃ s, HashSet.add_all hash_id HashSet.create [3; 13; 3] = Ok s ∧
       HashSet.capacity s = 10 ∧
       (∀ y, HashSet.contains hash_id s y = Ok (bool_decide (y ∈ [3; 13; 3]))) ∧
       HashSet.size s = Z.of_nat (length (remove_dups [3; 13; 3])).
Proof. apply (HashSet_small_set hash_id [3; 13; 3]). vm_compute. lia. Defined.

(** [HashSet_add_resizes] at [nine]. *)
Lemma HashSet_add_resizes_nine :
  ∃ s', HashSet.add hash_id nine 9 = Ok s' ∧
        HashSet.capacity s' = to_unsigned (HashSet.capacity nine * 2 + 1) ∧
        HashSet.contains hash_id s' 9 = Ok true ∧
        (∀ y, HashSet.hash hash_id y `mod` HashSet.capacity s'
              ≠ HashSet.hash hash_id 9 `mod` HashSet.capacity s' →
              HashSet.contains hash_id s' y = Ok false) ∧
        (∀ i, 0 ≤ i < HashSet.capacity s' →
              i ≠ HashSet.hash hash_id 9 `mod` HashSet.capacity s' →
              HashSet.elementsAtIndex s' i = Ok 0) ∧
        (∀ y, y ∈ HashSet.nodes nine → y ∈ HashSet.nodes s').
Proof.
  apply (HashSet_add_resizes hash_id nine 9); [apply allocated_nine|].
  simpl. lia.
Defined.

(** [HashSet_copy] at [nine]. *)
Lemma HashSet_copy_nine :
  ∃ s', HashSet.copy_construct nine = Ok s' ∧ HashSet.allocated s' ∧
        HashSet.size s' = HashSet.size nine ∧
        HashSet.capacity s' = HashSet.capacity nine ∧
        (∀ i head, HashSet.bucket nine i = Ok head →
                   HashSet.bucket s' i = Ok (reverse head)) ∧
        (∀ y, HashSet.contains hash_id s' y = HashSet.contains hash_id nine y) ∧
        (∀ i, HashSet.elementsAtIndex s' i = HashSet.elementsAtIndex nine i) ∧
        (∀ this, HashSet.allocated this → HashSet.copy_assign this nine = Ok s').
Proof. apply (HashSet_copy hash_id nine), allocated_nine. Defined.

(** [HashSet_isElementAtIndex] at [nine], for the index 12. *)
Lemma HashSet_isElementAtIndex_nine :
  (HashSet.capacity nine ≤ 12 →
     HashSet.isElementAtIndex nine 3 12 = Undefined ∧
     HashSet.elementsAtIndex nine 12 = Ok 0) ∧
  (12 < HashSet.capacity nine →
     ∃ head, HashSet.bucket nine 12 = Ok head ∧
             HashSet.isElementAtIndex nine 3 12 = Ok (bool_decide (3 ∈ head)) ∧
             HashSet.elementsAtIndex nine 12
             = Ok (to_unsigned (Z.of_nat (length head)))) ∧
  HashSet.isElementAtIndex nine 3 (HashSet.hash hash_id 3 `mod` HashSet.capacity nine)
  = HashSet.contains hash_id nine 3.
Proof.
  apply (HashSet_isElementAtIndex hash_id nine 3 12); [apply allocated_nine|lia].
Defined.

Lemma well_formed_avl_123 : AVLSet.well_formed Z.lt avl_123.
Proof.
  split; [|split].
  - simpl. repeat split; try done; intros x Hx;
      repeat (apply elem_of_cons in Hx as [->|Hx]; [lia|]);
      by apply elem_of_nil in Hx.
  - intros _. simpl. repeat split; lia.
  - simpl. lia.
Qed.

(** The set [avl_123] is what [add] of 3, 2 and 1 builds, with a rotation at
    the third; without balancing the three nodes are in a line. *)
Example avl_123_built :
  AVLSet.add_all Z.lt (AVLSet.create true) [3; 2; 1] = Ok avl_123 ∧
  AVLSet.height avl_123 = 1 ∧
  ∃ s, AVLSet.add_all Z.lt (AVLSet.create false) [3; 2; 1] = Ok s ∧
       AVLSet.height s = 2.
Proof.
  split; [by vm_compute|]. split; [by vm_compute|].
  eexists. split; by vm_compute.
Qed.

(** [AVLSet_add] at [avl_123], for the element 4. *)
Lemma AVLSet_add_avl_123 :
  ∃ s', AVLSet.add Z.lt avl_123 4 = Ok s' ∧ AVLSet.well_formed Z.lt s' ∧
        AVLSet.isBalancing s' = AVLSet.isBalancing avl_123 ∧
        (∀ y, AVLSet.contains Z.lt s' y
              = bool_decide (y = 4) || AVLSet.contains Z.lt avl_123 y) ∧
        AVLSet.size s' = (if AVLSet.contains Z.lt avl_123 4 then AVLSet.size avl_123
                          else to_unsigned (AVLSet.size avl_123 + 1)) ∧
        AVLSet.inorder s'
        = (if AVLSet.contains Z.lt avl_123 4 then AVLSet.inorder avl_123
           else filter (λ x, x < 4) (AVLSet.inorder avl_123) ++ 4
                  :: filter (Z.lt 4) (AVLSet.inorder avl_123)).
Proof. apply (AVLSet_add Z.lt avl_123 4), well_formed_avl_123. Defined.

(** [AVLSet_is_a_set] for the elements 3, 2, 1, 2 and a set that balances. *)
Lemma AVLSet_is_a_set_3212 :
  ∃ s, AVLSet.add_all Z.lt (AVLSet.create true) [3; 2; 1; 2] = Ok s ∧
       (∀ y, AVLSet.contains Z.lt s y = bool_decide (y ∈ [3; 2; 1; 2])) ∧
       StronglySorted Z.lt (AVLSet.inorder s) ∧
       AVLSet.inorder s ≡ₚ remove_dups [3; 2; 1; 2] ∧
       AVLSet.size s = to_unsigned (Z.of_nat (length (remove_dups [3; 2; 1; 2]))).
Proof. apply (AVLSet_is_a_set Z.lt true [3; 2; 1; 2]). Defined.

(** [AVLSet_balanced_height] for the elements 1 to 7 in ascending order. *)
Lemma AVLSet_balanced_height_1_to_7 :
  ∃ s, AVLSet.add_all Z.lt (AVLSet.create true) [1; 2; 3; 4; 5; 6; 7] = Ok s ∧
       AVLSet.balanced (AVLSet.root s) ∧
       2 ^ ((AVLSet.height s + 1) / 2)
       ≤ Z.of_nat (length (remove_dups [1; 2; 3; 4; 5; 6; 7])) + 1.
Proof. apply (AVLSet_balanced_height Z.lt [1; 2; 3; 4; 5; 6; 7]). Defined.

(** [AVLSet_traversals] at [avl_123]. *)
Lemma AVLSet_traversals_avl_123 :
  StronglySorted Z.lt (AVLSet.inorder avl_123) ∧
  (∀ y, AVLSet.contains Z.lt avl_123 y = bool_decide (y ∈ AVLSet.inorder avl_123)) ∧
  AVLSet.preorder avl_123 ≡ₚ AVLSet.inorder avl_123 ∧
  AVLSet.postorder avl_123 ≡ₚ AVLSet.inorder avl_123 ∧
  (∀ v l r, AVLSet.root avl_123 = AVLSet.node v l r →
            head (AVLSet.preorder avl_123) = Some v ∧
            last (AVLSet.postorder avl_123) = Some v).
Proof.
  apply (AVLSet_traversals Z.lt avl_123). apply well_formed_avl_123.
Defined.

(** [AVLSet_unbalanced_ascending] for the elements 1 to 7. *)
Lemma AVLSet_unbalanced_ascending_1_to_7 :
  ∃ s, AVLSet.add_all Z.lt (AVLSet.create false) [1; 2; 3; 4; 5; 6; 7] = Ok s ∧
       AVLSet.root s = AVLSet.right_spine [1; 2; 3; 4; 5; 6; 7] ∧
       AVLSet.height s = Z.of_nat (length [1; 2; 3; 4; 5; 6; 7]) - 1 ∧
       AVLSet.preorder s = [1; 2; 3; 4; 5; 6; 7] ∧
       AVLSet.inorder s = [1; 2; 3; 4; 5; 6; 7].
Proof.
  apply (AVLSet_unbalanced_ascending Z.lt [1; 2; 3; 4; 5; 6; 7]).
  repeat (constructor; [|repeat (constructor; [lia|]); constructor]).
  constructor.
Defined.
